(** * schedsim: processors, queues and the statistics drain

    A shallow embedding of the scheduling blocks of the simulator
    (package [blocks]: requests, FIFO and priority queues, the RTC, TS,
    SRPT-TS, PS and bounded processors, and the [AllKeeper] drain),
    followed by the properties proved about them.

    Numbers.  Go's [float64] values (times, service times, delays) are
    represented by exact rationals [Q]: [==] on floats is [Qeq_bool], [<] and
    [<=] are [Qltb] and [Qle_bool].  Rounding, infinities and NaN are not
    represented; in particular a division by zero, which yields an infinity
    or NaN in Go, yields [0] here, and the statements below stay away from
    it.  Where rounding decides what the program does, the statements keep
    to numbers on which float64 computes exactly, and the PS processor is
    given a second time on binary64 numbers ([PSProcessor64]), on which
    the runs that rounding turns are computed.  Go's [int] is [Z]; slice
    indices are [nat], with the places where Go would compute a negative
    index guarded.

    Pointers.  Requests are heap objects mutated in place through
    [SubServiceTime].  Every request is held by one place at a time (a
    queue, the local variable of the processor serving it, the in-progress
    list of the PS processor), so a request is represented by its value and
    a mutation by the replacement of that value. *)

From Stdlib Require Import ZArith QArith Qminmax Lqa Lia String Sorted.
From Stdlib Require Floats.
From stdpp Require Import base option list.

Local Open Scope Q_scope.

(** ** Numbers *)

(** [x < y] on float64 values. *)
Definition Qltb (x y : Q) : bool := negb (Qle_bool y x).

(** The conversion [float64(n)] of an [int]. *)
Definition float64 (n : Z) : Q := inject_Z n.

(** A float64 division with a finite quotient.  [None] stands for the
    quotient by zero, which is an infinity or NaN; whatever is computed from
    it is an infinity or NaN again. *)
Definition finite_div (a b : Q) : option Q :=
  if Qeq_bool b 0 then None else Some (a / b).

(** A value or a Go panic with its message. *)
Inductive Result (A : Type) : Type :=
| Ok (a : A)
| Panic (msg : string).
Arguments Ok {A} a.
Arguments Panic {A} msg.

(** ** Requests (request.go) *)

Record Request : Type := mkRequest {
  InitTime : Q;
  ServiceTime : Q;
  OriginalServiceTime : Q
}.

(** [GetDelay]: [engine.GetTime() - r.InitTime]; the engine clock is the
    argument [now]. *)
Definition GetDelay (now : Q) (r : Request) : Q := now - InitTime r.

Definition GetServiceTime (r : Request) : Q := ServiceTime r.

(** [SubServiceTime]: [r.ServiceTime -= t]. *)
Definition SubServiceTime (t : Q) (r : Request) : Request :=
  {| InitTime := InitTime r;
     ServiceTime := ServiceTime r - t;
     OriginalServiceTime := OriginalServiceTime r |}.

Definition GetOriginalServiceTime (r : Request) : Q := OriginalServiceTime r.

(** The dynamic values of interface type [engine.ReqInterface] that the
    package creates: a pointer to a [Request] or to one of the three structs
    that embed it. *)
Inductive ReqInterface : Type :=
| PlainReq (r : Request)
| StealableReq (r : Request) (stolen : bool)
| MonitorReq (r : Request) (initLength finalLength : Z)
| ColoredReq (r : Request) (color : Z).

(** The embedded [Request]. *)
Definition base (x : ReqInterface) : Request :=
  match x with
  | PlainReq r => r
  | StealableReq r _ => r
  | MonitorReq r _ _ => r
  | ColoredReq r _ => r
  end.

(** A method of the embedded [Request] with a pointer receiver, promoted to
    the embedding struct. *)
Definition on_base (f : Request -> Request) (x : ReqInterface) : ReqInterface :=
  match x with
  | PlainReq r => PlainReq (f r)
  | StealableReq r s => StealableReq (f r) s
  | MonitorReq r i l => MonitorReq (f r) i l
  | ColoredReq r c => ColoredReq (f r) c
  end.

Definition RI_GetServiceTime (x : ReqInterface) : Q := GetServiceTime (base x).
Definition RI_GetDelay (now : Q) (x : ReqInterface) : Q := GetDelay now (base x).
Definition RI_SubServiceTime (t : Q) (x : ReqInterface) : ReqInterface :=
  on_base (SubServiceTime t) x.

(** What [%T] prints for the value. *)
Definition RI_typeName (x : ReqInterface) : string :=
  match x with
  | PlainReq _ => "*blocks.Request"
  | StealableReq _ _ => "*blocks.StealableReq"
  | MonitorReq _ _ _ => "*blocks.MonitorReq"
  | ColoredReq _ _ => "*blocks.ColoredReq"
  end.

(** The request creators; [now] is [engine.GetTime()] at the call. *)
Definition newRequest (now serviceTime : Q) : Request :=
  {| InitTime := now; ServiceTime := serviceTime;
     OriginalServiceTime := serviceTime |}.

Definition SimpleReqCreator_NewRequest (now serviceTime : Q) : ReqInterface :=
  PlainReq (newRequest now serviceTime).

Definition StealableReqCreator_NewRequest (now serviceTime : Q) : ReqInterface :=
  StealableReq (newRequest now serviceTime) false.

Definition MonitorReqCreator_NewRequest (now serviceTime : Q) : ReqInterface :=
  MonitorReq (newRequest now serviceTime) 0 0.

(** [rnd] is the value of [rand.Int()], which is not negative. *)
Definition ColoredReqCreator_NewRequest (rnd : Z) (now serviceTime : Q) : ReqInterface :=
  ColoredReq (newRequest now serviceTime) (Z.rem rnd 2).

(** ** The FIFO queue (queue.go) *)

Module Queue.

(** [container/list] used as a queue: the front is the head of the list. *)
Record Queue : Type := mkQueue { l : list ReqInterface; id : Z }.

(** [NewQueue]; [cnt] is the package counter [count] at the call. *)
Definition NewQueue (cnt : Z) : Queue := {| l := []; id := cnt |}.

Definition Enqueue (el : ReqInterface) (q : Queue) : Queue :=
  {| l := l q ++ [el]; id := id q |}.

(** [Dequeue]: on an empty list [Front()] is nil and [Remove(nil)]
    dereferences it. *)
Definition Dequeue (q : Queue) : Result (ReqInterface * Queue) :=
  match l q with
  | [] => Panic "invalid memory address or nil pointer dereference"
  | el :: rest => Ok (el, {| l := rest; id := id q |})
  end.

Definition Len (q : Queue) : Z := Z.of_nat (length (l q)).

End Queue.

(** ** The priority queue (queue.go) *)

(** The interface [Comparable]. *)
Class Comparable (A : Type) : Type := {
  GetCmpVal : A -> Q;
  CmpGetServiceTime : A -> Q;
  GetInitTime : A -> Q
}.

Module PQ.

(** [type pQueue []Comparable]: a slice, as a list. *)
Abbreviation pQueue A := (list A) (only parsing).

Section WithComparable.

Context {A : Type} `{Comparable A}.

Definition Len (pq : pQueue A) : nat := length pq.

(** The comparison of [pQueue.Less] on two elements. *)
Definition less (a b : A) : bool :=
  if Qeq_bool (GetCmpVal a) (GetCmpVal b)
  then Qltb (GetInitTime a) (GetInitTime b)
  else Qltb (GetCmpVal a) (GetCmpVal b).

(** [pQueue.Less]; [None] is the index-out-of-range panic. *)
Definition Less (pq : pQueue A) (i j : nat) : option bool :=
  a ← pq !! i; b ← pq !! j; Some (less a b).

(** [pQueue.Swap]: [pq[i], pq[j] = pq[j], pq[i]]. *)
Definition Swap (pq : pQueue A) (i j : nat) : option (pQueue A) :=
  a ← pq !! i; b ← pq !! j; Some (<[i:=b]> (<[j:=a]> pq)).

(** [pQueue.Push]: [append]. *)
Definition Push (pq : pQueue A) (x : A) : pQueue A := pq ++ [x].

(** [pQueue.Pop]: the last element and the slice without it. *)
Definition Pop (pq : pQueue A) : option (A * pQueue A) :=
  let n := length pq in
  match n with
  | O => None
  | S m => item ← pq !! m; Some (item, take m pq)
  end.

(** [up] of Go's [container/heap].  [(j - 1) / 2] is [0] for [j = 0] in Go
    (division truncates) as it is on [nat].  [None] is a panic of [Less]
    or [Swap], or the end of the fuel. *)
Fixpoint up (fuel : nat) (h : pQueue A) (j : nat) : option (pQueue A) :=
  match fuel with
  | O => None
  | S fuel' =>
      let i := ((j - 1) / 2)%nat in
      if (i =? j)%nat then Some h
      else
        lt ← Less h j i;
        if negb lt then Some h
        else h' ← Swap h i j; up fuel' h' i
  end.

(** [down] of Go's [container/heap]; its boolean result is not used by
    [heap.Pop].  The test [j1 < 0] guards an integer overflow. *)
Fixpoint down (fuel : nat) (h : pQueue A) (i n : nat) : option (pQueue A) :=
  match fuel with
  | O => None
  | S fuel' =>
      let j1 := (2 * i + 1)%nat in
      if (n <=? j1)%nat then Some h
      else
        let j2 := (j1 + 1)%nat in
        right ← (if (j2 <? n)%nat then Less h j2 j1 else Some false);
        let j := if (right : bool) then j2 else j1 in
        lt ← Less h j i;
        if negb lt then Some h
        else h' ← Swap h i j; down fuel' h' j n
  end.

(** [heap.Push]: [h.Push(x); up(h, h.Len()-1)].  The loop of [up] runs at
    most [h.Len()] times. *)
Definition heap_Push (h : pQueue A) (x : A) : option (pQueue A) :=
  let h' := Push h x in
  up (Len h') h' (Len h' - 1)%nat.

(** [heap.Pop]: [n := h.Len() - 1; h.Swap(0, n); down(h, 0, n);
    return h.Pop()].  On an empty heap [n] is [-1] and [Swap] panics. *)
Definition heap_Pop (h : pQueue A) : option (A * pQueue A) :=
  match Len h with
  | O => None
  | S n =>
      h1 ← Swap h 0 n;
      h2 ← down (Len h) h1 0 n;
      Pop h2
  end.

(** [type PQueue struct { pq pQueue }] *)
Record PQueue : Type := mkPQueue { pq : pQueue A }.

(** [NewPQueue]: [heap.Init] on the empty slice does nothing. *)
Definition NewPQueue : PQueue := {| pq := [] |}.

Definition PQueue_Len (q : PQueue) : Z := Z.of_nat (Len (pq q)).

Section Dynamic.

(** The values of interface type [engine.ReqInterface] handed to the
    queue, the name of their dynamic type, and the two type assertions
    of the code: [el.(Comparable)] and [x.(engine.ReqInterface)]. *)
Variable E : Type.
Variable typeName : E -> string.
Variable asComparable : E -> option A.
Variable asReqInterface : A -> option E.

(** [Enqueue]: the queue after the call, and whether the call returned
    or panicked.  The panic of the type assertion comes before any
    change of the queue.  [heap.Push] does not panic (lemma
    [heap_Push_total] below); the queue of that case is the one after
    [append]. *)
Definition Enqueue (el : E) (q : PQueue) : PQueue * Result unit :=
  match asComparable el with
  | None =>
      (q, Panic ("Element enqueued to PQueue does not implement blocks.Comparable interface: "
                   ++ typeName el))
  | Some comp =>
      match heap_Push (pq q) comp with
      | Some h => ({| pq := h |}, Ok tt)
      | None => ({| pq := Push (pq q) comp |}, Panic "index out of range")
      end
  end.

Definition Dequeue (q : PQueue) : Result (E * PQueue) :=
  match heap_Pop (pq q) with
  | None => Panic "index out of range"
  | Some (x, h) =>
      match asReqInterface x with
      | Some el => Ok (el, {| pq := h |})
      | None => Panic "interface conversion"
      end
  end.

End Dynamic.

End WithComparable.
End PQ.

Arguments PQ.PQueue A : clear implicits.

(** Modelled from the spec: the methods [GetCmpVal] and [GetInitTime] of the
    requests are declared in no file at hand.  The spec says that the
    comparison key of a request is its remaining service time and that ties
    are broken by its [init_time]; every request type embeds [Request] and so
    has the same method set. *)
#[export] Instance ReqInterface_Comparable : Comparable ReqInterface := {|
  GetCmpVal x := ServiceTime (base x);
  CmpGetServiceTime x := RI_GetServiceTime x;
  GetInitTime x := InitTime (base x)
|}.

(** ** Queues as seen by an actor: [engine.QueueInterface] *)

Class QueueInterface (Qu : Type) : Type := {
  Enqueue : ReqInterface -> Qu -> Result Qu;
  Dequeue : Qu -> Result (ReqInterface * Qu);
  Len : Qu -> Z;
  (* the requests held by the queue, in storage order *)
  elements : Qu -> list ReqInterface
}.

#[export] Instance Queue_QueueInterface : QueueInterface Queue.Queue := {|
  Enqueue el q := Ok (Queue.Enqueue el q);
  Dequeue := Queue.Dequeue;
  Len := Queue.Len;
  elements := Queue.l
|}.

#[export] Instance PQueue_QueueInterface : QueueInterface (PQ.PQueue ReqInterface) := {|
  Enqueue el q :=
    match PQ.Enqueue ReqInterface RI_typeName Some el q with
    | (q', Ok _) => Ok q'
    | (_, Panic msg) => Panic msg
    end;
  Dequeue := PQ.Dequeue ReqInterface Some;
  Len := PQ.PQueue_Len;
  elements := PQ.pq
|}.

(** ** The actor primitives of the engine *)

(** What an actor does, in the order in which it does it. *)
Inductive Event : Type :=
| EvRead (r : ReqInterface)
| EvWait (d : Q)
| EvSub (t : Q)
| EvWriteIn (r : ReqInterface)
| EvWriteOut (r : ReqInterface)
| EvTerminate (time : Q) (r : ReqInterface).

Section Actor.

Context {Qu : Type} `{QueueInterface Qu}.

(** The part of the simulation an actor acts on: the engine clock, its
    input queue, its output queue, and the record of what it did.  The
    calls of [reqDrain.TerminateReq] are the [EvTerminate] events. *)
Record World : Type := mkWorld {
  now : Q;
  inQueue : Qu;
  outQueue : Qu;
  trace : list Event
}.

(** An actor step returns a value, or suspends for good because its input
    queue is empty and nobody else writes to it, or panics. *)
Inductive Outcome (T : Type) : Type :=
| Ret (a : T) (w : World)
| Blocked (w : World)
| Crash (msg : string).
Arguments Ret {T} a w.
Arguments Blocked {T} w.
Arguments Crash {T} msg.

Definition Act (T : Type) : Type := World -> Outcome T.

Definition ret {T : Type} (a : T) : Act T := fun w => Ret a w.

Definition bind {T U : Type} (m : Act T) (k : T -> Act U) : Act U :=
  fun w =>
    match m w with
    | Ret a w' => k a w'
    | Blocked w' => Blocked w'
    | Crash msg => Crash msg
    end.

Definition record (e : Event) (w : World) : World :=
  {| now := now w; inQueue := inQueue w; outQueue := outQueue w;
     trace := trace w ++ [e] |}.

(** Modelled from the spec: [engine.Actor.ReadInQueue] is not in the files at
    hand.  "If the actor's input queue is non-empty, return its head
    immediately; otherwise suspend until another actor writes to that
    queue." *)
Definition ReadInQueue : Act ReqInterface :=
  fun w =>
    if (0 <? Len (inQueue w))%Z then
      match Dequeue (inQueue w) with
      | Ok (r, q) =>
          Ret r (record (EvRead r)
                   {| now := now w; inQueue := q; outQueue := outQueue w;
                      trace := trace w |})
      | Panic msg => Crash msg
      end
    else Blocked w.

(** Modelled from the spec: [engine.Actor.Wait] is not in the files at hand.
    "Suspend for exactly [d] units of virtual time.  Post: [now()] after
    resumption equals [now_before + d]."  The spec speaks of [d >= 0]
    only. *)
Definition Wait (d : Q) : Act unit :=
  fun w =>
    Ret tt (record (EvWait d)
              {| now := now w + d; inQueue := inQueue w;
                 outQueue := outQueue w; trace := trace w |}).

(** Modelled from the spec: [engine.Actor.WriteInQueue] is not in the files
    at hand.  "Enqueue [req] onto the actor's own input queue"; it never
    suspends. *)
Definition WriteInQueue (r : ReqInterface) : Act unit :=
  fun w =>
    match Enqueue r (inQueue w) with
    | Ok q =>
        Ret tt (record (EvWriteIn r)
                  {| now := now w; inQueue := q; outQueue := outQueue w;
                     trace := trace w |})
    | Panic msg => Crash msg
    end.

(** Modelled from the spec: [engine.Actor.WriteOutQueue] is not in the files
    at hand; it enqueues onto the output queue. *)
Definition WriteOutQueue (r : ReqInterface) : Act unit :=
  fun w =>
    match Enqueue r (outQueue w) with
    | Ok q =>
        Ret tt (record (EvWriteOut r)
                  {| now := now w; inQueue := inQueue w; outQueue := q;
                     trace := trace w |})
    | Panic msg => Crash msg
    end.

(** Modelled from the spec: [GetInQueueLen] and [GetOutQueueLen] are not in
    the files at hand; they are the [len()] of the queues. *)
Definition GetInQueueLen : Act Z := fun w => Ret (Len (inQueue w)) w.
Definition GetOutQueueLen : Act Z := fun w => Ret (Len (outQueue w)) w.

(** [reqDrain.TerminateReq(req)]: the drain is an interface; the call is
    recorded with the time at which it is made. *)
Definition TerminateReq (r : ReqInterface) : Act unit :=
  fun w => Ret tt (record (EvTerminate (now w) r) w).

(** [req.SubServiceTime(t)] on the request the actor holds: the mutation
    is recorded and the mutated request returned. *)
Definition SubServiceTimeOf (t : Q) (r : ReqInterface) : Act ReqInterface :=
  fun w => Ret (RI_SubServiceTime t r) (record (EvSub t) w).

(** [for { body }], cut after [fuel] rounds. *)
Fixpoint loop (body : Act unit) (fuel : nat) : Act unit :=
  match fuel with
  | O => ret tt
  | S fuel' => bind body (fun _ => loop body fuel')
  end.

(** [var s; for { s = body(s) }], cut after [fuel] rounds. *)
Fixpoint loop_with {S : Type} (body : S -> Act S) (fuel : nat) (s : S) : Act S :=
  match fuel with
  | O => ret s
  | S fuel' => bind (body s) (loop_with body fuel')
  end.

End Actor.

Arguments World Qu : clear implicits.
Arguments Outcome Qu T : clear implicits.
Arguments Act Qu T : clear implicits.
Arguments Ret {Qu T} a w.
Arguments Blocked {Qu T} w.
Arguments Crash {Qu T} msg.

Notation "x <- m ;; k" := (bind m (fun x => k))
  (at level 100, m at next level, right associativity).
Notation "m ;;; k" := (bind m (fun _ => k))
  (at level 100, right associativity).

(** ** The processors (processor.go) *)

(** The embedded [engine.Actor] and the drain of [genericProcessor] are the
    [World] the processor acts on; its [ctxCost] is a field of each
    processor below. *)

Module RTCProcessor.
Section Run.
Context {Qu : Type} `{QueueInterface Qu}.

Record t : Type := mk { ctxCost : Q; scale : Q }.

Definition NewRTCProcessor (ctxCost : Q) : t := {| ctxCost := ctxCost; scale := 0 |}.

(** The body of the loop of [Run]. *)
Definition body (p : t) : Act Qu unit :=
  req <- ReadInQueue ;;
  Wait (RI_GetServiceTime req + ctxCost p) ;;;
  req <- match req with
         | MonitorReq r i _ =>
             len <- GetInQueueLen ;; ret (MonitorReq r i len)
         | _ => ret req
         end ;;
  TerminateReq req.

Definition Run (p : t) (fuel : nat) : Act Qu unit := loop (body p) fuel.
End Run.
End RTCProcessor.

Module TSProcessor.
Section Run.
Context {Qu : Type} `{QueueInterface Qu}.

Record t : Type := mk { ctxCost : Q; quantum : Q }.

Definition NewTSProcessor (quantum ctxCost : Q) : t :=
  {| quantum := quantum; ctxCost := ctxCost |}.

(** The body of the loop of [Run]. *)
Definition body (p : t) : Act Qu unit :=
  req <- ReadInQueue ;;
  if Qle_bool (RI_GetServiceTime req) (quantum p) then
    Wait (RI_GetServiceTime req + ctxCost p) ;;;
    TerminateReq req
  else
    Wait (quantum p + ctxCost p) ;;;
    req <- SubServiceTimeOf (quantum p) req ;;
    WriteInQueue req.

Definition Run (p : t) (fuel : nat) : Act Qu unit := loop (body p) fuel.
End Run.
End TSProcessor.

Module SrptTSProcessor.
Section Run.
Context {Qu : Type} `{QueueInterface Qu}.

Record t : Type := mk { ctxCost : Q; quantum : Q }.

Definition NewSrptTSProcessor (quantum ctxCost : Q) : t :=
  {| quantum := quantum; ctxCost := ctxCost |}.

(** The body of the loop of [Run]. *)
Definition body (p : t) : Act Qu unit :=
  req <- ReadInQueue ;;
  if Qle_bool (RI_GetServiceTime req) (quantum p) then
    Wait (RI_GetServiceTime req + ctxCost p) ;;;
    TerminateReq req
  else
    Wait (quantum p + ctxCost p) ;;;
    req <- SubServiceTimeOf (quantum p) req ;;
    WriteInQueue req.

Definition Run (p : t) (fuel : nat) : Act Qu unit := loop (body p) fuel.
End Run.
End SrptTSProcessor.

Module BoundedProcessor.
Section Run.
Context {Qu : Type} `{QueueInterface Qu}.

Record t : Type := mk { ctxCost : Q; bufSize : Z }.

Definition NewBoundedProcessor (bufSize : Z) : t := {| ctxCost := 0; bufSize := bufSize |}.

(** The body of the loop of [Run]; [factor] is the variable declared
    before the loop, whose value the body returns. *)
Definition body (p : t) (factor : Q) : Act Qu Q :=
  req <- ReadInQueue ;;
  let factor :=
    match req with
    | ColoredReq _ color => if (color =? 1)%Z then 2 else 1
    | _ => factor
    end in
  Wait (factor * RI_GetServiceTime req) ;;;
  len <- GetOutQueueLen ;;
  (if (len <? bufSize p)%Z then WriteOutQueue req else TerminateReq req) ;;;
  ret factor.

(** [var factor float64] starts at the zero value. *)
Definition Run (p : t) (fuel : nat) : Act Qu Q := loop_with (body p) fuel 0.
End Run.
End BoundedProcessor.

Module BoundedProcessor2.
Section Run.
Context {Qu : Type} `{QueueInterface Qu}.

Record t : Type := mk { ctxCost : Q }.

(** The body of the loop of [Run]. *)
Definition body (p : t) (factor : Q) : Act Qu Q :=
  req <- ReadInQueue ;;
  let factor :=
    match req with
    | ColoredReq _ color => if (color =? 0)%Z then 2 else 1
    | _ => factor
    end in
  Wait (factor * RI_GetServiceTime req) ;;;
  TerminateReq req ;;;
  ret factor.

Definition Run (p : t) (fuel : nat) : Act Qu Q := loop_with (body p) fuel 0.
End Run.
End BoundedProcessor2.

(** *** The processor-sharing processor *)

Module PSProcessor.

(** [reqList] is the [container/list] of the requests in progress, front
    first; [curr], a pointer to one of its elements, is the position of
    that element, and [None] when the pointer is nil or dangles. *)
Record t : Type := mk {
  workerCount : Z;
  count : Z;
  reqList : list ReqInterface;
  curr : option nat;
  prevTime : Q
}.

Definition NewPSProcessor : t :=
  {| workerCount := 1; count := 0; reqList := []; curr := None; prevTime := 0 |}.

Definition SetWorkerCount (n : Z) (p : t) : t :=
  {| workerCount := n; count := count p; reqList := reqList p;
     curr := curr p; prevTime := prevTime p |}.

(** The type assertion of [e.Value] to a pointer to [Request]. *)
Definition asRequest (x : ReqInterface) : option Request :=
  match x with
  | PlainReq r => Some r
  | _ => None
  end.

(** The loop of [getMinService] from element number [e] on. *)
Fixpoint getMinService_from (l : list ReqInterface) (e : nat) (minS : Q) (minI : nat)
  : option nat :=
  match l with
  | [] => Some minI
  | x :: l' =>
      r ← asRequest x;
      let val := ServiceTime r in
      if Qltb val minS
      then getMinService_from l' (S e) val e
      else getMinService_from l' (S e) minS minI
  end.

(** [getMinService]; [None] is a panic: the list is empty or an element
    is not a pointer to a [Request]. *)
Definition getMinService (p : t) : option nat :=
  front ← head (reqList p);
  r ← asRequest front;
  getMinService_from (reqList p) 0 (ServiceTime r) 0.

Definition getFactor (p : t) : Q :=
  if (workerCount p >? count p)%Z then 1
  else float64 (workerCount p) / float64 (count p).

(** [updateServiceTimes]; [currTime] is [engine.GetTime()]. *)
Definition updateServiceTimes (currTime : Q) (p : t) : t :=
  let diff := (currTime - prevTime p) * getFactor p in
  {| workerCount := workerCount p;
     count := count p;
     reqList := map (RI_SubServiceTime diff) (reqList p);
     curr := curr p;
     prevTime := currTime |}.

(** The state of [Run] at the call of [WaitInterruptible]: the processor,
    the local [d], the engine clock, and the calls of
    [reqDrain.TerminateReq] made so far, each with its time. *)
Record RunState : Type := mkRun {
  proc : t;
  d : Q;
  clock : Q;
  terminated : list (Q * ReqInterface)
}.

(** The first [if] of the loop of [Run], after [updateServiceTimes]: on a
    timer expiry the request under [curr] is handed to the drain at time
    [now] and removed; otherwise the new request is appended.  The result
    is the processor and the calls of the drain.  [None] is a panic. *)
Definition Run_account (now : Q) (intr : bool) (newReq : option ReqInterface)
    (p : t) (log : list (Q * ReqInterface)) : option (t * list (Q * ReqInterface)) :=
  if intr then
    i ← curr p;
    req ← reqList p !! i;
    Some ({| workerCount := workerCount p;
             count := (count p - 1)%Z;
             reqList := delete i (reqList p);
             curr := None;
             prevTime := prevTime p |},
          log ++ [(now, req)])
  else
    r ← newReq;
    Some ({| workerCount := workerCount p;
             count := (count p + 1)%Z;
             reqList := reqList p ++ [r];
             curr := curr p;
             prevTime := prevTime p |},
          log).

(** The second [if] of the loop of [Run]: the next [curr] and [d]. *)
Definition Run_rearm (now : Q) (p : t) (log : list (Q * ReqInterface)) : option RunState :=
  if (count p >? 0)%Z then
    i ← getMinService p;
    req ← reqList p !! i;
    let p' := {| workerCount := workerCount p;
                 count := count p;
                 reqList := reqList p;
                 curr := Some i;
                 prevTime := prevTime p |} in
    Some {| proc := p';
            d := RI_GetServiceTime req / getFactor p';
            clock := now;
            terminated := log |}
  else
    Some {| proc := p; d := -1; clock := now; terminated := log |}.

(** The body of the loop of [Run] after [WaitInterruptible] has returned
    [(intr, newReq)] at time [now].  [None] is a panic. *)
Definition iteration (now : Q) (intr : bool) (newReq : option ReqInterface)
    (s : RunState) : option RunState :=
  let p := updateServiceTimes now (proc s) in
  acc ← Run_account now intr newReq p (terminated s);
  Run_rearm now acc.1 acc.2.

(** [Run] before its first [WaitInterruptible], for a processor made by
    [NewPSProcessor] and [SetWorkerCount(cores)] and started at time 0. *)
Definition start (cores : Z) : RunState :=
  {| proc := SetWorkerCount cores NewPSProcessor; d := -1; clock := 0;
     terminated := [] |}.

(** Modelled from the spec: [engine.Actor.WaitInterruptible] is not in the
    files at hand.  "Suspend for up to [d] units ([d < 0]: no timer, wait
    indefinitely).  The timer expires first: resume with [interrupted =
    true], no request; elapsed virtual time equals [d].  A new request
    arrives first: resume with [interrupted = false] and the arrived
    request; elapsed virtual time equals whatever fraction of [d] had
    elapsed."  [WaitInterruptible now d t intr req]: called at [now] with
    [d], the wait may return [(intr, req)] at time [t]. *)
Inductive WaitInterruptible (now d : Q) : Q -> bool -> option ReqInterface -> Prop :=
| WI_timer (t : Q) :
    0 <= d -> t == now + d ->
    WaitInterruptible now d t true None
| WI_arrival (t : Q) (r : ReqInterface) :
    now <= t -> (d < 0 \/ t <= now + d) ->
    WaitInterruptible now d t false (Some r).

(** The states [Run] goes through: every resumption is one the engine
    allows, every arriving request is one of [Adm] (at its arrival time),
    and every state reached satisfies [Inv]. *)
Inductive Run (Adm : Q -> ReqInterface -> Prop) (Inv : RunState -> Prop) (cores : Z)
  : RunState -> Prop :=
| Run_start : Run Adm Inv cores (start cores)
| Run_resume (s s' : RunState) (t : Q) (intr : bool) (newReq : option ReqInterface) :
    Run Adm Inv cores s ->
    WaitInterruptible (clock s) (d s) t intr newReq ->
    (forall r, newReq = Some r -> Adm t r) ->
    iteration t intr newReq s = Some s' ->
    Inv s' ->
    Run Adm Inv cores s'.

End PSProcessor.

(** ** The statistics drain (req_terminal.go) *)

Record RequestData : Type := mkRequestData {
  RD_ServiceTime : Q;
  Delay : Q
}.

Module AllKeeper.

Record t : Type := mk {
  items : list RequestData;
  name : string;
  stolenCount : Z
}.

(** [TerminateReq]; [now] is [engine.GetTime()].  Every request type has
    the method [GetOriginalServiceTime] of the embedded [Request], so the
    type assertion to [OriginalServiceTimeGetter] holds. *)
Definition TerminateReq (now : Q) (req : ReqInterface) (k : t) : t :=
  let delay := RI_GetDelay now req in
  let serviceTime := GetOriginalServiceTime (base req) in
  {| items := items k ++ [ {| RD_ServiceTime := serviceTime; Delay := delay |} ];
     name := name k;
     stolenCount :=
       match req with
       | StealableReq _ true => (stolenCount k + 1)%Z
       | _ => stolenCount k
       end |}.

Definition SetName (n : string) (k : t) : t :=
  {| items := items k; name := n; stolenCount := stolenCount k |}.

Definition avg (k : t) : Q :=
  let tmp := fold_left (fun tmp item => tmp + Delay item) (items k) 0 in
  tmp / float64 (Z.of_nat (length (items k))).

(** [std]; [sqrt] stands for [math.Sqrt]. *)
Definition std (sqrt : Q -> Q) (k : t) : Q :=
  let tmp := fold_left (fun tmp item => tmp + Delay item * Delay item) (items k) 0 in
  sqrt (tmp / float64 (Z.of_nat (length (items k))) - avg k).

(** [slowdownAvg]; [None] when the result is not a finite number. *)
Definition slowdownAvg (k : t) : option Q :=
  sum ← fold_left (fun sum item =>
                     s ← sum;
                     slowdown ← finite_div (Delay item) (RD_ServiceTime item);
                     Some (s + slowdown)) (items k) (Some 0);
  finite_div sum (float64 (Z.of_nat (length (items k)))).

(** [slowdownStd]; [sqrt] stands for [math.Sqrt]; [None] when the result
    is not a finite number. *)
Definition slowdownStd (sqrt : Q -> Q) (k : t) : option Q :=
  avg ← slowdownAvg k;
  sumSq ← fold_left (fun sumSq item =>
                       acc ← sumSq;
                       d ← finite_div (Delay item) (RD_ServiceTime item);
                       Some (acc + (d - avg) * (d - avg))) (items k) (Some 0);
  q ← finite_div sumSq (float64 (Z.of_nat (length (items k))));
  Some (sqrt q).

End AllKeeper.

(** ** More of the drains (req_terminal.go) *)

(** The conversion [int(x)] of a [float64] within the range of [int]: the
    fraction is cut off.  Outside that range Go leaves the value to the
    implementation. *)
Definition int_of_float64 (x : Q) : Z := Z.quot (Qnum x) (Zpos (Qden x)).

(** [sort.Float64s]: the values in increasing order. *)
Fixpoint sort_insert (x : Q) (l : list Q) : list Q :=
  match l with
  | [] => [x]
  | y :: l' => if Qle_bool x y then x :: y :: l' else y :: sort_insert x l'
  end.

Definition sort_Float64s (l : list Q) : list Q := fold_right sort_insert [] l.

Module AllKeeperStats.

(** The percentiles asked for, in the order of the loop. *)
Definition percentiles : list Q := [5 # 10; 9 # 10; 95 # 100; 99 # 100].

(** The index of [getPercentiles] and [slowdownPercentiles] for the
    percentile [v] of [len] sorted values: [int(float64(len) * v)], and
    [len - 1] when that is not below [len]. *)
Definition percentile_index (len : nat) (v : Q) : Z :=
  let idx := int_of_float64 (float64 (Z.of_nat len) * v) in
  if (idx >=? Z.of_nat len)%Z then (Z.of_nat len - 1)%Z else idx.

(** The map filled by the loop over the percentiles, as the list of its
    entries; an index out of range panics. *)
Fixpoint percentiles_of (sorted : list Q) (vs : list Q) : Result (list (Q * Q)) :=
  match vs with
  | [] => Ok []
  | v :: vs' =>
      let idx := percentile_index (length sorted) v in
      if (idx <? 0)%Z then Panic "index out of range"
      else
        match sorted !! Z.to_nat idx with
        | None => Panic "index out of range"
        | Some x =>
            match percentiles_of sorted vs' with
            | Ok res => Ok ((v, x) :: res)
            | Panic msg => Panic msg
            end
        end
  end.

Definition getPercentiles (k : AllKeeper.t) : Result (list (Q * Q)) :=
  let delays := map Delay (AllKeeper.items k) in
  percentiles_of (sort_Float64s delays) percentiles.

Definition slowdownPercentiles (k : AllKeeper.t) : Result (list (Q * Q)) :=
  let slows := map (fun item => Delay item / RD_ServiceTime item) (AllKeeper.items k) in
  percentiles_of (sort_Float64s slows) percentiles.

End AllKeeperStats.

Module MonitorKeeper.

Record t : Type := mk {
  delays : list Q;
  initLen : list Z;
  finalLen : list Z;
  name : string
}.

(** [TerminateReq]; [now] is [engine.GetTime()]. *)
Definition TerminateReq (now : Q) (req : ReqInterface) (k : t) : t :=
  let delays' := delays k ++ [RI_GetDelay now req] in
  match req with
  | MonitorReq _ initLength finalLength =>
      {| delays := delays';
         initLen := initLen k ++ [initLength];
         finalLen := finalLen k ++ [finalLength];
         name := name k |}
  | _ =>
      {| delays := delays'; initLen := initLen k; finalLen := finalLen k;
         name := name k |}
  end.

(** The loop of [PrintStats] from row [idx] on: the rows printed, and the
    panic of an index out of range if there is one. *)
Fixpoint PrintStats_from (k : t) (idx : nat) (ds : list Q) : list (Q * Z * Z) * Result unit :=
  match ds with
  | [] => ([], Ok tt)
  | d :: ds' =>
      match initLen k !! idx, finalLen k !! idx with
      | Some i, Some f =>
          let '(rows, res) := PrintStats_from k (S idx) ds' in
          ((d, i, f) :: rows, res)
      | _, _ => ([], Panic "index out of range")
      end
  end.

Definition PrintStats (k : t) : list (Q * Z * Z) * Result unit :=
  PrintStats_from k 0 (delays k).

Definition SetName (n : string) (k : t) : t :=
  {| delays := delays k; initLen := initLen k; finalLen := finalLen k; name := n |}.

End MonitorKeeper.

Definition bUCKETCOUNT : Z := 100000.
Definition gRANULARITY : Q := 1 # 100.

Module histogram.

Record t : Type := mk {
  granularity : Q;
  buckets : list Z;
  count : Z;
  minBucket : Z;
  maxBucket : Z;
  sum : Q;
  sumSquare : Q
}.

Definition newHistogram : t :=
  {| granularity := gRANULARITY;
     buckets := replicate (Z.to_nat bUCKETCOUNT) 0%Z;
     count := 0;
     minBucket := (bUCKETCOUNT - 1)%Z;
     maxBucket := 0;
     sum := 0;
     sumSquare := 0 |}.

(** [addSample]; the panics are the one of the code and the one of an index
    beyond the slice. *)
Definition addSample (s : Q) (hdr : t) : Result t :=
  let index := int_of_float64 (s / granularity hdr) in
  let index := if (index >=? bUCKETCOUNT)%Z then (bUCKETCOUNT - 1)%Z else index in
  if ((index <? 0) || (index >=? bUCKETCOUNT))%Z then Panic "Wrong index"
  else
    match buckets hdr !! Z.to_nat index with
    | None => Panic "index out of range"
    | Some b =>
        Ok {| granularity := granularity hdr;
              buckets := <[Z.to_nat index := (b + 1)%Z]> (buckets hdr);
              count := (count hdr + 1)%Z;
              minBucket := if (index <? minBucket hdr)%Z then index else minBucket hdr;
              maxBucket := if (index >? maxBucket hdr)%Z then index else maxBucket hdr;
              sum := sum hdr + s;
              sumSquare := sumSquare hdr + s * s |}
    end.

Definition avg (hdr : t) : Q := sum hdr / float64 (count hdr).

(** [stddev]; [sqrt] stands for [math.Sqrt]. *)
Definition stddev (sqrt : Q -> Q) (hdr : t) : Q :=
  let squareAvg := sumSquare hdr / float64 (count hdr) in
  let mean := avg hdr in
  sqrt (squareAvg - mean * mean).

(** The samples of [samples] added in order, up to the first panic. *)
Fixpoint addSamples (samples : list Q) (hdr : t) : Result t :=
  match samples with
  | [] => Ok hdr
  | s :: rest =>
      match addSample s hdr with
      | Ok hdr' => addSamples rest hdr'
      | Panic msg => Panic msg
      end
  end.

End histogram.

Module histogramPercentiles.
Import histogram.

Definition percentiles : list Q := [5 # 10; 9 # 10; 95 # 100; 99 # 100].

(** The first [for] of [getPercentiles], on the bucket [minBucket], whose
    count is [first]: [ps] are the percentiles from [percentileI] on.  The
    test of the loop reads [percentiles[percentileI]] with no bound on
    [percentileI]: past the last percentile it panics. *)
Fixpoint first_bucket (hdr : t) (first : Z) (ps : list Q) (res : list (Q * Q))
  : Result (list Q * list (Q * Q)) :=
  match ps with
  | [] => Panic "index out of range"
  | p :: ps' =>
      if Qltb (p * float64 (count hdr)) (float64 first) then
        first_bucket hdr first ps'
          (res ++ [(p, granularity hdr / float64 first * (p * float64 (count hdr)))])
      else Ok (ps, res)
  end.

(** The inner [for] of the second loop, on bucket [i] with count [b];
    [below] is [accum[i-1]] and [upto] is [accum[i]].  The boolean tells
    that the function returned from inside the loop. *)
Fixpoint later_bucket (hdr : t) (i b below upto : Z) (ps : list Q) (res : list (Q * Q))
  : list Q * list (Q * Q) * bool :=
  match ps with
  | [] => ([], res, true)
  | p :: ps' =>
      if Qltb (p * float64 (count hdr)) (float64 upto) then
        let down := granularity hdr * float64 (i - 1) in
        let res' :=
          res ++ [(p, down + granularity hdr / float64 b
                              * (p * float64 (count hdr) - float64 below))] in
        match ps' with
        | [] => ([], res', true)
        | _ :: _ => later_bucket hdr i b below upto ps' res'
        end
      else (ps, res, false)
  end.

(** The second loop, [n] buckets from [i] on.  Of the slice [accum] only
    the entry written last is read, which is [below]. *)
Fixpoint later_buckets (hdr : t) (n : nat) (i below : Z) (ps : list Q) (res : list (Q * Q))
  : Result (list (Q * Q)) :=
  match n with
  | O => Ok res
  | S n' =>
      if (i <? 0)%Z then Panic "index out of range"
      else
        match buckets hdr !! Z.to_nat i with
        | None => Panic "index out of range"
        | Some b =>
            let upto := (below + b)%Z in
            let '(ps', res', returned) := later_bucket hdr i b below upto ps res in
            if (returned : bool) then Ok res'
            else later_buckets hdr n' (i + 1) upto ps' res'
        end
  end.

(** [getPercentiles]: the map returned, as the list of its entries in the
    order in which they are set. *)
Definition getPercentiles (hdr : t) : Result (list (Q * Q)) :=
  if (minBucket hdr <? 0)%Z then Panic "index out of range"
  else
    match buckets hdr !! Z.to_nat (minBucket hdr) with
    | None => Panic "index out of range"
    | Some first =>
        match first_bucket hdr first percentiles [] with
        | Panic msg => Panic msg
        | Ok (ps, res) =>
            match ps with
            | [] => Ok res
            | _ :: _ =>
                later_buckets hdr (Z.to_nat (maxBucket hdr - minBucket hdr))
                  (minBucket hdr + 1) first ps res
            end
        end
    end.

End histogramPercentiles.

Module BookKeeper.

Record t : Type := mk { hdr : histogram.t; name : string }.

Definition NewBookKeeper : t := {| hdr := histogram.newHistogram; name := "" |}.

Definition SetName (n : string) (b : t) : t := {| hdr := hdr b; name := n |}.

(** [TerminateReq]; [now] is [engine.GetTime()]. *)
Definition TerminateReq (now : Q) (req : ReqInterface) (b : t) : Result t :=
  let d := RI_GetDelay now req in
  match histogram.addSample d (hdr b) with
  | Ok h => Ok {| hdr := h; name := name b |}
  | Panic msg => Panic msg
  end.

End BookKeeper.


(** ** The CDF generator (package blocks) *)

Module cdfDistrib.

(** [x]: service sizes; [p]: cumulative probabilities. *)
Record t : Type := mk { x : list Q; p : list Q }.

(** [s[i]] on a slice; outside of it Go panics. *)
Definition index (s : list Q) (i : nat) : Result Q :=
  match s !! i with
  | Some v => Ok v
  | None => Panic "index out of range"
  end.

(** The statements after the loop, [c.x[len(c.x)-1]]: on an empty [x] the
    index is -1. *)
Definition fallback (c : t) : Result Q :=
  match x c with
  | [] => Panic "index out of range"
  | _ :: _ => index (x c) (length (x c) - 1)
  end.

(** The body of [if u <= c.p[i]], with [pi] the value of [c.p[i]] and [pim]
    that of [c.p[i-1]]. *)
Definition interpolate (c : t) (u : Q) (i : nat) (pi pim : Q) : Result Q :=
  let deltaP := pi - pim in
  if Qle_bool deltaP 0 then index (x c) i
  else
    let frac := (u - pim) / deltaP in
    match index (x c) (i - 1) with
    | Panic msg => Panic msg
    | Ok xim =>
        match index (x c) i with
        | Panic msg => Panic msg
        | Ok xi => Ok (xim + frac * (xi - xim))
        end
    end.

(** [for i := 1; i < len(c.p); i++]: [n] rounds are left at index [i]. *)
Fixpoint sample_loop (c : t) (u : Q) (n i : nat) : Result Q :=
  match n with
  | O => fallback c
  | S n' =>
      match index (p c) i with
      | Panic msg => Panic msg
      | Ok pi =>
          if Qle_bool u pi then
            match index (p c) (i - 1) with
            | Panic msg => Panic msg
            | Ok pim => interpolate c u i pi pim
            end
          else sample_loop c u n' (S i)
      end
  end.

(** [sample]; [u] is the draw of [rand.Float64()]. *)
Definition sample (c : t) (u : Q) : Result Q :=
  match index (p c) 0 with
  | Panic msg => Panic msg
  | Ok p0 =>
      if Qle_bool u p0 then index (x c) 0
      else sample_loop c u (length (p c) - 1) 1
  end.

End cdfDistrib.

Module CDFGenerator.

(** The generator: its CDF and the rate of its exponential waiting time. *)
Record t : Type := mk { cdf : cdfDistrib.t; WaitTime : Q }.

(** The file of a CDF as [NewCDFGenerator] sees it: [None] when [os.Open]
    fails; otherwise its lines, each as the fields [strings.Fields] finds on
    it, a field as the number [strconv.ParseFloat] reads in it, or [None]
    when that fails.  A line is blank exactly when it has no field. *)
Definition file : Type := option (list (list (option Q))).

(** The loop over the lines after the first. *)
Fixpoint read_points (lines : list (list (option Q))) (cd : cdfDistrib.t)
  : Result cdfDistrib.t :=
  match lines with
  | [] => Ok cd
  | [] :: rest => read_points rest cd
  | [Some xVal; Some pVal] :: rest =>
      read_points rest
        {| cdfDistrib.x := cdfDistrib.x cd ++ [xVal / 100];
           cdfDistrib.p := cdfDistrib.p cd ++ [pVal] |}
  | [_; _] :: _ => Panic "strconv.ParseFloat: parsing: invalid syntax"
  | _ :: _ => Panic "invalid CDF line"
  end.

(** [NewCDFGenerator]; the messages of its panics are cut before the text
    they format in. *)
Definition NewCDFGenerator (lambda : Q) (path : string) (f : file) : Result t :=
  if String.eqb path EmptyString then Panic "CDF path: '' unknown, cannot create CDFGenerator"
  else
    match f with
    | None => Panic "failed to open CDF file"
    | Some [] => Panic "empty CDF file"
    | Some (_ :: lines) =>
        match read_points lines {| cdfDistrib.x := []; cdfDistrib.p := [] |} with
        | Panic msg => Panic msg
        | Ok cd =>
            match cdfDistrib.x cd with
            | [] => Panic "no CDF data in file"
            | _ :: _ => Ok {| cdf := cd; WaitTime := lambda |}
            end
        end
    end.

End CDFGenerator.

(** ** The single-queue topology (topologies/single_queue.go) *)

(** The generators that [SingleQueue] builds.  Of the constructors
    [NewMMRandGenerator], [NewMDRandGenerator] and [NewMBRandGenerator] only
    the calls are in the files at hand: a value records the arguments of the
    call. *)
Inductive Generator : Type :=
| MMRandGenerator (lambda mu : Q)
| MDRandGenerator (lambda d : Q)
| MBRandGenerator (lambda peak1 peak2 ratio : Q)
| CDFGen (g : CDFGenerator.t).

Module SingleQueue.

(** The choice of the generator; [f] is the file at [path].  With a
    [genType] outside of 0..5 the variable [g] stays nil and
    [g.SetCreator] dereferences it. *)
Definition generator (lambda mu : Q) (genType : Z) (path : string)
    (f : CDFGenerator.file) : Result Generator :=
  if (genType =? 0)%Z then Ok (MMRandGenerator lambda mu)
  else if (genType =? 1)%Z then Ok (MDRandGenerator lambda (1 / mu))
  else if (genType =? 2)%Z then
    Ok (MBRandGenerator lambda 1 (10 * (1 / mu - (9 # 10))) (9 # 10))
  else if (genType =? 3)%Z then
    Ok (MBRandGenerator lambda 1 (1000 * (1 / mu - (999 # 1000))) (999 # 1000))
  else if (genType =? 4)%Z then
    let meanServiceTime := 1 / mu in
    let ratio := 9 # 10 in
    let peak1 := meanServiceTime / 10 in
    let peak2 := (meanServiceTime - ratio * peak1) / (1 - ratio) in
    Ok (MBRandGenerator lambda peak1 peak2 ratio)
  else if (genType =? 5)%Z then
    match CDFGenerator.NewCDFGenerator lambda path f with
    | Ok g => Ok (CDFGen g)
    | Panic msg => Panic msg
    end
  else Panic "invalid memory address or nil pointer dereference".

(** The same choice in the earlier version of the file, which differs in
    the case 4. *)
Definition generator_v1 (lambda mu : Q) (genType : Z) (path : string)
    (f : CDFGenerator.file) : Result Generator :=
  if (genType =? 0)%Z then Ok (MMRandGenerator lambda mu)
  else if (genType =? 1)%Z then Ok (MDRandGenerator lambda (1 / mu))
  else if (genType =? 2)%Z then
    Ok (MBRandGenerator lambda 1 (10 * (1 / mu - (9 # 10))) (9 # 10))
  else if (genType =? 3)%Z then
    Ok (MBRandGenerator lambda 1 (1000 * (1 / mu - (999 # 1000))) (999 # 1000))
  else if (genType =? 4)%Z then
    Ok (MBRandGenerator lambda 20 (10 * (1 / mu - 18)) (9 # 10))
  else if (genType =? 5)%Z then
    match CDFGenerator.NewCDFGenerator lambda path f with
    | Ok g => Ok (CDFGen g)
    | Panic msg => Panic msg
    end
  else Panic "invalid memory address or nil pointer dereference".

End SingleQueue.

(** ** The command (main.go) *)

Definition GetWorkloadPath (wl : string) : Result string :=
  if String.eqb wl "" then Ok EmptyString
  else if String.eqb wl "w3" then Ok "homa-size-distributions/Google_AllRPC.txt"%string
  else if String.eqb wl "w4" then Ok "homa-size-distributions/Facebook_HadoopDist_All.txt"%string
  else if String.eqb wl "w5" then Ok "homa-size-distributions/DCTCP_MsgSizeDistBytes.txt"%string
  else if String.eqb wl "GPT3B" then Ok "homa-size-distributions/GPT3B.txt"%string
  else if String.eqb wl "GPT3_adel" then Ok "homa-size-distributions/GPT3_Adel.txt"%string
  else Panic ("Unknown workload: " ++ wl).

(** [main] up to the generator of the topology 0: the path of the workload
    is computed first, whatever the generator; [fs] gives the file at a
    path. *)
Definition main_generator (lambda mu : Q) (genType : Z) (cdfWorkload : string)
    (fs : string -> CDFGenerator.file) : Result Generator :=
  match GetWorkloadPath cdfWorkload with
  | Panic msg => Panic msg
  | Ok path => SingleQueue.generator lambda mu genType path (fs path)
  end.

(** ** The PS processor on float64 numbers (processor.go) *)

(** The numbers of the program are float64 and the definitions above
    compute with exact rationals.  Where rounding decides, the functions of
    the PS processor are given once more, operation by operation, on the
    binary64 numbers of [PrimFloat].  The list holds the requests of
    [SimpleReqCreator], pointers to [Request], which are the ones
    [getMinService] accepts. *)
Set Warnings "-inexact-float".

Module PSProcessor64.
Import PrimFloat.

Record Request : Type := mkRequest {
  InitTime : float;
  ServiceTime : float;
  OriginalServiceTime : float
}.

(** [GetDelay]: [engine.GetTime() - r.InitTime]. *)
Definition GetDelay (now : float) (r : Request) : float := (now - InitTime r)%float.

(** [SubServiceTime]: [r.ServiceTime -= t]. *)
Definition SubServiceTime (t : float) (r : Request) : Request :=
  {| InitTime := InitTime r;
     ServiceTime := (ServiceTime r - t)%float;
     OriginalServiceTime := OriginalServiceTime r |}.

(** [SimpleReqCreator.NewRequest]; [now] is [engine.GetTime()]. *)
Definition NewRequest (now serviceTime : float) : Request :=
  {| InitTime := now; ServiceTime := serviceTime; OriginalServiceTime := serviceTime |}.

(** The conversion [float64(n)] of an [int] that is not negative. *)
Definition float64 (n : Z) : float := of_uint63 (Uint63.of_Z n).

Record t : Type := mk {
  workerCount : Z;
  count : Z;
  reqList : list Request;
  curr : option nat;
  prevTime : float
}.

Definition NewPSProcessor : t :=
  {| workerCount := 1; count := 0; reqList := []; curr := None; prevTime := 0%float |}.

Definition SetWorkerCount (n : Z) (p : t) : t :=
  {| workerCount := n; count := count p; reqList := reqList p;
     curr := curr p; prevTime := prevTime p |}.

(** The loop of [getMinService] from element number [e] on. *)
Fixpoint getMinService_from (l : list Request) (e : nat) (minS : float) (minI : nat) : nat :=
  match l with
  | [] => minI
  | r :: l' =>
      let val := ServiceTime r in
      if (val <? minS)%float
      then getMinService_from l' (S e) val e
      else getMinService_from l' (S e) minS minI
  end.

(** [getMinService]; [None] is the panic on an empty list. *)
Definition getMinService (p : t) : option nat :=
  front ← head (reqList p);
  Some (getMinService_from (reqList p) 0 (ServiceTime front) 0).

Definition getFactor (p : t) : float :=
  if (workerCount p >? count p)%Z then 1%float
  else (float64 (workerCount p) / float64 (count p))%float.

(** [updateServiceTimes]; [currTime] is [engine.GetTime()]. *)
Definition updateServiceTimes (currTime : float) (p : t) : t :=
  let diff := ((currTime - prevTime p) * getFactor p)%float in
  {| workerCount := workerCount p;
     count := count p;
     reqList := map (SubServiceTime diff) (reqList p);
     curr := curr p;
     prevTime := currTime |}.

(** The state of [Run] at the call of [WaitInterruptible]: the processor,
    the local [d], the engine clock, and the calls of
    [reqDrain.TerminateReq] made so far, each with its time. *)
Record RunState : Type := mkRun {
  proc : t;
  d : float;
  clock : float;
  terminated : list (float * Request)
}.

(** The first [if] of the loop of [Run], after [updateServiceTimes]. *)
Definition Run_account (now : float) (intr : bool) (newReq : option Request)
    (p : t) (log : list (float * Request)) : option (t * list (float * Request)) :=
  if intr then
    i ← curr p;
    req ← reqList p !! i;
    Some ({| workerCount := workerCount p;
             count := (count p - 1)%Z;
             reqList := delete i (reqList p);
             curr := None;
             prevTime := prevTime p |},
          log ++ [(now, req)])
  else
    r ← newReq;
    Some ({| workerCount := workerCount p;
             count := (count p + 1)%Z;
             reqList := reqList p ++ [r];
             curr := curr p;
             prevTime := prevTime p |},
          log).

(** The second [if] of the loop of [Run]: the next [curr] and [d]. *)
Definition Run_rearm (now : float) (p : t) (log : list (float * Request)) : option RunState :=
  if (count p >? 0)%Z then
    i ← getMinService p;
    req ← reqList p !! i;
    let p' := {| workerCount := workerCount p;
                 count := count p;
                 reqList := reqList p;
                 curr := Some i;
                 prevTime := prevTime p |} in
    Some {| proc := p';
            d := (ServiceTime req / getFactor p')%float;
            clock := now;
            terminated := log |}
  else
    Some {| proc := p; d := (-1)%float; clock := now; terminated := log |}.

(** The body of the loop of [Run] after [WaitInterruptible] has returned
    [(intr, newReq)] at time [now].  [None] is a panic. *)
Definition iteration (now : float) (intr : bool) (newReq : option Request)
    (s : RunState) : option RunState :=
  let p := updateServiceTimes now (proc s) in
  acc ← Run_account now intr newReq p (terminated s);
  Run_rearm now acc.1 acc.2.

(** [Run] before its first [WaitInterruptible], for a processor made by
    [NewPSProcessor] and [SetWorkerCount(cores)] and started at time 0. *)
Definition start (cores : Z) : RunState :=
  {| proc := SetWorkerCount cores NewPSProcessor; d := (-1)%float; clock := 0%float;
     terminated := [] |}.

(** Modelled from the spec: [engine.Actor.WaitInterruptible] is not in the
    files at hand.  An event is [None], the expiry of the timer, which
    needs [d >= 0] and comes at the time [clock + d], or [Some (t, r)], the
    arrival of the request [r] at the time [t], not before the clock and
    not after the expiry of a timer.  [resume] is the iteration of [Run]
    on an event, and [None] when the engine does not allow the event or
    the iteration panics. *)
Definition resume (ev : option (float * Request)) (s : RunState) : option RunState :=
  match ev with
  | None =>
      if (0 <=? d s)%float then iteration (clock s + d s)%float true None s else None
  | Some (tm, r) =>
      if ((clock s <=? tm)%float && ((d s <? 0)%float || (tm <=? clock s + d s)%float))%bool
      then iteration tm false (Some r) s
      else None
  end.

(** The states [Run] goes through on the events [evs], in order, from [s]
    on; [None] when an event is not allowed or an iteration panics. *)
Fixpoint states (evs : list (option (float * Request))) (s : RunState)
  : option (list RunState) :=
  match evs with
  | [] => Some [s]
  | ev :: evs' =>
      s' ← resume ev s;
      rest ← states evs' s';
      Some (s :: rest)
  end.

End PSProcessor64.

(** ** Vocabulary of the statements *)

(** The request [r] with [s] as its remaining service time. *)
Definition setServiceTime (s : Q) (r : Request) : Request :=
  {| InitTime := InitTime r; ServiceTime := s;
     OriginalServiceTime := OriginalServiceTime r |}.

(** [x'] is [x] with [s] as its remaining service time: same dynamic type,
    every other field the same. *)
Definition differs_in_service_only (x x' : ReqInterface) (s : Q) : Prop :=
  x' = on_base (setServiceTime s) x.

(** The sharing factor as the specification words it. *)
Definition sharing_factor (w c : Z) : Q :=
  if (w >=? c)%Z then 1 else float64 w / float64 c.

(** The order of the priority queue: [a] comes no later than [b] when its
    key is smaller, or the keys are equal and its [InitTime] is not larger. *)
Section HeapOrder.
Context {A : Type} `{Comparable A}.

Definition lex_le (a b : A) : Prop :=
  GetCmpVal a < GetCmpVal b \/
  (GetCmpVal a == GetCmpVal b /\ GetInitTime a <= GetInitTime b).

(** The index of the parent in the implicit binary tree of the slice. *)
Definition parent (j : nat) : nat := ((j - 1) / 2)%nat.

(** The element at [k] is not before its parent. *)
Definition heap_at (h : list A) (k : nat) : Prop :=
  forall a b, h !! k = Some a -> h !! parent k = Some b -> lex_le b a.

Definition heapOrdered (h : list A) : Prop := forall k, heap_at h k.

(** The heap is ordered but for the element at [j], which may be before
    its parent and is not after the children's places. *)
Definition heap_except (h : list A) (j : nat) : Prop :=
  (forall k, k <> j -> heap_at h k) /\
  (forall k a b, parent k = j -> h !! k = Some a -> h !! parent j = Some b -> lex_le b a).

End HeapOrder.

Section DownDefs.
Context {A : Type} `{Comparable A}.

(** The first [n] elements are ordered as a heap. *)
Definition heapOrdered_upto (h : list A) (n : nat) : Prop :=
  forall k, (k < n)%nat -> heap_at h k.

(** The first [n] elements are ordered as a heap but for the element at
    [i], which may be after its children and is not before its parent's
    place. *)
Definition heap_except_down (h : list A) (i n : nat) : Prop :=
  (forall k, (k < n)%nat -> parent k <> i -> heap_at h k) /\
  (forall k a b, (k < n)%nat -> (0 < i)%nat -> parent k = i ->
     h !! k = Some a -> h !! parent i = Some b -> lex_le b a).
End DownDefs.

(** Sequences of calls on a priority queue. *)
Section PQBuild.
Context {A : Type} `{Comparable A}.
Variable E : Type.
Variable typeName : E -> string.
Variable asComparable : E -> option A.
Variable asReqInterface : A -> option E.

(** A sequence of [Enqueue] calls, up to the first panic. *)
Fixpoint Enqueue_all (els : list E) (q : PQ.PQueue A) : PQ.PQueue A * Result unit :=
  match els with
  | [] => (q, Ok tt)
  | el :: rest =>
      match PQ.Enqueue E typeName asComparable el q with
      | (q', Ok _) => Enqueue_all rest q'
      | (q', Panic msg) => (q', Panic msg)
      end
  end.
End PQBuild.

(** The number of events of a trace that satisfy [f]. *)
Definition count_events (f : Event -> bool) (tr : list Event) : nat :=
  length (filter (fun e => f e = true) tr).

Definition is_read (e : Event) : bool :=
  match e with EvRead _ => true | _ => false end.
Definition is_write_in (e : Event) : bool :=
  match e with EvWriteIn _ => true | _ => false end.
Definition is_terminate (e : Event) : bool :=
  match e with EvTerminate _ _ => true | _ => false end.

(** A request with a color tag. *)
Definition is_colored (x : ReqInterface) : bool :=
  match x with ColoredReq _ _ => true | _ => false end.

(** The [EvWait] events of a trace, in order. *)
Definition waits (tr : list Event) : list Q :=
  omap (fun e => match e with EvWait d => Some d | _ => None end) tr.

(** The remaining service time of a request. *)
Definition remaining (x : ReqInterface) : Q := ServiceTime (base x).

(** The request arrives at the processor at the time of its creation, with
    all of its service time left. *)
Definition fresh_at (t : Q) (x : ReqInterface) : Prop :=
  InitTime (base x) == t /\ ServiceTime (base x) == OriginalServiceTime (base x).

(** The number of requests in progress does not exceed the number of
    workers. *)
Definition within_workers (s : PSProcessor.RunState) : Prop :=
  (PSProcessor.count (PSProcessor.proc s) <= PSProcessor.workerCount (PSProcessor.proc s))%Z.

Section PSVocabulary.
Import PSProcessor.

(** The remaining service time is within its bounds. *)
Definition bounded (x : ReqInterface) : Prop :=
  0 <= remaining x <= OriginalServiceTime (base x).

(** What holds of every state of a run without sharing. *)
Definition exact_inv (s : RunState) : Prop :=
  let p := proc s in
  count p = Z.of_nat (length (reqList p)) /\
  prevTime p = clock s /\
  (reqList p = [] \/ getFactor p == 1) /\
  (forall x, x ∈ reqList p ->
     InitTime (base x) + OriginalServiceTime (base x) == clock s + remaining x) /\
  (forall tm x, (tm, x) ∈ terminated s ->
     tm == InitTime (base x) + OriginalServiceTime (base x)) /\
  ((0 < count p)%Z ->
   exists i x, curr p = Some i /\ reqList p !! i = Some x /\ d s == remaining x) /\
  ((count p <= 0)%Z -> d s < 0).

(** What holds of every state of a run with at least one worker. *)
Definition bounds_inv (cores : Z) (s : RunState) : Prop :=
  let p := proc s in
  workerCount p = cores /\
  count p = Z.of_nat (length (reqList p)) /\
  prevTime p = clock s /\
  (forall x, x ∈ reqList p -> bounded x) /\
  (forall tm x, (tm, x) ∈ terminated s -> bounded x) /\
  ((0 < count p)%Z ->
   0 <= d s /\ forall x, x ∈ reqList p -> d s * getFactor p <= remaining x) /\
  ((count p <= 0)%Z -> d s < 0).

(** A run on two workers: requests arrive at 1 (service 5) and at 3
    (service 1); the timer expires at 4 and at 6. *)
Definition run_resume (tm : Q) (intr : bool) (newReq : option ReqInterface) (s : RunState)
  : RunState :=
  match iteration tm intr newReq s with
  | Some s' => s'
  | None => s
  end.

Definition example_run : RunState :=
  run_resume 6 true None
    (run_resume 4 true None
       (run_resume 3 false (Some (SimpleReqCreator_NewRequest 3 1))
          (run_resume 1 false (Some (SimpleReqCreator_NewRequest 1 5))
             (start 2)))).

End PSVocabulary.

Ltac decide_Q :=
  vm_compute; first [ reflexivity | discriminate | intro; discriminate ].


(** The requests a queue holds change with [Enqueue] and [Dequeue] as those
    of a bag do. *)
Class QueueLaws (Qu : Type) `{QueueInterface Qu} : Prop := {
  Dequeue_elements : forall (q q' : Qu) (r : ReqInterface),
    Dequeue q = Ok (r, q') -> elements q ≡ₚ r :: elements q';
  Enqueue_elements : forall (q q' : Qu) (r : ReqInterface),
    Enqueue r q = Ok q' -> elements q' ≡ₚ r :: elements q
}.

(** The request an event shows, if any, is within its bounds. *)
Definition event_bounded (e : Event) : Prop :=
  match e with
  | EvRead r | EvWriteIn r | EvWriteOut r | EvTerminate _ r => bounded r
  | EvWait _ | EvSub _ => True
  end.

Section Worlds.
Context {Qu : Type} `{QueueInterface Qu}.

Definition with_inQueue (q : Qu) (w : World Qu) : World Qu :=
  {| now := now w; inQueue := q; outQueue := outQueue w; trace := trace w |}.

(** Every request of the input queue and every request the actor has
    shown is within its bounds. *)
Definition bounded_world (w : World Qu) : Prop :=
  (forall x, x ∈ elements (inQueue w) -> bounded x) /\
  (forall e, e ∈ trace w -> event_bounded e).

(** The worlds a processor with loop body [body] goes through from [w0]:
    it runs its body; meanwhile other actors write requests of [Adm] to
    its input queue and other processors take requests from it. *)
Inductive Reach (body : Act Qu unit) (Adm : ReqInterface -> Prop) (w0 : World Qu)
  : World Qu -> Prop :=
| Reach_start : Reach body Adm w0 w0
| Reach_body (w w' : World Qu) :
    Reach body Adm w0 w -> body w = Ret tt w' -> Reach body Adm w0 w'
| Reach_written (w : World Qu) (r : ReqInterface) (q : Qu) :
    Reach body Adm w0 w -> Adm r -> Enqueue r (inQueue w) = Ok q ->
    Reach body Adm w0 (with_inQueue q w)
| Reach_taken (w : World Qu) (r : ReqInterface) (q : Qu) :
    Reach body Adm w0 w -> Dequeue (inQueue w) = Ok (r, q) ->
    Reach body Adm w0 (with_inQueue q w).
End Worlds.

(** The standard deviation of the delays as the specification words it: the
    square root of the mean of the squared delays minus the square of the
    mean delay. *)
Definition std_spec (sqrt : Q -> Q) (k : AllKeeper.t) : Q :=
  let n := float64 (Z.of_nat (length (AllKeeper.items k))) in
  let mean := fold_left (fun acc item => acc + Delay item) (AllKeeper.items k) 0 / n in
  let mean_of_squares :=
    fold_left (fun acc item => acc + Delay item * Delay item) (AllKeeper.items k) 0 / n in
  sqrt (mean_of_squares - mean * mean).

(** The world after one round of [body], when the round returns. *)
Definition run_body {Qu : Type} (body : Act Qu unit) (w : World Qu) : World Qu :=
  match body w with
  | Ret _ w' => w'
  | _ => w
  end.

(** The world of an SRPT-TS processor on a new priority queue, to which a
    request of service time 100 and then one of service time 1 are written
    at time 0, after two rounds. *)
Definition srpt_example_start : World (PQ.PQueue ReqInterface) :=
  {| now := 0; inQueue := PQ.NewPQueue; outQueue := PQ.NewPQueue; trace := [] |}.

Definition enqueued (r : ReqInterface) (w : World (PQ.PQueue ReqInterface))
  : World (PQ.PQueue ReqInterface) :=
  match Enqueue r (inQueue w) with
  | Ok q => with_inQueue q w
  | Panic _ => w
  end.

Definition srpt_example : World (PQ.PQueue ReqInterface) :=
  let p := SrptTSProcessor.NewSrptTSProcessor 10 0 in
  run_body (SrptTSProcessor.body p)
    (run_body (SrptTSProcessor.body p)
       (enqueued (SimpleReqCreator_NewRequest 0 1)
          (enqueued (SimpleReqCreator_NewRequest 0 100) srpt_example_start))).

(** Values handed to a priority queue: a request of the package, or a value
    of a foreign type, given by the name of that type, that implements
    [engine.ReqInterface] and not [Comparable]. *)
Definition foreign_typeName (el : ReqInterface + string) : string :=
  match el with
  | inl r => RI_typeName r
  | inr name => name
  end.

Definition foreign_asComparable (el : ReqInterface + string) : option ReqInterface :=
  match el with
  | inl r => Some r
  | inr _ => None
  end.

(** The world of a TS processor on a FIFO queue to which the two requests of
    [srpt_example] are written in the same order, after two rounds. *)
Definition ts_example : World Queue.Queue :=
  let p := TSProcessor.NewTSProcessor 10 0 in
  run_body (TSProcessor.body p)
    (run_body (TSProcessor.body p)
       {| now := 0;
          inQueue := Queue.Enqueue (SimpleReqCreator_NewRequest 0 1)
                       (Queue.Enqueue (SimpleReqCreator_NewRequest 0 100) (Queue.NewQueue 0));
          outQueue := Queue.NewQueue 1;
          trace := [] |}).

(** ** Vocabulary of the further properties *)

Section QueueCalls.
Context {Qu : Type} `{QueueInterface Qu}.

(** [n] calls of [Dequeue] in a row, up to the first panic: the requests
    returned, in order, and the queue left. *)
Fixpoint Dequeue_n (n : nat) (q : Qu) : Result (list ReqInterface * Qu) :=
  match n with
  | O => Ok ([], q)
  | S n' =>
      match Dequeue q with
      | Ok (r, q') =>
          match Dequeue_n n' q' with
          | Ok (rs, q'') => Ok (r :: rs, q'')
          | Panic msg => Panic msg
          end
      | Panic msg => Panic msg
      end
  end.

(** The calls of [Enqueue] on the requests of [rs], in order, up to the
    first panic. *)
Fixpoint Enqueue_list (rs : list ReqInterface) (q : Qu) : Result Qu :=
  match rs with
  | [] => Ok q
  | r :: rs' =>
      match Enqueue r q with
      | Ok q' => Enqueue_list rs' q'
      | Panic msg => Panic msg
      end
  end.
End QueueCalls.

Section PQCalls.
Context {A : Type} `{Comparable A}.
Variable E : Type.
Variable typeName : E -> string.
Variable asComparable : E -> option A.
Variable asReqInterface : A -> option E.

(** The priority queues that calls of [Enqueue] and [Dequeue] that return
    make of a new queue. *)
Inductive PQ_reachable : PQ.PQueue A -> Prop :=
| PQ_reach_new : PQ_reachable PQ.NewPQueue
| PQ_reach_Enqueue (q q' : PQ.PQueue A) (el : E) :
    PQ_reachable q ->
    PQ.Enqueue E typeName asComparable el q = (q', Ok tt) ->
    PQ_reachable q'
| PQ_reach_Dequeue (q q' : PQ.PQueue A) (el : E) :
    PQ_reachable q ->
    PQ.Dequeue E asReqInterface q = Ok (el, q') ->
    PQ_reachable q'.
End PQCalls.

Section HeapCalls.
Context {A : Type} `{Comparable A}.

(** [heap.Push] of the elements of [xs], in order. *)
Fixpoint heap_Push_all (xs : list A) (h : list A) : option (list A) :=
  match xs with
  | [] => Some h
  | x :: xs' => h' ← PQ.heap_Push h x; heap_Push_all xs' h'
  end.

(** [n] calls of [heap.Pop] in a row: the elements returned, in order, and
    the heap left. *)
Fixpoint heap_Pop_n (n : nat) (h : list A) : option (list A * list A) :=
  match n with
  | O => Some ([], h)
  | S n' =>
      '(x, h') ← PQ.heap_Pop h;
      '(xs, h'') ← heap_Pop_n n' h';
      Some (x :: xs, h'')
  end.
End HeapCalls.


(** ** Vocabulary of the drains *)

(** The sum of [f] over a list. *)
Definition Qsum {T : Type} (f : T -> Q) (l : list T) : Q :=
  fold_right (fun x acc => f x + acc) 0 l.

(** The calls of [AllKeeper.TerminateReq] of [calls] (time of the call,
    request), in order. *)
Definition AllKeeper_calls (calls : list (Q * ReqInterface)) (k : AllKeeper.t) : AllKeeper.t :=
  fold_left (fun k c => AllKeeper.TerminateReq c.1 c.2 k) calls k.

Definition MonitorKeeper_calls (calls : list (Q * ReqInterface)) (k : MonitorKeeper.t)
  : MonitorKeeper.t :=
  fold_left (fun k c => MonitorKeeper.TerminateReq c.1 c.2 k) calls k.

Definition is_stolen (x : ReqInterface) : bool :=
  match x with StealableReq _ true => true | _ => false end.

Definition is_monitor (x : ReqInterface) : bool :=
  match x with MonitorReq _ _ _ => true | _ => false end.

(** The bucket of the histogram that a sample is counted in. *)
Definition bucket_index (s : Q) : Z :=
  let index := int_of_float64 (s / gRANULARITY) in
  if (index >=? bUCKETCOUNT)%Z then (bUCKETCOUNT - 1)%Z else index.

(** The number of the samples counted in bucket [i]. *)
Definition samples_in_bucket (samples : list Q) (i : Z) : Z :=
  Z.of_nat (length (filter (fun s => bucket_index s = i) samples)).

Section HistogramVocabulary.
Import histogram.

(** What a histogram is after the samples of [samples] were added. *)
Definition hist_of (h : t) (samples : list Q) : Prop :=
  granularity h = gRANULARITY /\
  length (buckets h) = Z.to_nat bUCKETCOUNT /\
  count h = Z.of_nat (length samples) /\
  sum h == Qsum (fun s => s) samples /\
  sumSquare h == Qsum (fun s => s * s) samples /\
  (forall i, (0 <= i < bUCKETCOUNT)%Z ->
     buckets h !! Z.to_nat i = Some (samples_in_bucket samples i)) /\
  (samples = [] -> minBucket h = (bUCKETCOUNT - 1)%Z /\ maxBucket h = 0%Z) /\
  (samples <> [] ->
     (forall s, s ∈ samples -> (minBucket h <= bucket_index s <= maxBucket h)%Z) /\
     (exists s, s ∈ samples /\ bucket_index s = minBucket h) /\
     (exists s, s ∈ samples /\ bucket_index s = maxBucket h)).

End HistogramVocabulary.

(** ** Vocabulary of the processors *)

Section PSVocabulary2.
Import PSProcessor.

(** The timer of a busy processor is set for the request with the least
    remaining service time, which [curr] points to, and runs out when that
    time is served. *)
Definition timer_inv (s : RunState) : Prop :=
  let p := proc s in
  ((0 < count p)%Z ->
   exists i x, curr p = Some i /\ reqList p !! i = Some x /\
               (forall y, y ∈ reqList p -> remaining x <= remaining y) /\
               d s * getFactor p == remaining x) /\
  (forall tm x, (tm, x) ∈ terminated s -> remaining x == 0).
End PSVocabulary2.

(** The calls of [reqDrain.TerminateReq] of a record of events, each with
    its time, in order. *)
Definition terminations (tr : list Event) : list (Q * ReqInterface) :=
  omap (fun e => match e with EvTerminate tm r => Some (tm, r) | _ => None end) tr.

(** What an RTC processor with context cost [ctxCost] hands to the drain when
    it serves the requests [rs] one after the other from time [tm] on: each
    request at the end of its wait, a [MonitorReq] with the number of
    requests behind it as its final length. *)
Fixpoint RTC_completions (ctxCost : Q) (tm : Q) (rs : list ReqInterface)
  : list (Q * ReqInterface) :=
  match rs with
  | [] => []
  | r :: rest =>
      let tm' := tm + (RI_GetServiceTime r + ctxCost) in
      let r' := match r with
                | MonitorReq b i _ => MonitorReq b i (Z.of_nat (length rest))
                | _ => r
                end in
      (tm', r') :: RTC_completions ctxCost tm' rest
  end.

(** The requests handed to the drain, in order. *)
Definition terminated_requests (tr : list Event) : list ReqInterface :=
  (terminations tr).*2.

(** The room left in the output queue of a bounded processor. *)
Definition room (bufSize : Z) (w : World Queue.Queue) : nat :=
  Z.to_nat (bufSize - Queue.Len (outQueue w)).

(** ** Vocabulary of the generators and of the command *)

(** The first index from [i] on at which [u] is not above the cumulative
    probability. *)
Fixpoint first_reaching (u : Q) (ps : list Q) (i : nat) : option nat :=
  match ps with
  | [] => None
  | pi :: ps' => if Qle_bool u pi then Some i else first_reaching u ps' (S i)
  end.

(** The points of the lines of a CDF file: the lines with two numbers. *)
Definition points (lines : list (list (option Q))) : list (Q * Q) :=
  omap (fun line => match line with
                    | [Some xVal; Some pVal] => Some (xVal, pVal)
                    | _ => None
                    end) lines.

(** The mean of a bimodal service time, as the comment of [SingleQueue]
    writes it: [ratio * peak1 + (1-ratio) * peak2]. *)
Definition bimodal_mean (peak1 peak2 ratio : Q) : Q :=
  ratio * peak1 + (1 - ratio) * peak2.

(** The names of workloads that [GetWorkloadPath] knows. *)
Definition known_workloads : list string :=
  [""; "w3"; "w4"; "w5"; "GPT3B"; "GPT3_adel"]%string.


(** ** Vocabulary of the runs of the PS processor *)

Section PSVocabulary3.
Import PSProcessor.

(** What every iteration of [Run] leaves behind, whatever the numbers are:
    the counters agree with the list, which holds pointers to [Request]s
    only; an idle processor has no timer; the timer of a busy one is
    the service time left of the request under [curr], which is the least
    in the list, over the factor. *)
Definition rearmed (cores : Z) (s : RunState) : Prop :=
  let p := proc s in
  workerCount p = cores /\
  count p = Z.of_nat (length (reqList p)) /\
  prevTime p = clock s /\
  Forall (fun x => is_Some (asRequest x)) (reqList p) /\
  ((count p <= 0)%Z -> d s = -1) /\
  ((0 < count p)%Z ->
   exists i x, curr p = Some i /\ reqList p !! i = Some x /\
               (forall y, y ∈ reqList p -> remaining x <= remaining y) /\
               d s = remaining x / getFactor p).
End PSVocabulary3.

Section PSVocabulary4.
Import PSProcessor.

(** A whole number. *)
Definition whole (q : Q) : Prop := exists z : Z, q == inject_Z z.

(** The time at which a request is due when it is served without sharing. *)
Definition due (x : ReqInterface) : Q :=
  InitTime (base x) + OriginalServiceTime (base x).

(** The request arrives at [tm] as it was created, and its arrival time and
    service time are whole numbers, the service time not negative, with a
    sum of at most [horizon]. *)
Definition whole_at (horizon : Z) (tm : Q) (x : ReqInterface) : Prop :=
  fresh_at tm x /\
  exists a sv : Z,
    tm == inject_Z a /\ OriginalServiceTime (base x) == inject_Z sv /\
    (0 <= sv)%Z /\ (a + sv <= horizon)%Z.

(** The clock is a whole number; no request in progress is overdue, and
    each is due at a whole number, at most [horizon]. *)
Definition on_time (horizon : Z) (s : RunState) : Prop :=
  (exists z, clock s == inject_Z z /\ (0 <= z <= horizon)%Z) /\
  (forall x, x ∈ reqList (proc s) ->
     clock s <= due x /\ exists z, due x == inject_Z z /\ (z <= horizon)%Z).
End PSVocabulary4.

Section Float64Vocabulary.
Import PrimFloat PSProcessor64.

(** Two workers; a request of service time 0.3 arrives at 0.1 and one of
    service time 1 at 0.2; the timer expires twice. *)
Definition late_run : option (list RunState) :=
  states [Some (0.1, NewRequest 0.1 0.3); Some (0.2, NewRequest 0.2 1); None; None]%float
         (start 2).

(** Two workers; a request of service time 0.2 arrives at 0.1 and one of
    service time 0.1 at 0.2; the timer expires once. *)
Definition sinking_run : option (list RunState) :=
  states [Some (0.1, NewRequest 0.1 0.2); Some (0.2, NewRequest 0.2 0.1); None]%float
         (start 2).

(** The run of [example_run] on float64 numbers. *)
Definition example_run64 : option (list RunState) :=
  states [Some (1, NewRequest 1 5); Some (3, NewRequest 3 1); None; None]%float
         (start 2).
End Float64Vocabulary.

(** * Properties *)

(** ** The update step of the PS processor *)

Section PSUpdate.
Import PSProcessor.

Lemma float64_pos (n : Z) : (0 < n)%Z -> 0 < float64 n.
Proof. intros Hn. unfold float64. change 0 with (inject_Z 0). now rewrite <- Zlt_Qlt. Qed.

Lemma float64_self_div (n : Z) : (0 < n)%Z -> float64 n / float64 n == 1.
Proof.
  intros Hn. apply Qmult_inv_r. intros E.
  pose proof (float64_pos n Hn) as Hp. rewrite E in Hp. now apply Qlt_irrefl in Hp.
Qed.

(** [getFactor] computes the sharing factor of the specification, except
    with no worker and no request, where Go divides 0 by 0. *)
Lemma getFactor_sharing_factor (p : t) :
  workerCount p <> 0%Z \/ count p <> 0%Z ->
  getFactor p == sharing_factor (workerCount p) (count p).
Proof.
  intros Hw. unfold getFactor, sharing_factor.
  destruct (Z.gtb_spec (workerCount p) (count p)) as [Hgt|Hle];
    destruct (Z.geb_spec (workerCount p) (count p)) as [Hge|Hlt]; try reflexivity; try lia.
  assert (count p = workerCount p) as Heq by lia. rewrite Heq.
  apply Qmult_inv_r. unfold float64. intros E.
  apply (proj1 (inject_Z_injective (workerCount p) 0)) in E. lia.
Qed.

Lemma sharing_factor_min (w c : Z) :
  (0 < c)%Z -> sharing_factor w c == Qmin 1 (float64 w / float64 c).
Proof.
  intros Hc. unfold sharing_factor.
  pose proof (float64_pos c Hc) as Hcp.
  destruct (Z.geb_spec w c) as [Hge|Hlt].
  - symmetry. apply Q.min_l. apply Qle_shift_div_l; [assumption|].
    rewrite Qmult_1_l. unfold float64. now rewrite <- Zle_Qle.
  - symmetry. apply Q.min_r. apply Qle_shift_div_r; [assumption|].
    rewrite Qmult_1_l. unfold float64. rewrite <- Zle_Qle. lia.
Qed.

Lemma SubServiceTime_differs (diff : Q) (x : ReqInterface) :
  differs_in_service_only x (RI_SubServiceTime diff x) (ServiceTime (base x) - diff).
Proof. destruct x; reflexivity. Qed.

(** C1.  [updateServiceTimes] run at time [now] subtracts
    [delta = (now - prevTime) * f] from the remaining service time of every
    request of the in-progress list, where [f] is 1 when
    [workerCount >= count] and [workerCount / count] otherwise, which is
    [min 1 (workerCount / count)] when [count] is positive; it sets
    [prevTime] to [now]; the requests keep their type and their other
    fields, and the other fields of the processor are unchanged.  This
    holds of every processor but one whose list is not empty while its
    [workerCount] and [count] are both 0. *)
Theorem updateServiceTimes_subtracts_delta (now : Q) (p : t) :
  reqList p = [] \/ workerCount p <> 0%Z \/ count p <> 0%Z ->
  let f := sharing_factor (workerCount p) (count p) in
  let delta := (now - prevTime p) * f in
  let p' := updateServiceTimes now p in
  prevTime p' = now /\
  workerCount p' = workerCount p /\ count p' = count p /\ curr p' = curr p /\
  Forall2 (fun x x' => exists s, differs_in_service_only x x' s /\
                                 s == ServiceTime (base x) - delta)
          (reqList p) (reqList p') /\
  ((0 < count p)%Z -> f == Qmin 1 (float64 (workerCount p) / float64 (count p))).
Proof.
  intros Hw f delta p'. subst p'. unfold updateServiceTimes. simpl.
  repeat split.
  - destruct Hw as [Hnil|Hw]; [rewrite Hnil; constructor|].
    apply Forall2_fmap_r, Forall_Forall2_diag, Forall_forall. intros x _.
    eexists. split; [apply SubServiceTime_differs|].
    subst delta f. now rewrite (getFactor_sharing_factor p Hw).
  - intros Hc. now apply sharing_factor_min.
Qed.

Lemma updateServiceTimes_subtracts_delta_witness :
  let p := {| workerCount := 2; count := 3;
              reqList := [PlainReq (mkRequest 0 5 5); ColoredReq (mkRequest 1 4 4) 1;
                          PlainReq (mkRequest 2 7 7)];
              curr := Some 1%nat; prevTime := 2 |} in
  (reqList p = [] \/ workerCount p <> 0%Z \/ count p <> 0%Z) /\
  prevTime (updateServiceTimes 5 p) = 5 /\
  Forall2 (fun x x' => exists s, differs_in_service_only x x' s /\
                                 s == ServiceTime (base x) - (5 - 2) * (2 # 3))
          (reqList p) (reqList (updateServiceTimes 5 p)).
Proof.
  intros p.
  assert (reqList p = [] \/ workerCount p <> 0%Z \/ count p <> 0%Z) as Hp.
  { right. left. simpl. lia. }
  pose proof (updateServiceTimes_subtracts_delta 5 p Hp) as (Hprev & _ & _ & _ & Hl & _).
  split; [exact Hp|]. split; [exact Hprev|]. exact Hl.
Defined.

(** C8.  A second [updateServiceTimes] at an unchanged clock subtracts an
    amount equal to zero from every request of the in-progress list: every
    request keeps its type, its fields and a remaining service time equal
    to the one it had, and [prevTime] and the other fields of the processor
    are the same as after the first call. *)
Theorem updateServiceTimes_idempotent (now : Q) (p : t) :
  let p1 := updateServiceTimes now p in
  let p2 := updateServiceTimes now p1 in
  (exists diff, diff == 0 /\ reqList p2 = map (RI_SubServiceTime diff) (reqList p1)) /\
  Forall2 (fun x x' => exists s, differs_in_service_only x x' s /\
                                 s == ServiceTime (base x))
          (reqList p1) (reqList p2) /\
  prevTime p2 = prevTime p1 /\
  workerCount p2 = workerCount p1 /\ count p2 = count p1 /\ curr p2 = curr p1.
Proof.
  intros p1 p2. subst p2.
  assert ((now - prevTime p1) * getFactor p1 == 0) as Hz.
  { subst p1. simpl. ring. }
  repeat split.
  - exists ((now - prevTime p1) * getFactor p1). split; [exact Hz|reflexivity].
  - change (reqList (updateServiceTimes now p1))
      with (map (RI_SubServiceTime ((now - prevTime p1) * getFactor p1)) (reqList p1)).
    apply Forall2_fmap_r, Forall_Forall2_diag, Forall_forall. intros x _.
    eexists. split; [apply SubServiceTime_differs|].
    rewrite Hz. ring.
Qed.

End PSUpdate.

(** ** The priority queue *)

Lemma Qltb_iff (x y : Q) : Qltb x y = true <-> x < y.
Proof.
  unfold Qltb. rewrite negb_true_iff, <- not_true_iff_false, Qle_bool_iff.
  split; [apply Qnot_le_lt | apply Qlt_not_le].
Qed.

Lemma Qltb_false_iff (x y : Q) : Qltb x y = false <-> y <= x.
Proof.
  unfold Qltb. rewrite negb_false_iff. apply Qle_bool_iff.
Qed.

Section HeapProofs.
Context {A : Type} `{Comparable A}.
Import PQ.

Lemma less_false_iff (a b : A) : less a b = false <-> lex_le b a.
Proof.
  unfold less, lex_le.
  destruct (Qeq_bool (GetCmpVal a) (GetCmpVal b)) eqn:E.
  - apply Qeq_bool_iff in E. rewrite Qltb_false_iff. split.
    + intros Hle. right. split; [symmetry; exact E | exact Hle].
    + intros [Hlt | [_ Hle]]; [lra | exact Hle].
  - apply Qeq_bool_neq in E. rewrite Qltb_false_iff. split.
    + intros Hle. left. apply Qle_lteq in Hle as [Hlt | Heq]; [exact Hlt|].
      exfalso. apply E. symmetry. exact Heq.
    + intros [Hlt | [Heq _]]; [lra | exfalso; apply E; symmetry; exact Heq].
Qed.

Lemma less_true_lex_le (a b : A) : less a b = true -> lex_le a b.
Proof.
  unfold less, lex_le.
  destruct (Qeq_bool (GetCmpVal a) (GetCmpVal b)) eqn:E; rewrite Qltb_iff.
  - apply Qeq_bool_iff in E. intros Hlt. right. split; [exact E | lra].
  - intros Hlt. left. exact Hlt.
Qed.

Lemma lex_le_refl (a : A) : lex_le a a.
Proof. right. split; [reflexivity | lra]. Qed.

Lemma lex_le_trans (a b c : A) : lex_le a b -> lex_le b c -> lex_le a c.
Proof. unfold lex_le. intros [?|[? ?]] [?|[? ?]]; [left; lra | left; lra | left; lra | right; split; lra]. Qed.

Lemma parent_bounds (k : nat) : (0 < k -> 2 * parent k + 1 <= k <= 2 * parent k + 2)%nat.
Proof.
  intros Hk. unfold parent.
  pose proof (Nat.div_mod_eq (k - 1) 2). pose proof (Nat.mod_upper_bound (k - 1) 2). lia.
Qed.

Lemma parent_0 : parent 0 = 0%nat.
Proof. reflexivity. Qed.

Lemma parent_lt (k : nat) : (0 < k -> parent k < k)%nat.
Proof. intros Hk. pose proof (parent_bounds k Hk). lia. Qed.

Lemma Swap_Some (h : list A) (i j : nat) (a b : A) :
  h !! i = Some a -> h !! j = Some b ->
  Swap h i j = Some (<[i:=b]> (<[j:=a]> h)).
Proof. intros Hi Hj. unfold Swap. rewrite Hi, Hj. reflexivity. Qed.

Lemma swapped_lookup (h : list A) (i j k : nat) (a b : A) :
  h !! i = Some a -> h !! j = Some b ->
  <[i:=b]> (<[j:=a]> h) !! k =
    if decide (k = i) then Some b else if decide (k = j) then Some a else h !! k.
Proof.
  intros Hi Hj.
  apply lookup_lt_Some in Hi as Hil. apply lookup_lt_Some in Hj as Hjl.
  destruct (decide (k = i)) as [->|Hki].
  - apply list_lookup_insert_eq. rewrite length_insert. exact Hil.
  - rewrite list_lookup_insert_ne by congruence.
    destruct (decide (k = j)) as [->|Hkj].
    + apply list_lookup_insert_eq. exact Hjl.
    + apply list_lookup_insert_ne. congruence.
Qed.

Lemma heap_except_heapOrdered (h : list A) (j : nat) :
  heap_except h j -> heap_at h j -> heapOrdered h.
Proof.
  intros [Hne _] Hj k. destruct (decide (k = j)) as [->|Hk]; [exact Hj | apply Hne, Hk].
Qed.

Lemma heap_at_0 (h : list A) : heap_at h 0.
Proof. intros a b Ha Hb. rewrite parent_0 in Hb. simplify_eq. apply lex_le_refl. Qed.

(** One exchange of [up] moves the exception from [j] to its parent. *)
Lemma heap_except_swap (h : list A) (j : nat) (a b : A) :
  (0 < j)%nat ->
  h !! j = Some a -> h !! parent j = Some b -> less a b = true ->
  heap_except h j ->
  heap_except (<[parent j:=a]> (<[j:=b]> h)) (parent j).
Proof.
  intros Hj Ha Hb Hlt [Hne Hgp].
  pose proof (parent_lt j Hj) as Hpj.
  apply less_true_lex_le in Hlt.
  split.
  - intros k Hk x y.
    rewrite !(swapped_lookup h (parent j) j _ b a Hb Ha).
    destruct (decide (k = parent j)) as [?|_]; [contradiction|].
    destruct (decide (k = j)) as [->|Hkj].
    + rewrite decide_True by reflexivity. intros; simplify_eq. exact Hlt.
    + intros Hx.
      destruct (decide (parent k = parent j)) as [Hpp|Hpp].
      * intros; simplify_eq. apply (lex_le_trans _ b); [exact Hlt|].
        apply (Hne k Hkj); [exact Hx | rewrite Hpp; exact Hb].
      * destruct (decide (parent k = j)) as [Hpk|Hpk].
        -- intros; simplify_eq. apply (Hgp k); [reflexivity | exact Hx | exact Hb].
        -- intros Hy. apply (Hne k Hkj); assumption.
  - intros k x y Hpk.
    rewrite !(swapped_lookup h (parent j) j _ b a Hb Ha).
    intros Hx Hy.
    assert (parent (parent j) <> j) as Hppj.
    { destruct (decide (parent j = 0%nat)) as [->|Hnz]; [rewrite parent_0; lia|].
      pose proof (parent_lt (parent j)). lia. }
    assert (lex_le y b) as Hyb.
    { destruct (decide (parent (parent j) = parent j)) as [_|Hne'].
      - simplify_eq. exact Hlt.
      - rewrite decide_False in Hy by exact Hppj.
        apply (Hne (parent j)); [lia | exact Hb | exact Hy]. }
    destruct (decide (k = parent j)) as [Hk|Hk].
    + assert (parent j = 0%nat) as Hz.
      { destruct (decide (parent j = 0%nat)) as [?|Hnz]; [assumption|].
        pose proof (parent_lt (parent j)). rewrite <- Hk in *. lia. }
      rewrite Hz, parent_0, decide_True in Hy by reflexivity.
      simplify_eq. apply lex_le_refl.
    + destruct (decide (k = j)) as [->|Hkj]; [simplify_eq; exact Hyb|].
      apply (lex_le_trans _ b); [exact Hyb|].
      apply (Hne k Hkj); [exact Hx | rewrite Hpk; exact Hb].
Qed.

Lemma up_S (fuel : nat) (h : list A) (j : nat) :
  up (S fuel) h j =
    if (parent j =? j)%nat then Some h
    else lt ← Less h j (parent j);
         if negb lt then Some h
         else h' ← Swap h (parent j) j; up fuel h' (parent j).
Proof. reflexivity. Qed.

Lemma down_S (fuel : nat) (h : list A) (i n : nat) :
  down (S fuel) h i n =
    let j1 := (2 * i + 1)%nat in
    if (n <=? j1)%nat then Some h
    else
      right ← (if (j1 + 1 <? n)%nat then Less h (j1 + 1) j1 else Some false);
      let j := if (right : bool) then (j1 + 1)%nat else j1 in
      lt ← Less h j i;
      if negb lt then Some h
      else h' ← Swap h i j; down fuel h' j n.
Proof. reflexivity. Qed.

Lemma up_spec (fuel : nat) : forall (h : list A) (j : nat),
  (j < fuel)%nat -> (j < length h)%nat -> heap_except h j ->
  exists h', up fuel h j = Some h' /\ heapOrdered h' /\ h' ≡ₚ h.
Proof.
  induction fuel as [|fuel IH]; intros h j Hfuel Hlen Hex; [lia|].
  rewrite up_S.
  destruct (Nat.eqb_spec (parent j) j) as [Heq|Hneq].
  - exists h. split; [reflexivity|]. split; [|reflexivity].
    assert (j = 0%nat) as -> by (destruct j; [reflexivity | pose proof (parent_lt (S j)); lia]).
    apply (heap_except_heapOrdered h 0 Hex), heap_at_0.
  - assert (0 < j)%nat as Hj by (destruct j; [rewrite parent_0 in Hneq; congruence | lia]).
    pose proof (parent_lt j Hj) as Hpj.
    destruct (lookup_lt_is_Some_2 h j Hlen) as [a Ha].
    destruct (lookup_lt_is_Some_2 h (parent j) ltac:(lia)) as [b Hb].
    unfold Less. rewrite Ha, Hb. simpl.
    destruct (less a b) eqn:Hlt; simpl.
    + rewrite (Swap_Some h (parent j) j b a Hb Ha). simpl.
      destruct (IH (<[parent j:=a]> (<[j:=b]> h)) (parent j)) as (h' & Hup & Hord & Hperm).
      * lia.
      * rewrite !length_insert. lia.
      * apply heap_except_swap; assumption.
      * exists h'. split; [exact Hup|]. split; [exact Hord|].
        rewrite Hperm. apply Permutation_insert_swap; assumption.
    + exists h. split; [reflexivity|]. split; [|reflexivity].
      apply (heap_except_heapOrdered h j Hex).
      intros x y Hx Hy. simplify_eq. apply less_false_iff. exact Hlt.
Qed.

Lemma heap_except_Push (h : list A) (x : A) :
  heapOrdered h -> heap_except (Push h x) (length h).
Proof.
  intros Hord. unfold Push. split.
  - intros k Hk a b Ha Hb.
    apply lookup_lt_Some in Ha as Hlt. rewrite length_app in Hlt. simpl in Hlt.
    assert (k < length h)%nat as Hkl by lia.
    assert (parent k <= k)%nat as Hpk.
    { destruct k; [rewrite parent_0; lia | pose proof (parent_lt (S k)); lia]. }
    rewrite lookup_app_l in Ha by lia. rewrite lookup_app_l in Hb by lia.
    apply (Hord k); assumption.
  - intros k a b Hpk Ha Hb.
    apply lookup_lt_Some in Ha as Hlt. rewrite length_app in Hlt. simpl in Hlt.
    destruct k as [|k].
    + rewrite parent_0 in Hpk. rewrite <- Hpk, parent_0 in Hb. simplify_eq. apply lex_le_refl.
    + pose proof (parent_bounds (S k)). lia.
Qed.

(** [heap.Push] keeps an ordered heap ordered. *)
Lemma heap_Push_ordered (h : list A) (x : A) :
  heapOrdered h ->
  exists h', heap_Push h x = Some h' /\ heapOrdered h' /\ h' ≡ₚ x :: h.
Proof.
  intros Hord. unfold heap_Push, Len.
  assert (length (Push h x) = S (length h)) as Hl.
  { unfold Push. rewrite length_app. simpl. lia. }
  rewrite Hl. replace (S (length h) - 1)%nat with (length h) by lia.
  destruct (up_spec (S (length h)) (Push h x) (length h)) as (h' & Hup & Hord' & Hperm).
  - lia.
  - lia.
  - apply heap_except_Push, Hord.
  - exists h'. split; [exact Hup|]. split; [exact Hord'|].
    rewrite Hperm. unfold Push. symmetry. apply Permutation_cons_append.
Qed.

Lemma heapOrdered_nil : heapOrdered ([] : list A).
Proof. intros k a b Ha. rewrite lookup_nil in Ha. discriminate. Qed.

(** The root of an ordered heap is a least element. *)
Lemma root_minimal (h : list A) (r : A) :
  heapOrdered h -> h !! 0%nat = Some r ->
  forall k a, h !! k = Some a -> lex_le r a.
Proof.
  intros Hord Hr k. induction k as [k IH] using lt_wf_ind. intros a Ha.
  destruct k as [|k]; [simplify_eq; apply lex_le_refl|].
  pose proof (parent_lt (S k) ltac:(lia)) as Hp.
  apply lookup_lt_Some in Ha as Hl.
  destruct (lookup_lt_is_Some_2 h (parent (S k)) ltac:(lia)) as [b Hb].
  apply (lex_le_trans _ b); [apply (IH (parent (S k)) Hp b Hb)|].
  apply (Hord (S k)); assumption.
Qed.

(** [down] returns, permutes the slice and leaves the part from [n] on. *)
Lemma down_total (fuel : nat) : forall (h : list A) (i n : nat),
  (n <= length h)%nat -> (n - i < fuel)%nat ->
  exists h', down fuel h i n = Some h' /\ h' ≡ₚ h /\
             forall k, (n <= k)%nat -> h' !! k = h !! k.
Proof.
  induction fuel as [|fuel IH]; intros h i n Hn Hfuel; [lia|].
  rewrite down_S. cbv zeta.
  destruct (Nat.leb_spec n (2 * i + 1)) as [Hge|Hlt].
  { exists h. split; [reflexivity|]. split; [reflexivity|]. intros; reflexivity. }
  set (j1 := (2 * i + 1)%nat) in *.
  destruct (lookup_lt_is_Some_2 h j1 ltac:(lia)) as [c1 Hc1].
  destruct (lookup_lt_is_Some_2 h i ltac:(lia)) as [a Ha].
  assert (exists right, (if (j1 + 1 <? n)%nat then Less h (j1 + 1) j1 else Some false) = Some right)
    as [right Hright].
  { destruct (Nat.ltb_spec (j1 + 1) n) as [H2|H2]; [|eauto].
    destruct (lookup_lt_is_Some_2 h (j1 + 1)%nat ltac:(lia)) as [c2 Hc2].
    unfold Less. rewrite Hc2, Hc1. simpl. eauto. }
  rewrite Hright. simpl.
  set (j := if right then (j1 + 1)%nat else j1).
  assert (i < j /\ j < n)%nat as [Hij Hjn].
  { subst j. destruct right; [|lia].
    destruct (Nat.ltb_spec (j1 + 1) n); [lia | discriminate]. }
  destruct (lookup_lt_is_Some_2 h j ltac:(lia)) as [c Hc].
  unfold Less at 1. rewrite Hc, Ha. simpl.
  destruct (less c a) eqn:Hlt'; simpl.
  - rewrite (Swap_Some h i j a c Ha Hc). simpl.
    destruct (IH (<[i:=c]> (<[j:=a]> h)) j n) as (h' & Hd & Hperm & Hrest).
    + rewrite !length_insert. lia.
    + lia.
    + exists h'. split; [exact Hd|]. split.
      * rewrite Hperm. apply Permutation_insert_swap; assumption.
      * intros k Hk. rewrite (Hrest k Hk).
        rewrite !list_lookup_insert_ne by lia. reflexivity.
  - exists h. split; [reflexivity|]. split; [reflexivity|]. intros; reflexivity.
Qed.

(** [heap.Pop] on a non-empty heap returns its root. *)
Lemma heap_Pop_root (h : list A) (r : A) :
  h !! 0%nat = Some r ->
  exists h', heap_Pop h = Some (r, h') /\ r :: h' ≡ₚ h.
Proof.
  intros Hr. unfold heap_Pop, Len.
  apply lookup_lt_Some in Hr as Hlen.
  destruct (length h) as [|n] eqn:Hl; [lia|].
  destruct (lookup_lt_is_Some_2 h n ltac:(lia)) as [z Hz].
  rewrite (Swap_Some h 0 n r z Hr Hz). cbn [mbind option_bind].
  set (h1 := <[0%nat:=z]> (<[n:=r]> h)).
  assert (length h1 = S n) as Hl1 by (subst h1; rewrite !length_insert; exact Hl).
  assert (h1 !! n = Some r) as Hh1n.
  { subst h1. rewrite (swapped_lookup h 0 n n r z Hr Hz).
    destruct (decide (n = 0%nat)) as [->|_]; [congruence|].
    rewrite decide_True by reflexivity. reflexivity. }
  destruct (down_total (S n) h1 0 n) as (h2 & Hd & Hperm & Hrest); [lia | lia |].
  rewrite Hd. cbn [mbind option_bind]. unfold Pop.
  assert (length h2 = S n) as Hl2 by (rewrite Hperm; exact Hl1).
  rewrite Hl2. rewrite (Hrest n) by lia. rewrite Hh1n. simpl.
  eexists. split; [reflexivity|].
  transitivity h2.
  - rewrite <- (take_drop n h2) at 2.
    rewrite (drop_S h2 r n) by (rewrite (Hrest n) by lia; exact Hh1n).
    rewrite drop_ge by lia. rewrite <- Permutation_cons_append. reflexivity.
  - rewrite Hperm. subst h1. apply Permutation_insert_swap; assumption.
Qed.

Lemma up_total (fuel : nat) : forall (h : list A) (j : nat),
  (j < fuel)%nat -> (j < length h)%nat ->
  exists h', up fuel h j = Some h' /\ h' ≡ₚ h.
Proof.
  induction fuel as [|fuel IH]; intros h j Hfuel Hlen; [lia|].
  rewrite up_S.
  destruct (Nat.eqb_spec (parent j) j) as [Heq|Hneq]; [exists h; split; reflexivity|].
  assert (0 < j)%nat as Hj by (destruct j; [rewrite parent_0 in Hneq; congruence | lia]).
  pose proof (parent_lt j Hj) as Hpj.
  destruct (lookup_lt_is_Some_2 h j Hlen) as [a Ha].
  destruct (lookup_lt_is_Some_2 h (parent j) ltac:(lia)) as [b Hb].
  unfold Less. rewrite Ha, Hb. cbn [mbind option_bind].
  destruct (less a b); cbn [negb]; [|exists h; split; reflexivity].
  rewrite (Swap_Some h (parent j) j b a Hb Ha). cbn [mbind option_bind].
  destruct (IH (<[parent j:=a]> (<[j:=b]> h)) (parent j)) as (h' & Hup & Hperm);
    [lia | rewrite !length_insert; lia |].
  exists h'. split; [exact Hup|].
  rewrite Hperm. apply Permutation_insert_swap; assumption.
Qed.

(** [heap.Push] returns on every slice and adds the element. *)
Lemma heap_Push_total (h : list A) (x : A) :
  exists h', heap_Push h x = Some h' /\ h' ≡ₚ x :: h.
Proof.
  unfold heap_Push, Len.
  assert (length (Push h x) = S (length h)) as Hl.
  { unfold Push. rewrite length_app. simpl. lia. }
  rewrite Hl. replace (S (length h) - 1)%nat with (length h) by lia.
  destruct (up_total (S (length h)) (Push h x) (length h)) as (h' & Hup & Hperm); [lia | lia |].
  exists h'. split; [exact Hup|].
  rewrite Hperm. unfold Push. symmetry. apply Permutation_cons_append.
Qed.

Lemma parent_child (k i : nat) :
  (0 < k)%nat -> parent k = i -> (k = 2 * i + 1 \/ k = 2 * i + 2)%nat.
Proof. intros Hk Hp. pose proof (parent_bounds k Hk). lia. Qed.

Lemma parent_of_children (i : nat) :
  parent (2 * i + 1) = i /\ parent (2 * i + 2) = i.
Proof.
  pose proof (parent_bounds (2 * i + 1) ltac:(lia)).
  pose proof (parent_bounds (2 * i + 2) ltac:(lia)). lia.
Qed.

Lemma down_ordered (fuel : nat) : forall (h : list A) (i n : nat),
  (n <= length h)%nat -> (n - i < fuel)%nat ->
  heap_except_down h i n ->
  exists h', down fuel h i n = Some h' /\ heapOrdered_upto h' n.
Proof.
  induction fuel as [|fuel IH]; intros h i n Hn Hfuel [Hne Hgp]; [lia|].
  rewrite down_S. cbv zeta.
  destruct (parent_of_children i) as [Hp1 Hp2].
  destruct (Nat.leb_spec n (2 * i + 1)) as [Hge|Hlt].
  { exists h. split; [reflexivity|].
    intros k Hk. destruct (decide (parent k = i)) as [Hpk|Hpk]; [|apply Hne; assumption].
    destruct k as [|k]; [apply heap_at_0|].
    destruct (parent_child (S k) i ltac:(lia) Hpk); lia. }
  set (j1 := (2 * i + 1)%nat) in *.
  destruct (lookup_lt_is_Some_2 h j1 ltac:(lia)) as [c1 Hc1].
  destruct (lookup_lt_is_Some_2 h i ltac:(lia)) as [a Ha].
  (* the smaller child [c] at [j] *)
  assert (exists right c,
             (if (j1 + 1 <? n)%nat then Less h (j1 + 1) j1 else Some false) = Some right /\
             let j := if (right : bool) then (j1 + 1)%nat else j1 in
             h !! j = Some c /\ (i < j < n)%nat /\ parent j = i /\
             forall k x, (k < n)%nat -> (0 < k)%nat -> parent k = i -> h !! k = Some x ->
                         lex_le c x)
    as (right & c & Hright & Hc & [Hij Hjn] & Hpj & Hmin).
  { destruct (Nat.ltb_spec (j1 + 1) n) as [H2|H2].
    - destruct (lookup_lt_is_Some_2 h (j1 + 1)%nat ltac:(lia)) as [c2 Hc2].
      unfold Less. rewrite Hc2, Hc1. cbn [mbind option_bind].
      destruct (less c2 c1) eqn:Hl.
      + exists true, c2. split; [reflexivity|]. cbv zeta. split; [exact Hc2|].
        split; [lia|]. split; [subst j1; replace (2 * i + 1 + 1)%nat with (2 * i + 2)%nat by lia; exact Hp2|].
        intros k x Hk Hk0 Hpk Hx. destruct (parent_child k i Hk0 Hpk) as [->| ->].
        * fold j1 in Hx. simplify_eq. apply less_true_lex_le, Hl.
        * replace (2 * i + 2)%nat with (j1 + 1)%nat in Hx by lia. simplify_eq. apply lex_le_refl.
      + exists false, c1. split; [reflexivity|]. cbv zeta. split; [exact Hc1|].
        split; [lia|]. split; [exact Hp1|].
        intros k x Hk Hk0 Hpk Hx. destruct (parent_child k i Hk0 Hpk) as [->| ->].
        * fold j1 in Hx. simplify_eq. apply lex_le_refl.
        * replace (2 * i + 2)%nat with (j1 + 1)%nat in Hx by lia. simplify_eq.
          apply less_false_iff, Hl.
    - exists false, c1. split; [reflexivity|]. cbv zeta. split; [exact Hc1|].
      split; [lia|]. split; [exact Hp1|].
      intros k x Hk Hk0 Hpk Hx. destruct (parent_child k i Hk0 Hpk) as [->| ->].
      * fold j1 in Hx. simplify_eq. apply lex_le_refl.
      * lia. }
  rewrite Hright. cbn [mbind option_bind].
  set (j := if right then (j1 + 1)%nat else j1) in *.
  unfold Less at 1. rewrite Hc, Ha. cbn [mbind option_bind].
  destruct (less c a) eqn:Hlt'; cbn [negb].
  - rewrite (Swap_Some h i j a c Ha Hc). cbn [mbind option_bind].
    apply less_true_lex_le in Hlt'.
    destruct (IH (<[i:=c]> (<[j:=a]> h)) j n) as (h' & Hd & Hord).
    + rewrite !length_insert. lia.
    + lia.
    + split.
      * intros k Hk Hpk x y.
        rewrite !(swapped_lookup h i j _ a c Ha Hc).
        destruct (decide (k = i)) as [->|Hki].
        -- (* the place of the exchange and its parent *)
           destruct (decide (i = 0%nat)) as [->|Hi0].
           ++ rewrite parent_0, decide_True by reflexivity. intros; simplify_eq. apply lex_le_refl.
           ++ pose proof (parent_lt i ltac:(lia)) as Hpi.
              rewrite decide_False by lia. rewrite decide_False by lia.
              intros Hx Hy. simplify_eq.
              apply (Hgp j x y); [lia | lia | exact Hpj | exact Hc | exact Hy].
        -- destruct (decide (k = j)) as [->|Hkj].
           { rewrite Hpj, decide_True by reflexivity. intros; simplify_eq. exact Hlt'. }
           intros Hx.
           destruct (decide (parent k = i)) as [Hpki|Hpki].
           ++ assert (0 < k)%nat as Hk0.
              { destruct k as [|k]; [rewrite parent_0 in Hpki; congruence | lia]. }
              intros [= <-].
              apply (Hmin k); [exact Hk | exact Hk0 | exact Hpki | exact Hx].
           ++ rewrite decide_False by exact Hpk. intros Hy.
              apply (Hne k Hk Hpki); assumption.
      * intros k x y Hk Hj0 Hpk.
        rewrite !(swapped_lookup h i j _ a c Ha Hc).
        assert (0 < k)%nat as Hk0.
        { destruct k as [|k]; [rewrite parent_0 in Hpk; lia | lia]. }
        pose proof (parent_bounds k Hk0) as Hkb.
        assert (j < k)%nat as Hjk by lia.
        assert (i < k)%nat as Hik by lia.
        rewrite decide_False by lia. rewrite decide_False by lia.
        rewrite Hpj, decide_True by reflexivity.
        intros Hx Hy. simplify_eq.
        apply (Hne k Hk); [lia | exact Hx | rewrite Hpk; exact Hc].
    + exists h'. split; assumption.
  - exists h. split; [reflexivity|].
    apply less_false_iff in Hlt'.
    intros k Hk. destruct (decide (parent k = i)) as [Hpk|Hpk]; [|apply Hne; assumption].
    destruct k as [|k]; [apply heap_at_0|].
    intros x y Hx Hy. rewrite Hpk in Hy. simplify_eq.
    apply (lex_le_trans _ c); [exact Hlt'|].
    apply (Hmin (S k)); [lia | lia | exact Hpk | exact Hx].
Qed.

(** [heap.Pop] on an ordered heap returns its root and leaves an ordered
    heap of the other elements. *)
Lemma heap_Pop_ordered (h : list A) (r : A) :
  heapOrdered h -> h !! 0%nat = Some r ->
  exists h', heap_Pop h = Some (r, h') /\ heapOrdered h' /\ r :: h' ≡ₚ h.
Proof.
  intros Hord Hr.
  destruct (heap_Pop_root h r Hr) as (h' & Hpop & Hperm).
  exists h'. split; [exact Hpop|]. split; [|exact Hperm].
  unfold heap_Pop, Len in Hpop.
  apply lookup_lt_Some in Hr as Hlen.
  destruct (length h) as [|n] eqn:Hl; [lia|].
  destruct (lookup_lt_is_Some_2 h n ltac:(lia)) as [z Hz].
  rewrite (Swap_Some h 0 n r z Hr Hz) in Hpop. cbn [mbind option_bind] in Hpop.
  set (h1 := <[0%nat:=z]> (<[n:=r]> h)) in *.
  assert (length h1 = S n) as Hl1 by (subst h1; rewrite !length_insert; exact Hl).
  destruct (down_ordered (S n) h1 0 n) as (h2 & Hd & Hord2); [lia | lia | |].
  { split; [|intros; lia].
    intros k Hk Hpk x y. subst h1.
    rewrite !(swapped_lookup h 0 n _ r z Hr Hz).
    assert (0 < k)%nat as Hk0 by (destruct k; [rewrite parent_0 in Hpk; congruence | lia]).
    pose proof (parent_lt k Hk0) as Hpl.
    rewrite !decide_False by lia. apply Hord. }
  rewrite Hd in Hpop. cbn [mbind option_bind] in Hpop.
  destruct (down_total (S n) h1 0 n) as (h2' & Hd' & Hperm2 & _); [lia | lia |].
  assert (h2' = h2) as -> by congruence.
  assert (length h2 = S n) as Hl2 by (rewrite Hperm2; exact Hl1).
  unfold Pop in Hpop. rewrite Hl2 in Hpop.
  destruct (h2 !! n) as [item|]; [|discriminate]. cbn [mbind option_bind] in Hpop.
  injection Hpop as _ <-.
  intros k x y Hx Hy.
  apply lookup_take_Some in Hx as [Hx Hkn]. apply lookup_take_Some in Hy as [Hy _].
  apply (Hord2 k Hkn); assumption.
Qed.

Section Dynamic.
Variable E : Type.
Variable typeName : E -> string.
Variable asComparable : E -> option A.
Variable asReqInterface : A -> option E.

(** C9.  [Enqueue] of an element whose dynamic type does not implement
    [Comparable] panics with the diagnostic that ends in the name of
    that type, and the queue is the one before the call; [Enqueue] of an
    element that implements it returns without a panic, and the queue
    then holds that element besides the ones it held and is one longer. *)
Theorem Enqueue_fail_fast (el : E) (q : PQueue A) :
  (asComparable el = None ->
   Enqueue E typeName asComparable el q =
     (q, Panic ("Element enqueued to PQueue does not implement blocks.Comparable interface: "
                  ++ typeName el))) /\
  (forall comp, asComparable el = Some comp ->
   exists h, Enqueue E typeName asComparable el q = ({| pq := h |}, Ok tt) /\
             h ≡ₚ comp :: pq q /\
             PQueue_Len {| pq := h |} = (PQueue_Len q + 1)%Z).
Proof.
  unfold Enqueue. split.
  - intros ->. reflexivity.
  - intros comp ->.
    destruct (heap_Push_total (pq q) comp) as (h & -> & Hperm).
    exists h. split; [reflexivity|]. split; [exact Hperm|].
    unfold PQueue_Len, Len. simpl. rewrite Hperm. simpl. lia.
Qed.

Lemma Enqueue_all_ordered (els : list E) : forall q : PQueue A,
  heapOrdered (pq q) ->
  (forall el, el ∈ els -> is_Some (asComparable el)) ->
  exists q', Enqueue_all E typeName asComparable els q = (q', Ok tt) /\
             heapOrdered (pq q') /\
             pq q' ≡ₚ omap asComparable els ++ pq q.
Proof.
  induction els as [|el els IH]; intros q Hord Hall.
  - exists q. split; [reflexivity|]. split; [exact Hord|reflexivity].
  - destruct (Hall el ltac:(left)) as [c Hc].
    cbn [Enqueue_all]. unfold Enqueue. rewrite Hc.
    destruct (heap_Push_ordered (pq q) c Hord) as (h & -> & Hordh & Hperm).
    destruct (IH {| pq := h |} Hordh) as (q' & Hq' & Hord' & Hperm').
    { intros el' Hel'. apply Hall. now right. }
    exists q'. split; [exact Hq'|]. split; [exact Hord'|].
    rewrite Hperm'. cbn [omap list_omap pq]. rewrite Hc. rewrite Hperm.
    cbn [pq]. symmetry. apply Permutation_middle.
Qed.

(** C4.  After any non-empty sequence of [Enqueue] calls on a new queue,
    with elements that implement [Comparable], [Dequeue] returns one of
    the enqueued elements; its comparison key is not larger than the key
    of any enqueued element, and its [InitTime] is not larger than the
    [InitTime] of any enqueued element with the same key.  The queue
    keeps the other elements, ordered as a heap, so that the same holds
    of the next [Dequeue]. *)
Theorem Dequeue_returns_minimum (els : list E) :
  els <> [] ->
  (forall el, el ∈ els ->
     exists c, asComparable el = Some c /\ asReqInterface c = Some el) ->
  exists q el q' c,
    Enqueue_all E typeName asComparable els NewPQueue = (q, Ok tt) /\
    Dequeue E asReqInterface q = Ok (el, q') /\
    el ∈ els /\ asComparable el = Some c /\
    (forall el' c', el' ∈ els -> asComparable el' = Some c' ->
       GetCmpVal c <= GetCmpVal c' /\
       (GetCmpVal c' == GetCmpVal c -> GetInitTime c <= GetInitTime c')) /\
    c :: pq q' ≡ₚ omap asComparable els /\
    heapOrdered (pq q').
Proof.
  intros Hne Hall.
  destruct (Enqueue_all_ordered els NewPQueue heapOrdered_nil) as (q & Hq & Hord & Hperm).
  { intros el Hel. destruct (Hall el Hel) as (c & Hc & _). eauto. }
  cbn [pq NewPQueue] in Hperm. rewrite app_nil_r in Hperm.
  assert (exists r, pq q !! 0%nat = Some r) as [r Hr].
  { apply lookup_lt_is_Some_2. rewrite Hperm.
    destruct els as [|el els]; [congruence|].
    destruct (Hall el ltac:(left)) as (c & Hc & _).
    cbn [omap list_omap]. rewrite Hc. simpl. lia. }
  assert (r ∈ omap asComparable els) as Hin.
  { rewrite <- Hperm. apply list_elem_of_lookup. eauto. }
  apply list_elem_of_omap in Hin as (el & Hel & Helr).
  destruct (Hall el Hel) as (c & Hc & Hback). assert (c = r) as -> by congruence.
  destruct (heap_Pop_ordered (pq q) r Hord Hr) as (h' & Hpop & Hord' & Hperm').
  exists q, el, {| pq := h' |}, r.
  split; [exact Hq|]. split.
  { unfold Dequeue. rewrite Hpop, Hback. reflexivity. }
  split; [exact Hel|]. split; [exact Helr|].
  split; [|split; [cbn [pq]; rewrite Hperm'; exact Hperm | exact Hord']].
  intros el' c' Hel' Hc'.
  assert (c' ∈ pq q) as Hin'.
  { rewrite Hperm. apply list_elem_of_omap. eauto. }
  apply list_elem_of_lookup in Hin' as [k Hk].
  pose proof (root_minimal (pq q) r Hord Hr k c' Hk) as Hle.
  unfold lex_le in Hle. split; [lra|]. intros Heq. lra.
Qed.

End Dynamic.
End HeapProofs.

(** ** Time sharing *)

Section TSScenario.

(** C3.  A TS processor with quantum 10 and context cost 1 whose input
    queue holds one request of service time 25, and to which nothing else
    arrives, reads the request three times, waits 11, 11 and 6, writes it
    back to its input queue twice (with 15 and then 5 left) and hands it to
    the drain at a time equal to the time of the first read plus 28; it
    then stays suspended on its empty queue, however long the loop is let
    run. *)
Theorem TS_quantum10_ctx1_service25 (t0 init : Q) (id : Z) (out : Queue.Queue) (k : nat) :
  let r25 := PlainReq (mkRequest init 25 25) in
  let r15 := PlainReq (mkRequest init 15 25) in
  let r5 := PlainReq (mkRequest init 5 25) in
  let w0 := {| now := t0; inQueue := Queue.mkQueue [r25] id; outQueue := out; trace := [] |} in
  exists w t_end,
    TSProcessor.Run (TSProcessor.NewTSProcessor 10 1) (4 + k) w0 = Blocked w /\
    trace w = [EvRead r25; EvWait 11; EvSub 10; EvWriteIn r15;
               EvRead r15; EvWait 11; EvSub 10; EvWriteIn r5;
               EvRead r5; EvWait 6; EvTerminate t_end r5] /\
    t_end == t0 + 28 /\
    now w = t_end /\
    elements (inQueue w) = [] /\
    count_events is_read (trace w) = 3%nat /\
    count_events is_write_in (trace w) = 2%nat /\
    count_events is_terminate (trace w) = 1%nat.
Proof.
  intros r25 r15 r5 w0.
  assert (TSProcessor.Run (TSProcessor.NewTSProcessor 10 1) (4 + k) w0 =
          Blocked {| now := t0 + (10 + 1) + (10 + 1) + (5 + 1);
                     inQueue := Queue.mkQueue [] id; outQueue := out;
                     trace := [EvRead r25; EvWait 11; EvSub 10; EvWriteIn r15;
               EvRead r15; EvWait 11; EvSub 10; EvWriteIn r5;
               EvRead r5; EvWait 6; EvTerminate (t0 + (10 + 1) + (10 + 1) + (5 + 1)) r5] |}) as HR.
  { vm_compute. reflexivity. }
  eexists. exists (t0 + (10 + 1) + (10 + 1) + (5 + 1)).
  split; [exact HR|]. cbn [trace now inQueue].
  split; [reflexivity|].
  split; [ring|].
  split; [reflexivity|].
  split; [reflexivity|].
  split; [vm_compute; reflexivity|].
  split; vm_compute; reflexivity.
Qed.
End TSScenario.

Section TSvsSRPT.
Context {Qu : Type} `{QueueInterface Qu}.

Lemma loop_ext (b1 b2 : Act Qu unit) :
  (forall w, b1 w = b2 w) -> forall fuel w, loop b1 fuel w = loop b2 fuel w.
Proof.
  intros Hb fuel. induction fuel as [|fuel IH]; intros w; [reflexivity|].
  cbn [loop]. unfold bind. rewrite Hb.
  destruct (b2 w) as [a w'|w'|msg]; [apply IH | reflexivity | reflexivity].
Qed.

Lemma SrptTS_body_is_TS_body (p : SrptTSProcessor.t) (w : World Qu) :
  SrptTSProcessor.body p w =
  TSProcessor.body (TSProcessor.NewTSProcessor (SrptTSProcessor.quantum p)
                                               (SrptTSProcessor.ctxCost p)) w.
Proof. reflexivity. Qed.

(** C7.  On every queue implementation and from every state of the
    clock, the queues and the record of events, [SrptTSProcessor.Run] with
    a given quantum and context cost does what [TSProcessor.Run] does with
    the same quantum and context cost: the same outcome, hence the same
    reads, waits, subtractions, writes and terminations, after every
    number of rounds.  What tells the two policies apart is the queue
    that the processor is given. *)
Theorem SrptTS_Run_is_TS_Run (p : SrptTSProcessor.t) (fuel : nat) (w : World Qu) :
  SrptTSProcessor.Run p fuel w =
  TSProcessor.Run (TSProcessor.NewTSProcessor (SrptTSProcessor.quantum p)
                                              (SrptTSProcessor.ctxCost p)) fuel w.
Proof.
  unfold SrptTSProcessor.Run, TSProcessor.Run.
  apply loop_ext. intros w'. apply SrptTS_body_is_TS_body.
Qed.
End TSvsSRPT.

(** ** The bounded processors *)

Section Bounded.

Lemma ReadInQueue_FIFO (w : World Queue.Queue) (req : ReqInterface) (rest : list ReqInterface) :
  Queue.l (inQueue w) = req :: rest ->
  ReadInQueue w =
    Ret req {| now := now w;
               inQueue := Queue.mkQueue rest (Queue.id (inQueue w));
               outQueue := outQueue w;
               trace := trace w ++ [EvRead req] |}.
Proof.
  intros Hq. unfold ReadInQueue. cbn [Len Dequeue Queue_QueueInterface].
  unfold Queue.Len, Queue.Dequeue. rewrite Hq. reflexivity.
Qed.

Lemma waits_app (t1 t2 : list Event) : waits (t1 ++ t2) = waits t1 ++ waits t2.
Proof. unfold waits. apply omap_app. Qed.

Lemma BoundedProcessor_body_FIFO (p : BoundedProcessor.t) (factor : Q)
    (w : World Queue.Queue) (req : ReqInterface) (rest : list ReqInterface) :
  Queue.l (inQueue w) = req :: rest ->
  let f := match req with
           | ColoredReq _ color => if (color =? 1)%Z then 2 else 1
           | _ => factor
           end in
  exists w', BoundedProcessor.body p factor w = Ret f w' /\
             waits (trace w') = waits (trace w) ++ [f * RI_GetServiceTime req] /\
             now w' = now w + f * RI_GetServiceTime req.
Proof.
  intros Hq f. unfold BoundedProcessor.body.
  unfold bind at 1. rewrite (ReadInQueue_FIFO w req rest Hq).
  fold f. unfold bind, Wait, GetOutQueueLen, WriteOutQueue, TerminateReq, ret, record.
  cbn [now inQueue outQueue trace Len Enqueue Queue_QueueInterface].
  destruct (Queue.Len (outQueue w) <? BoundedProcessor.bufSize p)%Z;
    (eexists; split; [reflexivity|]; cbn [now trace]; split; [|reflexivity];
     rewrite !waits_app; cbn; rewrite !app_nil_r; reflexivity).
Qed.

Lemma BoundedProcessor2_body_FIFO (p : BoundedProcessor2.t) (factor : Q)
    (w : World Queue.Queue) (req : ReqInterface) (rest : list ReqInterface) :
  Queue.l (inQueue w) = req :: rest ->
  let f := match req with
           | ColoredReq _ color => if (color =? 0)%Z then 2 else 1
           | _ => factor
           end in
  exists w', BoundedProcessor2.body p factor w = Ret f w' /\
             waits (trace w') = waits (trace w) ++ [f * RI_GetServiceTime req] /\
             now w' = now w + f * RI_GetServiceTime req.
Proof.
  intros Hq f. unfold BoundedProcessor2.body.
  unfold bind at 1. rewrite (ReadInQueue_FIFO w req rest Hq).
  fold f. unfold bind, Wait, TerminateReq, ret, record.
  cbn [now inQueue outQueue trace].
  eexists; split; [reflexivity|]; cbn [now trace]; split; [|reflexivity].
  rewrite !waits_app; cbn; rewrite !app_nil_r; reflexivity.
Qed.

(** C10.  In [BoundedProcessor.Run] and [BoundedProcessor2.Run] the
    multiplier [factor] is assigned when the request read is a
    [ColoredReq] (2 or 1 by its color) and only then: for a request that
    is not a [ColoredReq] the round waits [factor * service_time] with the
    [factor] it was entered with and leaves it as it was; a first round on
    such a request, entered with the zero value of [factor], waits
    [0 * service_time] and does not move the clock. *)
Theorem Bounded_factor_left_over (p : BoundedProcessor.t) (p2 : BoundedProcessor2.t)
    (factor : Q) (w : World Queue.Queue) (req : ReqInterface) (rest : list ReqInterface) :
  Queue.l (inQueue w) = req :: rest ->
  (forall r color, req = ColoredReq r color ->
     (exists w', BoundedProcessor.body p factor w = Ret (if (color =? 1)%Z then 2 else 1) w') /\
     (exists w', BoundedProcessor2.body p2 factor w = Ret (if (color =? 0)%Z then 2 else 1) w')) /\
  (is_colored req = false ->
     (exists w', BoundedProcessor.body p factor w = Ret factor w' /\
                 waits (trace w') = waits (trace w) ++ [factor * RI_GetServiceTime req]) /\
     (exists w', BoundedProcessor2.body p2 factor w = Ret factor w' /\
                 waits (trace w') = waits (trace w) ++ [factor * RI_GetServiceTime req]) /\
     (exists f w', BoundedProcessor.Run p 1 w = Ret f w' /\
                   waits (trace w') = waits (trace w) ++ [0 * RI_GetServiceTime req] /\
                   now w' == now w) /\
     (exists f w', BoundedProcessor2.Run p2 1 w = Ret f w' /\
                   waits (trace w') = waits (trace w) ++ [0 * RI_GetServiceTime req] /\
                   now w' == now w)).
Proof.
  intros Hq. split.
  - intros r color ->.
    destruct (BoundedProcessor_body_FIFO p factor w _ rest Hq) as (w1 & Hb1 & _).
    destruct (BoundedProcessor2_body_FIFO p2 factor w _ rest Hq) as (w2 & Hb2 & _).
    eauto.
  - intros Hc. split; [|split; [|split]].
    + destruct (BoundedProcessor_body_FIFO p factor w req rest Hq) as (w' & Hb & Hw & _).
      destruct req; try discriminate; eauto.
    + destruct (BoundedProcessor2_body_FIFO p2 factor w req rest Hq) as (w' & Hb & Hw & _).
      destruct req; try discriminate; eauto.
    + destruct (BoundedProcessor_body_FIFO p 0 w req rest Hq) as (w' & Hb & Hw & Hn).
      unfold BoundedProcessor.Run. cbn [loop_with]. unfold bind. rewrite Hb.
      destruct req; try discriminate;
        (do 2 eexists; split; [reflexivity|]; split; [exact Hw|]; rewrite Hn; ring).
    + destruct (BoundedProcessor2_body_FIFO p2 0 w req rest Hq) as (w' & Hb & Hw & Hn).
      unfold BoundedProcessor2.Run. cbn [loop_with]. unfold bind. rewrite Hb.
      destruct req; try discriminate;
        (do 2 eexists; split; [reflexivity|]; split; [exact Hw|]; rewrite Hn; ring).
Qed.

Lemma Bounded_factor_left_over_witness :
  let plain := PlainReq (mkRequest 0 10 10) in
  let w := {| now := 0; inQueue := Queue.mkQueue [plain] 0;
              outQueue := Queue.mkQueue [] 1; trace := [] |} in
  let p := BoundedProcessor.NewBoundedProcessor 1 in
  Queue.l (inQueue w) = [plain] /\
  (exists w', BoundedProcessor.body p 2 w = Ret 2 w' /\
              waits (trace w') = waits (trace w) ++ [2 * RI_GetServiceTime plain]).
Proof.
  intros plain w p. split; [reflexivity|].
  exact (proj1 (proj2 (Bounded_factor_left_over p (BoundedProcessor2.mk 0) 2 w plain []
                         eq_refl) eq_refl)).
Defined.

(** A plain request after a colored one is served with the multiplier of
    the colored one, and a plain request served first with a wait of 0. *)
Example Bounded_stale_then_zero :
  let colored := ColoredReq (mkRequest 0 10 10) 1 in
  let plain := PlainReq (mkRequest 0 10 10) in
  let p := BoundedProcessor.NewBoundedProcessor 1 in
  let world l := {| now := 0; inQueue := Queue.mkQueue l 0;
                    outQueue := Queue.mkQueue [] 1; trace := [] |} in
  (exists f w', BoundedProcessor.Run p 2 (world [colored; plain]) = Ret f w' /\
                waits (trace w') = [20; 20]) /\
  (exists f w', BoundedProcessor.Run p 2 (world [plain; colored]) = Ret f w' /\
                waits (trace w') = [0; 20]).
Proof. split; do 2 eexists; split; vm_compute; reflexivity. Qed.

End Bounded.

(** ** The run of the PS processor *)

Section PSRun.
Import PSProcessor.

Lemma base_SubServiceTime (diff : Q) (x : ReqInterface) :
  base (RI_SubServiceTime diff x) = SubServiceTime diff (base x).
Proof. destruct x; reflexivity. Qed.

Lemma getMinService_from_spec (l : list ReqInterface) :
  forall (pre : list ReqInterface) (minS : Q) (minI i : nat) (xm : ReqInterface),
    (pre ++ l) !! minI = Some xm -> remaining xm = minS ->
    (forall y, y ∈ pre -> minS <= remaining y) ->
    getMinService_from l (length pre) minS minI = Some i ->
    exists x, (pre ++ l) !! i = Some x /\ forall y, y ∈ pre ++ l -> remaining x <= remaining y.
Proof.
  induction l as [|a l IH]; intros pre minS minI i xm Hxm HminS Hpre Hget.
  - cbn in Hget. simplify_eq. exists xm. split; [exact Hxm|].
    rewrite app_nil_r. exact Hpre.
  - cbn [getMinService_from] in Hget.
    destruct (asRequest a) as [r|] eqn:Ha; [|discriminate]. cbn [mbind option_bind] in Hget.
    assert (remaining a = ServiceTime r) as Hra by (unfold remaining; destruct a; cbn in *; congruence).
    replace (pre ++ a :: l) with ((pre ++ [a]) ++ l) in * by (rewrite <- app_assoc; reflexivity).
    replace (S (length pre)) with (length (pre ++ [a])) in Hget by (rewrite length_app; simpl; lia).
    destruct (Qltb (ServiceTime r) minS) eqn:Hlt.
    + apply Qltb_iff in Hlt.
      apply (IH (pre ++ [a]) (ServiceTime r) (length pre) i a); [| exact Hra | | exact Hget].
      * rewrite <- app_assoc. rewrite lookup_app_r by lia.
        replace (length pre - length pre)%nat with 0%nat by lia. reflexivity.
      * intros y Hy. apply elem_of_app in Hy as [Hy|Hy].
        -- specialize (Hpre y Hy). lra.
        -- apply list_elem_of_singleton in Hy as ->. rewrite Hra. lra.
    + apply Qltb_false_iff in Hlt.
      apply (IH (pre ++ [a]) minS minI i xm); [exact Hxm | exact HminS | | exact Hget].
      intros y Hy. apply elem_of_app in Hy as [Hy|Hy].
      * apply Hpre, Hy.
      * apply list_elem_of_singleton in Hy as ->. rewrite Hra. exact Hlt.
Qed.

(** [getMinService] returns the position of a request with the least
    remaining service time. *)
Lemma getMinService_spec (p : t) (i : nat) :
  getMinService p = Some i ->
  exists x, reqList p !! i = Some x /\ forall y, y ∈ reqList p -> remaining x <= remaining y.
Proof.
  unfold getMinService. intros Hget.
  destruct (reqList p) as [|front l] eqn:Hl; [discriminate|].
  cbn [head mbind option_bind] in Hget.
  destruct (asRequest front) as [r|] eqn:Hf; [|discriminate].
  cbn [mbind option_bind] in Hget.
  apply (getMinService_from_spec (front :: l) [] (ServiceTime r) 0 i front); [reflexivity | | | exact Hget].
  - unfold remaining; destruct front; cbn in *; congruence.
  - intros y Hy. apply elem_of_nil in Hy. contradiction.
Qed.

Lemma iteration_inv (tm : Q) (intr : bool) (newReq : option ReqInterface) (s s' : RunState) :
  iteration tm intr newReq s = Some s' ->
  exists p1 log,
    Run_account tm intr newReq (updateServiceTimes tm (proc s)) (terminated s) = Some (p1, log) /\
    Run_rearm tm p1 log = Some s'.
Proof.
  unfold iteration. cbv zeta.
  destruct (Run_account _ _ _ _ _) as [[p1 log]|]; [|discriminate].
  cbn [mbind option_bind fst snd]. eauto.
Qed.

Lemma Run_account_timer (tm : Q) (newReq : option ReqInterface) (p p1 : PSProcessor.t)
    (log log1 : list (Q * ReqInterface)) :
  Run_account tm true newReq p log = Some (p1, log1) ->
  exists i req,
    curr p = Some i /\ reqList p !! i = Some req /\
    log1 = log ++ [(tm, req)] /\
    reqList p1 = delete i (reqList p) /\
    count p1 = (count p - 1)%Z /\
    workerCount p1 = workerCount p /\ prevTime p1 = prevTime p.
Proof.
  unfold Run_account.
  destruct (curr p) as [i|]; [|discriminate]. cbn [mbind option_bind].
  destruct (reqList p !! i) as [req|] eqn:Hreq; [|discriminate]. cbn [mbind option_bind].
  intros [= <- <-]. exists i, req. repeat split; assumption.
Qed.

Lemma Run_account_arrival (tm : Q) (newReq : option ReqInterface) (p p1 : PSProcessor.t)
    (log log1 : list (Q * ReqInterface)) :
  Run_account tm false newReq p log = Some (p1, log1) ->
  exists r,
    newReq = Some r /\ log1 = log /\
    reqList p1 = reqList p ++ [r] /\
    count p1 = (count p + 1)%Z /\
    workerCount p1 = workerCount p /\ prevTime p1 = prevTime p.
Proof.
  unfold Run_account. destruct newReq as [r|]; [|discriminate]. cbn [mbind option_bind].
  intros [= <- <-]. exists r. repeat split.
Qed.

Lemma Run_rearm_inv (now : Q) (p : PSProcessor.t) (log : list (Q * ReqInterface)) (s' : RunState) :
  Run_rearm now p log = Some s' ->
  clock s' = now /\ terminated s' = log /\
  workerCount (proc s') = workerCount p /\ count (proc s') = count p /\
  reqList (proc s') = reqList p /\ prevTime (proc s') = prevTime p /\
  getFactor (proc s') = getFactor p /\
  ((0 < count p)%Z ->
   exists i x, curr (proc s') = Some i /\ reqList p !! i = Some x /\
               (forall y, y ∈ reqList p -> remaining x <= remaining y) /\
               d s' = remaining x / getFactor p) /\
  ((count p <= 0)%Z -> d s' = -1).
Proof.
  unfold Run_rearm.
  destruct (Z.gtb_spec (count p) 0) as [Hpos|Hzero].
  - destruct (getMinService p) as [i|] eqn:Hmin; [|discriminate]. cbn [mbind option_bind].
    destruct (getMinService_spec p i Hmin) as (x & Hx & Hleast).
    rewrite Hx. cbn [mbind option_bind]. intros [= <-]. cbn.
    repeat split; try lia.
    intros _. exists i, x. repeat split; assumption.
  - intros [= <-]. cbn. repeat split; try lia.
Qed.

Lemma getFactor_one (p : PSProcessor.t) :
  (0 < count p <= workerCount p)%Z -> getFactor p == 1.
Proof.
  intros [Hc Hw]. unfold getFactor.
  destruct (Z.gtb_spec (workerCount p) (count p)) as [Hgt|Hle]; [reflexivity|].
  assert (workerCount p = count p) as -> by lia. now apply float64_self_div.
Qed.

Lemma getFactor_updateServiceTimes (now : Q) (p : PSProcessor.t) :
  getFactor (updateServiceTimes now p) = getFactor p.
Proof. reflexivity. Qed.

Lemma exact_inv_start (cores : Z) : exact_inv (start cores).
Proof.
  unfold exact_inv, start. cbn. repeat split.
  - left. reflexivity.
  - intros x Hx. apply elem_of_nil in Hx. contradiction.
  - intros tm x Hx. apply elem_of_nil in Hx. contradiction.
  - intros Hc. lia.
Qed.

Lemma exact_inv_step (s s' : RunState) (tm : Q) (intr : bool) (newReq : option ReqInterface) :
  exact_inv s ->
  WaitInterruptible (clock s) (d s) tm intr newReq ->
  (forall r, newReq = Some r -> fresh_at tm r) ->
  iteration tm intr newReq s = Some s' ->
  within_workers s' ->
  exact_inv s'.
Proof.
  intros (Hcount & Hprev & Hfac & Hlist & Hterm & Hcurr & Hidle) Hwait Hadm Hit Hwith.
  apply iteration_inv in Hit as (p1 & log & Hacc & Hrearm).
  apply Run_rearm_inv in Hrearm
    as (Hclock & Hlog & Hw' & Hc' & Hl' & Hp' & Hf' & Hd'pos & Hd'zero).
  unfold within_workers in Hwith. rewrite Hw', Hc' in Hwith.
  set (diff := (tm - prevTime (proc s)) * getFactor (proc s)) in *.
  assert (reqList (updateServiceTimes tm (proc s)) = map (RI_SubServiceTime diff) (reqList (proc s)))
    as Hupd by reflexivity.
  assert (forall x, x ∈ reqList (proc s) -> diff == tm - clock s) as Hdiff.
  { intros x Hx. subst diff. rewrite Hprev.
    destruct Hfac as [Hnil|Hone]; [rewrite Hnil in Hx; apply elem_of_nil in Hx; contradiction|].
    rewrite Hone. ring. }
  assert (forall x, x ∈ reqList (updateServiceTimes tm (proc s)) ->
            InitTime (base x) + OriginalServiceTime (base x) == tm + remaining x) as Hlist1.
  { intros x Hx. rewrite Hupd in Hx. apply list_elem_of_fmap in Hx as (x0 & -> & Hx0).
    unfold remaining. rewrite base_SubServiceTime. cbn.
    specialize (Hlist x0 Hx0). specialize (Hdiff x0 Hx0). unfold remaining in Hlist. lra. }
  assert (length (reqList (updateServiceTimes tm (proc s))) = length (reqList (proc s))) as Hlen1.
  { rewrite Hupd. apply length_map. }
  assert (count p1 = Z.of_nat (length (reqList p1)) /\
          (forall x, x ∈ reqList p1 ->
             InitTime (base x) + OriginalServiceTime (base x) == tm + remaining x) /\
          (forall tm' x, (tm', x) ∈ log ->
             tm' == InitTime (base x) + OriginalServiceTime (base x)) /\
          prevTime p1 = tm) as (Hcount1 & Hlistp1 & Hlog1 & Hprev1).
  { destruct Hwait as [tm Hd Ht | tm r Hge Hle].
    - (* the timer expired: the request under [curr] is done *)
      apply Run_account_timer in Hacc as (i & req & Hci & Hreq & -> & Hl1 & Hc1 & Hw1 & Hp1).
      apply lookup_lt_Some in Hreq as Hi. rewrite Hlen1 in Hi.
      change (count (updateServiceTimes tm (proc s))) with (count (proc s)) in Hc1.
      change (curr (updateServiceTimes tm (proc s))) with (curr (proc s)) in Hci.
      assert (0 < count (proc s))%Z as Hpos by lia.
      destruct (Hcurr Hpos) as (i0 & x0 & Hci0 & Hx0 & Hdx0).
      assert (i0 = i) as -> by congruence.
      split; [|split; [|split]].
      + rewrite Hc1, Hl1. rewrite length_delete by eauto. rewrite Hlen1. lia.
      + intros x Hx. rewrite Hl1 in Hx. apply Hlist1.
        rewrite (delete_Permutation _ i req Hreq). right. exact Hx.
      + intros tm' x Hx. apply elem_of_app in Hx as [Hx|Hx]; [apply Hterm, Hx|].
        apply list_elem_of_singleton in Hx. injection Hx as -> ->.
        assert (req ∈ reqList (updateServiceTimes tm (proc s))) as Hin
          by (apply list_elem_of_lookup; eauto).
        specialize (Hlist1 req Hin).
        rewrite Hupd, list_lookup_fmap, Hx0 in Hreq. cbn in Hreq. injection Hreq as <-.
        unfold remaining in *. rewrite base_SubServiceTime in *. cbn in *.
        assert (x0 ∈ reqList (proc s)) as Hin0 by (apply list_elem_of_lookup; eauto).
        specialize (Hdiff x0 Hin0). lra.
      + rewrite Hp1. reflexivity.
    - (* a request arrived *)
      apply Run_account_arrival in Hacc as (r' & Hr' & -> & Hl1 & Hc1 & Hw1 & Hp1).
      injection Hr' as <-.
      change (count (updateServiceTimes tm (proc s))) with (count (proc s)) in Hc1.
      split; [|split; [|split]].
      + rewrite Hc1, Hl1. rewrite length_app, Hlen1. cbn [length]. lia.
      + intros x Hx. rewrite Hl1 in Hx. apply elem_of_app in Hx as [Hx|Hx]; [apply Hlist1, Hx|].
        apply list_elem_of_singleton in Hx as ->.
        destruct (Hadm r eq_refl) as [Hinit Hsvc]. unfold remaining. lra.
      + exact Hterm.
      + rewrite Hp1. reflexivity. }
  unfold exact_inv. cbv zeta. rewrite Hc', Hl', Hp', Hclock, Hlog, Hf'.
  split; [exact Hcount1|]. split; [exact Hprev1|].
  assert ((0 < count p1)%Z -> getFactor p1 == 1) as Hone.
  { intros Hpos. apply getFactor_one. lia. }
  split; [|split; [exact Hlistp1|split; [exact Hlog1|split]]].
  - destruct (reqList p1) as [|x l] eqn:El; [left; reflexivity|].
    right. apply Hone. rewrite Hcount1. cbn. lia.
  - intros Hpos. destruct (Hd'pos Hpos) as (i & x & Hci & Hx & _ & Hd).
    exists i, x. split; [exact Hci|]. split; [exact Hx|].
    rewrite Hd, (Hone Hpos). field.
  - intros Hz. rewrite (Hd'zero Hz). reflexivity.
Qed.

Lemma exact_inv_Run (cores : Z) (s : RunState) :
  Run fresh_at within_workers cores s -> exact_inv s.
Proof.
  induction 1 as [|s s' tm intr newReq _ IH Hwait Hadm Hit Hinv].
  - apply exact_inv_start.
  - exact (exact_inv_step s s' tm intr newReq IH Hwait Hadm Hit Hinv).
Qed.

Lemma Run_run_resume (Adm : Q -> ReqInterface -> Prop) (Inv : RunState -> Prop)
    (cores : Z) (s : RunState) (tm : Q) (intr : bool) (newReq : option ReqInterface) :
  Run Adm Inv cores s ->
  WaitInterruptible (clock s) (d s) tm intr newReq ->
  (forall r, newReq = Some r -> Adm tm r) ->
  is_Some (iteration tm intr newReq s) ->
  Inv (run_resume tm intr newReq s) ->
  Run Adm Inv cores (run_resume tm intr newReq s).
Proof.
  intros HRun Hwait HAdm [s' Hs'] HInv. unfold run_resume in *. rewrite Hs' in *.
  exact (Run_resume Adm Inv cores s s' tm intr newReq HRun Hwait HAdm Hs' HInv).
Qed.

Lemma example_run_Run (Adm : Q -> ReqInterface -> Prop) (Inv : RunState -> Prop) :
  (forall tm s, 0 <= s -> Adm tm (SimpleReqCreator_NewRequest tm s)) ->
  (forall s, within_workers s -> Inv s) ->
  Run Adm Inv 2 example_run.
Proof.
  intros HAdm HInv. unfold example_run.
  repeat (apply Run_run_resume;
          [ | | first [ intros r [= <-]; apply HAdm; decide_Q | intros r [=] ]
            | vm_compute; eexists; reflexivity
            | apply HInv; unfold within_workers; vm_compute; discriminate ]).
  - apply Run_start.
  - apply WI_arrival; [decide_Q | left; decide_Q].
  - apply WI_arrival; [decide_Q | right; decide_Q].
  - apply WI_timer; decide_Q.
  - apply WI_timer; decide_Q.
Qed.

Lemma getFactor_pos (p : PSProcessor.t) : (0 < workerCount p)%Z -> 0 < getFactor p.
Proof.
  intros Hw. unfold getFactor.
  destruct (Z.gtb_spec (workerCount p) (count p)) as [Hgt|Hle]; [reflexivity|].
  apply Qlt_shift_div_l; [apply float64_pos; lia|].
  rewrite Qmult_0_l. apply float64_pos, Hw.
Qed.

Lemma bounds_inv_start (cores : Z) : bounds_inv cores (start cores).
Proof.
  unfold bounds_inv, start. cbn.
  split; [reflexivity|]. split; [reflexivity|]. split; [reflexivity|].
  split; [intros x Hx; apply elem_of_nil in Hx; contradiction|].
  split; [intros tm x Hx; apply elem_of_nil in Hx; contradiction|].
  split; [intros Hc; lia | intros _; reflexivity].
Qed.

Lemma bounds_inv_step (cores : Z) (s s' : RunState) (tm : Q) (intr : bool)
    (newReq : option ReqInterface) :
  (0 < cores)%Z ->
  bounds_inv cores s ->
  WaitInterruptible (clock s) (d s) tm intr newReq ->
  (forall r, newReq = Some r -> bounded r) ->
  iteration tm intr newReq s = Some s' ->
  bounds_inv cores s'.
Proof.
  intros Hcores (Hw & Hcount & Hprev & Hlist & Hterm & Hbusy & Hidle) Hwait Hadm Hit.
  apply iteration_inv in Hit as (p1 & log & Hacc & Hrearm).
  apply Run_rearm_inv in Hrearm
    as (Hclock & Hlog & Hw' & Hc' & Hl' & Hp' & Hf' & Hd'pos & Hd'zero).
  pose proof (getFactor_pos (proc s) ltac:(lia)) as Hf.
  set (f := getFactor (proc s)) in *.
  set (diff := (tm - prevTime (proc s)) * f).
  assert (reqList (updateServiceTimes tm (proc s)) = map (RI_SubServiceTime diff) (reqList (proc s)))
    as Hupd by reflexivity.
  assert (length (reqList (updateServiceTimes tm (proc s))) = length (reqList (proc s))) as Hlen1.
  { rewrite Hupd. apply length_map. }
  (* the elapsed time is within the timer *)
  assert (forall x, x ∈ reqList (proc s) -> 0 <= diff <= remaining x) as Hdiff.
  { intros x Hx.
    assert (0 < count (proc s))%Z as Hpos.
    { rewrite Hcount. destruct (reqList (proc s)); [apply elem_of_nil in Hx; contradiction|cbn; lia]. }
    destruct (Hbusy Hpos) as [Hd Hle]. specialize (Hle x Hx).
    assert (0 <= tm - clock s <= d s) as [He0 He1].
    { destruct Hwait as [tm Hd0 Ht | tm r Hge Hor]; [lra|].
      destruct Hor as [Hneg|Hin]; lra. }
    subst diff. rewrite Hprev. split.
    - apply Qmult_le_0_compat; lra.
    - apply Qle_trans with (d s * f); [|exact Hle].
      apply Qmult_le_compat_r; lra. }
  assert (forall x, x ∈ reqList (updateServiceTimes tm (proc s)) -> bounded x) as Hlist1.
  { intros x Hx. rewrite Hupd in Hx. apply list_elem_of_fmap in Hx as (x0 & -> & Hx0).
    unfold bounded, remaining. rewrite base_SubServiceTime. cbn.
    destruct (Hlist x0 Hx0) as [H0 H1]. destruct (Hdiff x0 Hx0) as [H2 H3].
    unfold remaining in *. lra. }
  assert (workerCount p1 = cores /\
          count p1 = Z.of_nat (length (reqList p1)) /\
          (forall x, x ∈ reqList p1 -> bounded x) /\
          (forall tm' x, (tm', x) ∈ log -> bounded x) /\
          prevTime p1 = tm) as (Hw1 & Hcount1 & Hlistp1 & Hlog1 & Hprev1).
  { destruct intr.
    - apply Run_account_timer in Hacc as (i & req & Hci & Hreq & -> & Hl1 & Hc1 & Hw1 & Hp1).
      change (count (updateServiceTimes tm (proc s))) with (count (proc s)) in Hc1.
      apply lookup_lt_Some in Hreq as Hi. rewrite Hlen1 in Hi.
      split; [rewrite Hw1; exact Hw|]. split; [|split; [|split]].
      + rewrite Hc1, Hl1. rewrite length_delete by eauto. rewrite Hlen1. lia.
      + intros x Hx. rewrite Hl1 in Hx. apply Hlist1.
        rewrite (delete_Permutation _ i req Hreq). right. exact Hx.
      + intros tm' x Hx. apply elem_of_app in Hx as [Hx|Hx]; [exact (Hterm tm' x Hx)|].
        apply list_elem_of_singleton in Hx. injection Hx as -> ->.
        apply Hlist1. apply list_elem_of_lookup. eauto.
      + rewrite Hp1. reflexivity.
    - apply Run_account_arrival in Hacc as (r' & Hr' & -> & Hl1 & Hc1 & Hw1 & Hp1).
      change (count (updateServiceTimes tm (proc s))) with (count (proc s)) in Hc1.
      split; [rewrite Hw1; exact Hw|]. split; [|split; [|split]].
      + rewrite Hc1, Hl1. rewrite length_app, Hlen1. cbn [length]. lia.
      + intros x Hx. rewrite Hl1 in Hx. apply elem_of_app in Hx as [Hx|Hx]; [apply Hlist1, Hx|].
        apply list_elem_of_singleton in Hx as ->. apply Hadm, Hr'.
      + exact Hterm.
      + rewrite Hp1. reflexivity. }
  unfold bounds_inv. cbv zeta. rewrite Hc', Hl', Hp', Hclock, Hlog, Hf', Hw'.
  split; [exact Hw1|]. split; [exact Hcount1|]. split; [exact Hprev1|].
  split; [exact Hlistp1|]. split; [exact Hlog1|]. split.
  - intros Hpos. destruct (Hd'pos Hpos) as (i & x & Hci & Hx & Hleast & Hd).
    pose proof (getFactor_pos p1 ltac:(lia)) as Hf1.
    assert (x ∈ reqList p1) as Hxin by (apply list_elem_of_lookup; eauto).
    destruct (Hlistp1 x Hxin) as [Hx0 _].
    rewrite Hd. split.
    + apply Qle_shift_div_l; [exact Hf1|]. lra.
    + intros y Hy. specialize (Hleast y Hy).
      assert (remaining x / getFactor p1 * getFactor p1 == remaining x) as -> by (field; lra).
      exact Hleast.
  - intros Hz. rewrite (Hd'zero Hz). reflexivity.
Qed.

Lemma bounds_inv_Run (cores : Z) (s : RunState) :
  (0 < cores)%Z ->
  Run (fun _ x => bounded x) (fun _ => True) cores s -> bounds_inv cores s.
Proof.
  intros Hcores. induction 1 as [|s s' tm intr newReq _ IH Hwait Hadm Hit _].
  - apply bounds_inv_start.
  - exact (bounds_inv_step cores s s' tm intr newReq Hcores IH Hwait Hadm Hit).
Qed.

End PSRun.

(** ** The service time of a request stays within its bounds *)

#[export] Instance Queue_QueueLaws : QueueLaws Queue.Queue.
Proof.
  split.
  - intros q q' r. cbn. unfold Queue.Dequeue.
    destruct (Queue.l q) as [|el rest] eqn:Hl; [discriminate|].
    intros [= <- <-]. cbn. reflexivity.
  - intros q q' r. cbn. intros [= <-]. cbn. symmetry. apply Permutation_cons_append.
Qed.

Section PopPerm.
Context {A : Type} `{Comparable A}.
Lemma heap_Pop_perm (h h' : list A) (x : A) :
  PQ.heap_Pop h = Some (x, h') -> x :: h' ≡ₚ h.
Proof.
  intros Hpop.
  destruct h as [|r h0] eqn:Hh; [discriminate|].
  destruct (heap_Pop_root (r :: h0) r eq_refl) as (h'' & Hpop' & Hperm).
  rewrite Hpop in Hpop'. injection Hpop' as -> ->. exact Hperm.
Qed.
End PopPerm.

#[export] Instance PQueue_QueueLaws : QueueLaws (PQ.PQueue ReqInterface).
Proof.
  split.
  - intros q q' r. cbn. unfold PQ.Dequeue.
    destruct (PQ.heap_Pop (PQ.pq q)) as [[x h]|] eqn:Hpop; [|discriminate].
    intros [= <- <-]. cbn. symmetry. apply heap_Pop_perm, Hpop.
  - intros q q' r. cbn.
    unfold PQ.Enqueue.
    destruct (heap_Push_total (PQ.pq q) r) as (h & -> & Hperm).
    intros [= <-]. exact Hperm.
Qed.

Section QueueProcessors.
Context {Qu : Type} `{QueueLaws Qu}.

Lemma ReadInQueue_inv (w w' : World Qu) (r : ReqInterface) :
  ReadInQueue w = Ret r w' ->
  exists q, Dequeue (inQueue w) = Ok (r, q) /\
            w' = {| now := now w; inQueue := q; outQueue := outQueue w;
                    trace := trace w ++ [EvRead r] |}.
Proof.
  unfold ReadInQueue.
  destruct (0 <? Len (inQueue w))%Z; [|discriminate].
  destruct (Dequeue (inQueue w)) as [[r' q]|msg]; [|discriminate].
  intros [= <- <-]. eauto.
Qed.

Lemma bounded_on_base (f : Request -> Request) (x : ReqInterface) :
  0 <= ServiceTime (f (base x)) <= OriginalServiceTime (f (base x)) ->
  bounded (on_base f x).
Proof. unfold bounded, remaining. destruct x; cbn; auto. Qed.

Lemma bounded_world_read (w : World Qu) (r : ReqInterface) (q : Qu) :
  bounded_world w -> Dequeue (inQueue w) = Ok (r, q) ->
  bounded r /\ forall x, x ∈ elements q -> bounded x.
Proof.
  intros [Hq _] Hdq. apply Dequeue_elements in Hdq.
  split; [apply Hq; rewrite Hdq; left|].
  intros x Hx. apply Hq. rewrite Hdq. right. exact Hx.
Qed.

Lemma TS_body_bounded (p : TSProcessor.t) (w w' : World Qu) :
  0 <= TSProcessor.quantum p ->
  bounded_world w -> TSProcessor.body p w = Ret tt w' -> bounded_world w'.
Proof.
  intros Hquantum Hw. unfold TSProcessor.body. unfold bind at 1.
  destruct (ReadInQueue w) as [r w1| |] eqn:Hread; [|discriminate|discriminate].
  apply ReadInQueue_inv in Hread as (q & Hdq & ->).
  destruct (bounded_world_read w r q Hw Hdq) as [Hr Hq].
  destruct Hw as [_ Htr].
  destruct (Qle_bool (RI_GetServiceTime r) (TSProcessor.quantum p)) eqn:Hle.
  - unfold bind, Wait, TerminateReq, record. cbn. intros [= <-]. split; cbn.
    + exact Hq.
    + intros e He. rewrite !elem_of_app in He.
      destruct He as [[[He|He]|He]|He]; [apply Htr, He| | |];
        apply list_elem_of_singleton in He as ->; cbn; auto.
  - assert (TSProcessor.quantum p < RI_GetServiceTime r) as Hgt.
    { apply Qnot_le_lt. intros Hc. apply Qle_bool_iff in Hc. congruence. }
    assert (bounded (RI_SubServiceTime (TSProcessor.quantum p) r)) as Hr'.
    { apply bounded_on_base. cbn. destruct Hr as [Hr0 Hr1].
      unfold RI_GetServiceTime, GetServiceTime, remaining in *. lra. }
    unfold bind, Wait, SubServiceTimeOf, WriteInQueue, record. cbn.
    destruct (Enqueue (RI_SubServiceTime (TSProcessor.quantum p) r) q) as [q'|msg] eqn:Henq;
      [|discriminate].
    intros [= <-]. apply Enqueue_elements in Henq. split; cbn.
    + intros x Hx. rewrite Henq in Hx. apply elem_of_cons in Hx as [->|Hx]; auto.
    + intros e He. rewrite !elem_of_app in He.
      destruct He as [[[[He|He]|He]|He]|He]; [apply Htr, He| | | |];
        apply list_elem_of_singleton in He as ->; cbn; auto.
Qed.

Lemma RTC_body_bounded (p : RTCProcessor.t) (w w' : World Qu) :
  bounded_world w -> RTCProcessor.body p w = Ret tt w' -> bounded_world w'.
Proof.
  intros Hw. unfold RTCProcessor.body. unfold bind at 1.
  destruct (ReadInQueue w) as [r w1| |] eqn:Hread; [|discriminate|discriminate].
  apply ReadInQueue_inv in Hread as (q & Hdq & ->).
  destruct (bounded_world_read w r q Hw Hdq) as [Hr Hq].
  destruct Hw as [_ Htr].
  unfold bind, Wait, GetInQueueLen, TerminateReq, ret, record.
  destruct r; cbn; intros [= <-]; (split; cbn; [exact Hq|]);
    intros e He; rewrite !elem_of_app in He;
    (destruct He as [[[He|He]|He]|He]; [apply Htr, He| | |]);
    apply list_elem_of_singleton in He as ->; cbn; auto.
Qed.

Lemma Reach_bounded (body : Act Qu unit) (w0 w : World Qu) :
  (forall w w', bounded_world w -> body w = Ret tt w' -> bounded_world w') ->
  bounded_world w0 -> Reach body bounded w0 w -> bounded_world w.
Proof.
  intros Hbody Hw0. induction 1 as [|w w' _ IH Hb|w r q _ IH Hr Henq|w r q _ IH Hdq].
  - exact Hw0.
  - exact (Hbody w w' IH Hb).
  - destruct IH as [Hq Htr]. apply Enqueue_elements in Henq. split; cbn; [|exact Htr].
    intros x Hx. rewrite Henq in Hx. apply elem_of_cons in Hx as [->|Hx]; auto.
  - destruct (bounded_world_read w r q IH Hdq) as [_ Hq]. destruct IH as [_ Htr].
    split; cbn; assumption.
Qed.

End QueueProcessors.

Section Bounds.

Lemma newRequest_bounded (now s : Q) (rnd : Z) :
  0 <= s ->
  bounded (SimpleReqCreator_NewRequest now s) /\
  bounded (StealableReqCreator_NewRequest now s) /\
  bounded (MonitorReqCreator_NewRequest now s) /\
  bounded (ColoredReqCreator_NewRequest rnd now s).
Proof. intros Hs. unfold bounded, remaining. cbn. repeat split; lra. Qed.

Lemma Srpt_body_bounded {Qu : Type} `{QueueLaws Qu} (p : SrptTSProcessor.t) (w w' : World Qu) :
  0 <= SrptTSProcessor.quantum p ->
  bounded_world w -> SrptTSProcessor.body p w = Ret tt w' -> bounded_world w'.
Proof.
  intros Hq Hw Hb. rewrite SrptTS_body_is_TS_body in Hb.
  exact (TS_body_bounded (TSProcessor.NewTSProcessor (SrptTSProcessor.quantum p)
           (SrptTSProcessor.ctxCost p)) w w' Hq Hw Hb).
Qed.

(** C5.  A request is created with
    [0 <= service_time <= original_service_time] when its service time is
    not negative.  From then on the bounds hold of every request that waits
    in the input queue, that a processor reads, holds while it waits, writes
    back or hands to the drain: under RTC; under TS and SRPT-TS when the
    quantum is not negative; under PS, with at least one worker and when
    the numbers are computed exactly, of every request in progress at every
    return of [WaitInterruptible] and of every request handed to the drain.
    The code clamps nothing.  Under RTC, TS and SRPT-TS the one subtraction
    is of a quantum below the service time left, which rounding keeps
    within the bounds; under PS the service time left can pass below zero
    by a rounding error on float64 numbers. *)
Theorem service_time_within_bounds :
  (forall (now s : Q) (rnd : Z), 0 <= s ->
     bounded (SimpleReqCreator_NewRequest now s) /\
     bounded (StealableReqCreator_NewRequest now s) /\
     bounded (MonitorReqCreator_NewRequest now s) /\
     bounded (ColoredReqCreator_NewRequest rnd now s)) /\
  (forall (Qu : Type) (HI : QueueInterface Qu) (HL : QueueLaws Qu)
          (p : RTCProcessor.t) (w0 w : World Qu),
     bounded_world w0 -> Reach (RTCProcessor.body p) bounded w0 w -> bounded_world w) /\
  (forall (Qu : Type) (HI : QueueInterface Qu) (HL : QueueLaws Qu)
          (p : TSProcessor.t) (w0 w : World Qu),
     0 <= TSProcessor.quantum p ->
     bounded_world w0 -> Reach (TSProcessor.body p) bounded w0 w -> bounded_world w) /\
  (forall (Qu : Type) (HI : QueueInterface Qu) (HL : QueueLaws Qu)
          (p : SrptTSProcessor.t) (w0 w : World Qu),
     0 <= SrptTSProcessor.quantum p ->
     bounded_world w0 -> Reach (SrptTSProcessor.body p) bounded w0 w -> bounded_world w) /\
  (forall (cores : Z) (s : PSProcessor.RunState),
     (0 < cores)%Z ->
     PSProcessor.Run (fun _ x => bounded x) (fun _ => True) cores s ->
     (forall x, x ∈ PSProcessor.reqList (PSProcessor.proc s) -> bounded x) /\
     (forall tm x, (tm, x) ∈ PSProcessor.terminated s -> bounded x)).
Proof.
  split; [exact newRequest_bounded|].
  split; [|split; [|split]].
  - intros Qu HI HL p w0 w Hw0 HR.
    apply (Reach_bounded (RTCProcessor.body p) w0 w); [|exact Hw0|exact HR].
    intros w1 w2. apply RTC_body_bounded.
  - intros Qu HI HL p w0 w Hq Hw0 HR.
    apply (Reach_bounded (TSProcessor.body p) w0 w); [|exact Hw0|exact HR].
    intros w1 w2. apply TS_body_bounded, Hq.
  - intros Qu HI HL p w0 w Hq Hw0 HR.
    apply (Reach_bounded (SrptTSProcessor.body p) w0 w); [|exact Hw0|exact HR].
    intros w1 w2. apply Srpt_body_bounded, Hq.
  - intros cores s Hcores HRun.
    destruct (bounds_inv_Run cores s Hcores HRun) as (_ & _ & _ & Hl & Ht & _).
    split; assumption.
Qed.

Lemma Reach_run_body {Qu : Type} `{QueueInterface Qu} (body : Act Qu unit)
    (Adm : ReqInterface -> Prop) (w0 w : World Qu) :
  Reach body Adm w0 w -> (exists w', body w = Ret tt w') ->
  Reach body Adm w0 (run_body body w).
Proof.
  intros HR [w' Hw']. unfold run_body. rewrite Hw'.
  exact (Reach_body body Adm w0 w w' HR Hw').
Qed.

Lemma Reach_enqueued (body : Act (PQ.PQueue ReqInterface) unit)
    (Adm : ReqInterface -> Prop) (w0 w : World (PQ.PQueue ReqInterface)) (r : ReqInterface) :
  Reach body Adm w0 w -> Adm r -> (exists q, Enqueue r (inQueue w) = Ok q) ->
  Reach body Adm w0 (enqueued r w).
Proof.
  intros HR Hr [q Hq]. unfold enqueued. rewrite Hq.
  exact (Reach_written body Adm w0 w r q HR Hr Hq).
Qed.

Lemma srpt_example_Reach :
  Reach (SrptTSProcessor.body (SrptTSProcessor.NewSrptTSProcessor 10 0)) bounded
        srpt_example_start srpt_example.
Proof.
  unfold srpt_example. cbv zeta.
  repeat first
    [ apply Reach_run_body; [|vm_compute; eexists; reflexivity]
    | apply Reach_enqueued;
      [ | apply newRequest_bounded; [exact 0%Z | decide_Q]
        | vm_compute; eexists; reflexivity ] ].
  apply Reach_start.
Qed.

Lemma service_time_within_bounds_witness :
  bounded_world srpt_example /\
  (forall tm x, (tm, x) ∈ PSProcessor.terminated example_run -> bounded x).
Proof.
  destruct service_time_within_bounds as (_ & _ & _ & Hsrpt & Hps).
  split.
  - apply (Hsrpt _ _ _ (SrptTSProcessor.NewSrptTSProcessor 10 0) srpt_example_start).
    + decide_Q.
    + split; intros x Hx; apply elem_of_nil in Hx; contradiction.
    + exact srpt_example_Reach.
  - apply (Hps 2%Z example_run); [lia|].
    apply example_run_Run; [|auto].
    intros tm s Hs. apply (newRequest_bounded tm s 0 Hs).
Defined.

End Bounds.

(** ** The statistics of the drain *)

Section Statistics.

(** The argument of the square root of [std] is the mean of the squared
    delays minus the mean delay, whatever the recorded delays. *)
Lemma std_radicand (sqrt : Q -> Q) (k : AllKeeper.t) :
  AllKeeper.std sqrt k =
    sqrt (fold_left (fun tmp item => tmp + Delay item * Delay item) (AllKeeper.items k) 0
            / float64 (Z.of_nat (length (AllKeeper.items k)))
          - AllKeeper.avg k).
Proof. reflexivity. Qed.

(** C6.  On the two recorded delays 2 and 4, [std] returns the square root
    of 7 (the mean of the squares, 10, minus the mean, 3), where the
    standard deviation is the square root of 1 (10 minus the square of
    3). *)
Theorem std_of_delays_2_and_4 (sqrt : Q -> Q) :
  let k := AllKeeper.TerminateReq 6 (SimpleReqCreator_NewRequest 2 1)
             (AllKeeper.TerminateReq 3 (SimpleReqCreator_NewRequest 1 1)
                (AllKeeper.mk [] "Main Stats" 0)) in
  map Delay (AllKeeper.items k) = [3 - 1; 6 - 2] /\
  exists q q',
    AllKeeper.std sqrt k = sqrt q /\ q == 7 /\
    std_spec sqrt k = sqrt q' /\ q' == 1.
Proof.
  intros k. split; [reflexivity|].
  eexists. eexists. split; [reflexivity|]. split; [decide_Q|].
  split; [reflexivity|decide_Q].
Qed.

End Statistics.

(** ** Examples *)

Section Examples.

Lemma Dequeue_returns_minimum_witness :
  let els := [PlainReq (mkRequest 0 5 5); PlainReq (mkRequest 2 3 3);
              PlainReq (mkRequest 1 3 3)] in
  els <> [] /\
  exists q el q' c,
    Enqueue_all ReqInterface RI_typeName Some els PQ.NewPQueue = (q, Ok tt) /\
    PQ.Dequeue ReqInterface Some q = Ok (el, q') /\
    el ∈ els /\ Some el = Some c /\
    (forall el' c', el' ∈ els -> Some el' = Some c' ->
       GetCmpVal c <= GetCmpVal c' /\
       (GetCmpVal c' == GetCmpVal c -> GetInitTime c <= GetInitTime c')) /\
    c :: PQ.pq q' ≡ₚ omap Some els /\
    heapOrdered (PQ.pq q').
Proof.
  intros els. split; [discriminate|].
  apply (Dequeue_returns_minimum ReqInterface RI_typeName Some Some els); [discriminate|].
  intros el _. exists el. split; reflexivity.
Defined.

(** Of two requests with the least key, the one created first is
    dequeued. *)
Example Dequeue_breaks_the_tie :
  let els := [PlainReq (mkRequest 0 5 5); PlainReq (mkRequest 2 3 3);
              PlainReq (mkRequest 1 3 3)] in
  exists q', PQ.Dequeue ReqInterface Some
               (Enqueue_all ReqInterface RI_typeName Some els PQ.NewPQueue).1
             = Ok (PlainReq (mkRequest 1 3 3), q').
Proof. eexists. vm_compute. reflexivity. Qed.

Lemma Enqueue_fail_fast_witness :
  let q := {| PQ.pq := [PlainReq (mkRequest 0 5 5)] |} in
  PQ.Enqueue (ReqInterface + string) foreign_typeName foreign_asComparable
    (inr "*main.Probe"%string) q =
    (q, Panic "Element enqueued to PQueue does not implement blocks.Comparable interface: *main.Probe") /\
  exists h,
    PQ.Enqueue (ReqInterface + string) foreign_typeName foreign_asComparable
      (inl (PlainReq (mkRequest 1 3 3))) q = ({| PQ.pq := h |}, Ok tt) /\
    h ≡ₚ PlainReq (mkRequest 1 3 3) :: PQ.pq q /\
    PQ.PQueue_Len {| PQ.pq := h |} = (PQ.PQueue_Len q + 1)%Z.
Proof.
  intros q. split.
  - exact (proj1 (Enqueue_fail_fast (ReqInterface + string) foreign_typeName
                    foreign_asComparable (inr "*main.Probe"%string) q) eq_refl).
  - exact (proj2 (Enqueue_fail_fast (ReqInterface + string) foreign_typeName
                    foreign_asComparable (inl (PlainReq (mkRequest 1 3 3))) q)
             (PlainReq (mkRequest 1 3 3)) eq_refl).
Defined.

(** The same two requests, written in the same order: the TS processor on
    a FIFO queue serves the long one first, the SRPT-TS processor on a
    priority queue the short one. *)
Example the_queue_makes_the_difference :
  head (trace ts_example) = Some (EvRead (SimpleReqCreator_NewRequest 0 100)) /\
  head (trace srpt_example) = Some (EvRead (SimpleReqCreator_NewRequest 0 1)).
Proof. split; vm_compute; reflexivity. Qed.

End Examples.

(** * Further properties *)

(** ** The queues *)

Section FIFOOrder.

Lemma Queue_Enqueue_list (rs : list ReqInterface) (q : Queue.Queue) :
  Enqueue_list rs q = Ok (Queue.mkQueue (Queue.l q ++ rs) (Queue.id q)).
Proof.
  revert q. induction rs as [|r rs IH]; intros q.
  - cbn. rewrite app_nil_r. destruct q; reflexivity.
  - cbn [Enqueue_list Enqueue Queue_QueueInterface]. rewrite IH. cbn.
    rewrite <- app_assoc. reflexivity.
Qed.

Lemma Queue_Dequeue_n (rs rest : list ReqInterface) (i : Z) :
  Dequeue_n (length rs) (Queue.mkQueue (rs ++ rest) i) = Ok (rs, Queue.mkQueue rest i).
Proof.
  induction rs as [|r rs IH]; [reflexivity|].
  cbn [length Dequeue_n app Dequeue Queue_QueueInterface].
  unfold Queue.Dequeue. cbn [Queue.l Queue.id]. rewrite IH. reflexivity.
Qed.

(** X1.  On the FIFO [Queue], enqueuing the requests [rs] makes [Len] grow
    by their number, and as many calls of [Dequeue] as the queue holds
    return its former requests followed by [rs], in that order; the queue is
    then empty, and one more [Dequeue] panics. *)
Theorem Queue_first_in_first_out (q : Queue.Queue) (rs : list ReqInterface) :
  exists q1 q2,
    Enqueue_list rs q = Ok q1 /\
    Len q1 = (Len q + Z.of_nat (length rs))%Z /\
    Dequeue_n (length (Queue.l q) + length rs) q1 = Ok (Queue.l q ++ rs, q2) /\
    Len q2 = 0%Z /\
    exists msg, Dequeue q2 = Panic msg.
Proof.
  exists (Queue.mkQueue (Queue.l q ++ rs) (Queue.id q)), (Queue.mkQueue [] (Queue.id q)).
  split; [apply Queue_Enqueue_list|].
  split; [cbn; unfold Queue.Len; cbn; rewrite length_app; lia|].
  split.
  - rewrite <- length_app.
    rewrite <- (app_nil_r (Queue.l q ++ rs)) at 2.
    apply Queue_Dequeue_n.
  - split; [reflexivity|]. eexists. reflexivity.
Qed.

End FIFOOrder.

Section PQExtra.
Context {A : Type} `{Comparable A}.
Import PQ.

(** X5.  The comparison of [pQueue.Less] is a strict weak order:
    irreflexive, asymmetric and transitive, and being incomparable is
    transitive. *)
Theorem Less_strict_weak_order (a b c : A) :
  less a a = false /\
  (less a b = true -> less b a = false) /\
  (less a b = true -> less b c = true -> less a c = true) /\
  (less a b = false -> less b c = false -> less a c = false).
Proof.
  split; [apply less_false_iff, lex_le_refl|].
  split; [intros Hab; apply less_false_iff, less_true_lex_le, Hab|].
  split.
  - intros Hab Hbc.
    destruct (less a c) eqn:Hac; [reflexivity|].
    apply less_false_iff in Hac. apply less_true_lex_le in Hab as Hab'.
    assert (less b c = false) as Hcontra; [|congruence].
    apply less_false_iff. revert Hab Hbc Hac Hab'. unfold less, lex_le.
    destruct (Qeq_bool (GetCmpVal a) (GetCmpVal b)) eqn:E1;
      destruct (Qeq_bool (GetCmpVal b) (GetCmpVal c)) eqn:E2;
      rewrite ?Qltb_iff;
      try apply Qeq_bool_iff in E1; try apply Qeq_bool_iff in E2;
      intros; lra.
  - intros Hab Hbc. apply less_false_iff. apply less_false_iff in Hab, Hbc.
    exact (lex_le_trans c b a Hbc Hab).
Qed.

Lemma heap_Push_all_ordered (xs : list A) : forall h : list A,
  heapOrdered h ->
  exists h', heap_Push_all xs h = Some h' /\ heapOrdered h' /\ h' ≡ₚ xs ++ h.
Proof.
  induction xs as [|x xs IH]; intros h Hord.
  - exists h. split; [reflexivity|]. split; [exact Hord|reflexivity].
  - destruct (heap_Push_ordered h x Hord) as (h1 & Hpush & Hord1 & Hperm1).
    destruct (IH h1 Hord1) as (h' & Hall & Hord' & Hperm').
    exists h'. split; [cbn [heap_Push_all]; rewrite Hpush; exact Hall|].
    split; [exact Hord'|]. rewrite Hperm', Hperm1. cbn. symmetry. apply Permutation_middle.
Qed.

Lemma heap_Pop_n_sorted (n : nat) : forall h : list A,
  heapOrdered h -> length h = n ->
  exists xs, heap_Pop_n n h = Some (xs, []) /\ xs ≡ₚ h /\ StronglySorted lex_le xs.
Proof.
  induction n as [|n IH]; intros h Hord Hlen.
  - destruct h; [|discriminate]. exists []. split; [reflexivity|]. split; [reflexivity|constructor].
  - destruct h as [|r h0] eqn:Hh; [discriminate|]. rewrite <- Hh in *.
    assert (h !! 0%nat = Some r) as Hr by (rewrite Hh; reflexivity).
    destruct (heap_Pop_ordered h r Hord Hr) as (h' & Hpop & Hord' & Hperm).
    assert (length h' = n) as Hlen'.
    { apply Permutation_length in Hperm. cbn in Hperm. lia. }
    destruct (IH h' Hord' Hlen') as (xs & Hn & Hpermxs & Hsorted).
    exists (r :: xs). split; [cbn [heap_Pop_n]; rewrite Hpop; cbn; rewrite Hn; reflexivity|].
    split; [rewrite Hpermxs; exact Hperm|].
    constructor; [exact Hsorted|].
    apply Forall_forall. intros x Hx.
    assert (x ∈ h) as Hin by (rewrite <- Hperm, <- Hpermxs; right; exact Hx).
    apply list_elem_of_lookup in Hin as [k Hk].
    exact (root_minimal h r Hord Hr k x Hk).
Qed.

(** X3.  Pushing the elements [xs] on an empty heap and popping as many
    returns a permutation of [xs] in the order of the queue (key, then
    [InitTime]) and leaves the heap empty; no index is out of range on the
    way. *)
Theorem heap_Pop_in_order (xs : list A) :
  exists h ys,
    heap_Push_all xs [] = Some h /\
    heap_Pop_n (length xs) h = Some (ys, []) /\
    ys ≡ₚ xs /\
    StronglySorted lex_le ys.
Proof.
  destruct (heap_Push_all_ordered xs [] heapOrdered_nil) as (h & Hall & Hord & Hperm).
  rewrite app_nil_r in Hperm.
  destruct (heap_Pop_n_sorted (length xs) h Hord) as (ys & Hn & Hpermys & Hsorted).
  { apply Permutation_length, Hperm. }
  exists h, ys. split; [exact Hall|]. split; [exact Hn|].
  split; [rewrite Hpermys; exact Hperm | exact Hsorted].
Qed.

Section Dynamic.
Variable E : Type.
Variable typeName : E -> string.
Variable asComparable : E -> option A.
Variable asReqInterface : A -> option E.

Lemma PQ_reachable_ordered (q : PQueue A) :
  PQ_reachable E typeName asComparable asReqInterface q -> heapOrdered (pq q).
Proof.
  induction 1 as [|q q' el _ IH Henq|q q' el _ IH Hdeq].
  - apply heapOrdered_nil.
  - unfold Enqueue in Henq. destruct (asComparable el) as [c|]; [|discriminate].
    destruct (heap_Push_ordered (pq q) c IH) as (h & Hpush & Hord & _).
    rewrite Hpush in Henq. injection Henq as <-. exact Hord.
  - unfold Dequeue in Hdeq.
    destruct (heap_Pop (pq q)) as [[x h]|] eqn:Hpop; [|discriminate].
    destruct (asReqInterface x); [|discriminate]. injection Hdeq as _ <-.
    destruct (pq q) as [|r h0] eqn:Hq; [discriminate|].
    destruct (heap_Pop_ordered (r :: h0) r IH eq_refl) as (h' & Hpop' & Hord' & _).
    rewrite Hpop in Hpop'. injection Hpop' as _ ->. exact Hord'.
Qed.

(** X2.  On a priority queue made from a new one by calls of [Enqueue] and
    [Dequeue] that returned, [Dequeue] returns an element that is least
    among those held: none has a smaller key, and of those with the same key
    none has an earlier [InitTime].  The other elements stay, [Len] drops by
    one, and the queue left is again such a queue. *)
Theorem Dequeue_least_of_reachable (q q' : PQueue A) (el : E) :
  PQ_reachable E typeName asComparable asReqInterface q ->
  Dequeue E asReqInterface q = Ok (el, q') ->
  exists c,
    asReqInterface c = Some el /\
    pq q ≡ₚ c :: pq q' /\
    (forall c', c' ∈ pq q ->
       GetCmpVal c <= GetCmpVal c' /\
       (GetCmpVal c' == GetCmpVal c -> GetInitTime c <= GetInitTime c')) /\
    PQueue_Len q' = (PQueue_Len q - 1)%Z /\
    PQ_reachable E typeName asComparable asReqInterface q'.
Proof.
  intros Hreach Hdeq.
  pose proof (PQ_reachable_ordered q Hreach) as Hord.
  pose proof (PQ_reach_Dequeue E typeName asComparable asReqInterface q q' el Hreach Hdeq)
    as Hreach'.
  unfold Dequeue in Hdeq.
  destruct (heap_Pop (pq q)) as [[x h]|] eqn:Hpop; [|discriminate].
  destruct (asReqInterface x) as [el'|] eqn:Hx; [|discriminate].
  injection Hdeq as <- <-.
  destruct (pq q) as [|r h0] eqn:Hq; [discriminate|]. rewrite <- Hq in *.
  assert (pq q !! 0%nat = Some r) as Hr by (rewrite Hq; reflexivity).
  destruct (heap_Pop_ordered (pq q) r Hord Hr) as (h' & Hpop' & _ & Hperm).
  rewrite Hpop in Hpop'. injection Hpop' as -> ->.
  exists r. split; [exact Hx|]. split; [symmetry; exact Hperm|]. split; [|split].
  - intros c' Hc'. apply list_elem_of_lookup in Hc' as [k Hk].
    pose proof (root_minimal (pq q) r Hord Hr k c' Hk) as Hle.
    unfold lex_le in Hle. split; [lra|]. intros Heq. lra.
  - unfold PQueue_Len, Len. cbn [pq]. apply Permutation_length in Hperm. cbn in Hperm. lia.
  - exact Hreach'.
Qed.

End Dynamic.
End PQExtra.

Lemma Dequeue_least_of_reachable_witness :
  let a := PlainReq (mkRequest 0 5 5) in
  let b := PlainReq (mkRequest 1 3 3) in
  let c := PlainReq (mkRequest 2 7 7) in
  let a' := PlainReq (mkRequest 3 5 5) in
  let q := {| PQ.pq := [a; a'; c] |} in
  let q' := {| PQ.pq := [a'; c] |} in
  PQ_reachable ReqInterface RI_typeName Some Some q /\
  PQ.Dequeue ReqInterface Some q = Ok (a, q') /\
  exists least,
    Some least = Some a /\
    PQ.pq q ≡ₚ least :: PQ.pq q' /\
    (forall c', c' ∈ PQ.pq q ->
       GetCmpVal least <= GetCmpVal c' /\
       (GetCmpVal c' == GetCmpVal least -> GetInitTime least <= GetInitTime c')) /\
    PQ.PQueue_Len q' = (PQ.PQueue_Len q - 1)%Z /\
    PQ_reachable ReqInterface RI_typeName Some Some q'.
Proof.
  intros a b c a' q q'.
  assert (PQ_reachable ReqInterface RI_typeName Some Some q) as Hreach.
  { apply (PQ_reach_Dequeue ReqInterface RI_typeName Some Some
             {| PQ.pq := [b; a; c; a'] |} q b); [|vm_compute; reflexivity].
    apply (PQ_reach_Enqueue ReqInterface RI_typeName Some Some
             {| PQ.pq := [b; a; c] |} _ a'); [|vm_compute; reflexivity].
    apply (PQ_reach_Enqueue ReqInterface RI_typeName Some Some
             {| PQ.pq := [b; a] |} _ c); [|vm_compute; reflexivity].
    apply (PQ_reach_Enqueue ReqInterface RI_typeName Some Some
             {| PQ.pq := [a] |} _ b); [|vm_compute; reflexivity].
    apply (PQ_reach_Enqueue ReqInterface RI_typeName Some Some PQ.NewPQueue _ a);
      [apply PQ_reach_new | vm_compute; reflexivity]. }
  assert (PQ.Dequeue ReqInterface Some q = Ok (a, q')) as Hdeq by (vm_compute; reflexivity).
  split; [exact Hreach|]. split; [exact Hdeq|].
  exact (Dequeue_least_of_reachable ReqInterface RI_typeName Some Some q q' a Hreach Hdeq).
Defined.

Section ReadNeverCrashes.

Lemma heap_Pop_nonempty {A : Type} `{Comparable A} (h : list A) :
  (0 < length h)%nat -> is_Some (PQ.heap_Pop h).
Proof.
  intros Hlen. destruct h as [|r h0]; [cbn in Hlen; lia|].
  destruct (heap_Pop_root (r :: h0) r eq_refl) as (h' & Hpop & _). eauto.
Qed.

(** X4.  [ReadInQueue] never panics, on a FIFO queue or on a priority
    queue, whatever the queue holds: [Dequeue] is called only when [Len] is
    positive.  On an empty queue the actor blocks and nothing changes. *)
Theorem ReadInQueue_does_not_panic :
  (forall w : World Queue.Queue, forall msg, ReadInQueue w <> Crash msg) /\
  (forall w : World (PQ.PQueue ReqInterface), forall msg, ReadInQueue w <> Crash msg) /\
  (forall w : World Queue.Queue, Len (inQueue w) = 0%Z -> ReadInQueue w = Blocked w) /\
  (forall w : World (PQ.PQueue ReqInterface), Len (inQueue w) = 0%Z -> ReadInQueue w = Blocked w).
Proof.
  split; [|split; [|split]].
  - intros w msg. unfold ReadInQueue. cbn [Len Dequeue Queue_QueueInterface].
    destruct (Z.ltb_spec 0 (Queue.Len (inQueue w))) as [Hlen|Hlen]; [|discriminate].
    unfold Queue.Len in Hlen. unfold Queue.Dequeue.
    destruct (Queue.l (inQueue w)); [cbn in Hlen; lia | discriminate].
  - intros w msg. unfold ReadInQueue. cbn [Len Dequeue PQueue_QueueInterface].
    destruct (Z.ltb_spec 0 (PQ.PQueue_Len (inQueue w))) as [Hlen|Hlen]; [|discriminate].
    unfold PQ.PQueue_Len, PQ.Len in Hlen. unfold PQ.Dequeue.
    destruct (heap_Pop_nonempty (PQ.pq (inQueue w)) ltac:(lia)) as [[x h] ->].
    discriminate.
  - intros w Hlen. unfold ReadInQueue. rewrite Hlen. reflexivity.
  - intros w Hlen. unfold ReadInQueue. rewrite Hlen. reflexivity.
Qed.

End ReadNeverCrashes.

(** ** The drains *)

Section AllKeeperProofs.

Lemma Qsum_cons {T : Type} (f : T -> Q) (x : T) (l : list T) :
  Qsum f (x :: l) = f x + Qsum f l.
Proof. reflexivity. Qed.

Lemma fold_left_Qsum {T : Type} (f : T -> Q) (l : list T) (a : Q) :
  fold_left (fun acc x => acc + f x) l a == a + Qsum f l.
Proof.
  revert a. induction l as [|x l IH]; intros a.
  - unfold Qsum. cbn. ring.
  - cbn [fold_left]. rewrite IH, Qsum_cons. ring.
Qed.

Lemma TerminateReq_ignores_subtraction (now d : Q) (req : ReqInterface) (k : AllKeeper.t) :
  AllKeeper.TerminateReq now (RI_SubServiceTime d req) k = AllKeeper.TerminateReq now req k.
Proof. destruct req as [r|r [|]|r i f|r c]; reflexivity. Qed.

(** X6.  After the calls [calls] of [AllKeeper.TerminateReq] the items
    are the former ones followed by one item for each call, in order, with
    the original service time of the request and its delay at the time of
    the call; [stolenCount] has grown by the number of stolen
    [StealableReq]s among them; the name is kept; and the service time left
    on the requests plays no role. *)
Theorem AllKeeper_records_every_call (calls : list (Q * ReqInterface)) (k : AllKeeper.t) :
  let k' := AllKeeper_calls calls k in
  AllKeeper.items k' =
    AllKeeper.items k ++
    map (fun c => {| RD_ServiceTime := OriginalServiceTime (base c.2);
                     Delay := c.1 - InitTime (base c.2) |}) calls /\
  AllKeeper.stolenCount k' =
    (AllKeeper.stolenCount k + Z.of_nat (length (filter (fun c => is_stolen c.2 = true) calls)))%Z /\
  AllKeeper.name k' = AllKeeper.name k /\
  (forall d, AllKeeper_calls (map (fun c => (c.1, RI_SubServiceTime d c.2)) calls) k = k').
Proof.
  revert k. induction calls as [|[tm r] calls IH]; intros k.
  - cbn. rewrite app_nil_r. repeat split; lia.
  - cbn [AllKeeper_calls fold_left fst snd].
    destruct (IH (AllKeeper.TerminateReq tm r k)) as (Hi & Hs & Hn & Hd).
    unfold AllKeeper_calls in *.
    split; [|split; [|split]].
    + rewrite Hi. cbn. rewrite <- app_assoc. reflexivity.
    + rewrite Hs. rewrite filter_cons. cbn [fst snd].
      destruct r as [r0|r0 [|]|r0 i f|r0 c]; cbn;
        (destruct (decide _) as [Hdec|Hdec]; cbn; try discriminate; try congruence; try lia).
    + rewrite Hn. reflexivity.
    + intros d. cbn [map fold_left fst snd]. rewrite TerminateReq_ignores_subtraction. apply Hd.
Qed.

Lemma finite_div_Some (a b : Q) : ~ b == 0 -> finite_div a b = Some (a / b).
Proof.
  intros Hb. unfold finite_div.
  destruct (Qeq_bool b 0) eqn:E; [apply Qeq_bool_iff in E; contradiction | reflexivity].
Qed.

Lemma finite_div_None (a b : Q) : b == 0 -> finite_div a b = None.
Proof. intros Hb. unfold finite_div. apply Qeq_bool_iff in Hb. rewrite Hb. reflexivity. Qed.

(** A sum of finite quotients by the service times, when none is zero. *)
Lemma fold_slowdowns_Some (g : Q -> Q) (l : list RequestData) (a : Q) :
  Forall (fun item => ~ RD_ServiceTime item == 0) l ->
  fold_left (fun acc item =>
               s ← acc;
               d ← finite_div (Delay item) (RD_ServiceTime item);
               Some (s + g d)) l (Some a)
  = Some (fold_left (fun acc item => acc + g (Delay item / RD_ServiceTime item)) l a).
Proof.
  revert a. induction l as [|x l IH]; intros a Hall; [reflexivity|].
  apply Forall_cons in Hall as [Hx Hall].
  cbn [fold_left mbind option_bind]. rewrite (finite_div_Some _ _ Hx).
  cbn [mbind option_bind]. apply IH, Hall.
Qed.

Lemma fold_slowdowns_None_from (g : Q -> Q) (l : list RequestData) :
  fold_left (fun acc item =>
               s ← acc;
               d ← finite_div (Delay item) (RD_ServiceTime item);
               Some (s + g d)) l None = None.
Proof. induction l as [|x l IH]; [reflexivity | exact IH]. Qed.

Lemma fold_slowdowns_None (g : Q -> Q) (l : list RequestData) (a : Q) :
  Exists (fun item => RD_ServiceTime item == 0) l ->
  fold_left (fun acc item =>
               s ← acc;
               d ← finite_div (Delay item) (RD_ServiceTime item);
               Some (s + g d)) l (Some a) = None.
Proof.
  revert a. induction l as [|x l IH]; intros a Hex; [inversion Hex|].
  cbn [fold_left mbind option_bind].
  destruct (Qeq_bool (RD_ServiceTime x) 0) eqn:E.
  - apply Qeq_bool_iff in E. rewrite (finite_div_None _ _ E).
    cbn [mbind option_bind]. apply fold_slowdowns_None_from.
  - assert (~ RD_ServiceTime x == 0) as Hx
      by (intros Hc; apply Qeq_bool_iff in Hc; congruence).
    rewrite (finite_div_Some _ _ Hx). cbn [mbind option_bind].
    apply IH. apply Exists_cons in Hex as [Hc|Hex]; [contradiction | exact Hex].
Qed.

(** X7.  [slowdownStd] is a finite number exactly when there is an item
    and no item has the original service time zero: it is then the square
    root of the variance of the slowdowns, the mean of their squares minus
    the square of their mean.  With no item, or with an item of service time
    zero, a division by zero makes the result an infinity or NaN. *)
Theorem slowdownStd_is_standard_deviation (sqrt : Q -> Q) (k : AllKeeper.t) :
  let n := float64 (Z.of_nat (length (AllKeeper.items k))) in
  let slowdown item := Delay item / RD_ServiceTime item in
  (AllKeeper.items k <> [] ->
   Forall (fun item => ~ RD_ServiceTime item == 0) (AllKeeper.items k) ->
   exists q,
     AllKeeper.slowdownStd sqrt k = Some (sqrt q) /\
     q == Qsum (fun item => slowdown item * slowdown item) (AllKeeper.items k) / n
          - (Qsum slowdown (AllKeeper.items k) / n) * (Qsum slowdown (AllKeeper.items k) / n)) /\
  (AllKeeper.items k = [] \/
   Exists (fun item => RD_ServiceTime item == 0) (AllKeeper.items k) ->
   AllKeeper.slowdownStd sqrt k = None).
Proof.
  intros n slowdown. split.
  - intros Hne Hall.
    assert (~ n == 0) as Hn.
    { subst n. unfold float64. intros E.
      apply (proj1 (inject_Z_injective _ 0)) in E.
      destruct (AllKeeper.items k); [congruence | cbn in E; lia]. }
    set (avg := fold_left (fun acc item => acc + slowdown item) (AllKeeper.items k) 0 / n).
    assert (AllKeeper.slowdownAvg k = Some avg) as Hav.
    { unfold AllKeeper.slowdownAvg.
      rewrite (fold_slowdowns_Some (fun d => d) _ 0 Hall). cbn [mbind option_bind].
      fold n. rewrite (finite_div_Some _ _ Hn). reflexivity. }
    exists (fold_left (fun acc x => acc + (slowdown x - avg) * (slowdown x - avg))
              (AllKeeper.items k) 0 / n).
    split.
    { unfold AllKeeper.slowdownStd. rewrite Hav. cbn [mbind option_bind].
      rewrite (fold_slowdowns_Some (fun d => (d - avg) * (d - avg)) _ 0 Hall).
      cbn [mbind option_bind]. fold n. rewrite (finite_div_Some _ _ Hn). reflexivity. }
    rewrite (fold_left_Qsum (fun item => (slowdown item - avg) * (slowdown item - avg))).
    assert (avg == Qsum slowdown (AllKeeper.items k) / n) as Havg.
    { subst avg. rewrite (fold_left_Qsum slowdown). field. exact Hn. }
    assert (forall l a,
              Qsum (fun item : RequestData => (slowdown item - a) * (slowdown item - a)) l
              == Qsum (fun item => slowdown item * slowdown item) l
                 - 2 * a * Qsum slowdown l + float64 (Z.of_nat (length l)) * a * a) as Hexp.
    { intros l a. induction l as [|x l IH].
      - unfold Qsum, float64. cbn. ring.
      - rewrite !Qsum_cons, IH. cbn [length]. unfold float64.
        rewrite Nat2Z.inj_succ, <- Z.add_1_r, inject_Z_plus. ring. }
    rewrite Hexp. fold n. rewrite Havg. field. exact Hn.
  - intros [Hnil|Hex]; unfold AllKeeper.slowdownStd, AllKeeper.slowdownAvg.
    + rewrite Hnil. cbn [fold_left length mbind option_bind].
      rewrite (finite_div_None 0 (float64 (Z.of_nat 0))) by reflexivity. reflexivity.
    + rewrite (fold_slowdowns_None (fun d => d) _ 0 Hex). reflexivity.
Qed.

Lemma slowdownStd_is_standard_deviation_witness :
  let k := {| AllKeeper.items := [ {| RD_ServiceTime := 1; Delay := 2 |};
                                   {| RD_ServiceTime := 2; Delay := 8 |} ];
              AllKeeper.name := "Main Stats"; AllKeeper.stolenCount := 0 |} in
  let k0 := {| AllKeeper.items := [ {| RD_ServiceTime := 0; Delay := 2 |} ];
               AllKeeper.name := "Main Stats"; AllKeeper.stolenCount := 0 |} in
  (exists q, AllKeeper.slowdownStd (fun x => x) k = Some q /\ q == 1) /\
  AllKeeper.slowdownStd (fun x => x) k0 = None.
Proof.
  intros k k0. split.
  - destruct (proj1 (slowdownStd_is_standard_deviation (fun x => x) k))
      as (q & Hq & Hval).
    + discriminate.
    + repeat constructor; discriminate.
    + exists q. split; [exact Hq|]. rewrite Hval. vm_compute. reflexivity.
  - apply (proj2 (slowdownStd_is_standard_deviation (fun x => x) k0)).
    right. constructor. reflexivity.
Defined.

End AllKeeperProofs.

Section MonitorKeeperProofs.
Import MonitorKeeper.

Lemma MonitorKeeper_calls_lengths (calls : list (Q * ReqInterface)) (k : t) :
  let k' := MonitorKeeper_calls calls k in
  let m := length (filter (fun c => is_monitor c.2 = true) calls) in
  length (delays k') = (length (delays k) + length calls)%nat /\
  length (initLen k') = (length (initLen k) + m)%nat /\
  length (finalLen k') = (length (finalLen k) + m)%nat.
Proof.
  revert k. induction calls as [|[tm r] calls IH]; intros k.
  - cbn. lia.
  - cbn [MonitorKeeper_calls fold_left fst snd].
    destruct (IH (TerminateReq tm r k)) as (Hd & Hi & Hf).
    unfold MonitorKeeper_calls in *. cbv zeta. rewrite Hd, Hi, Hf.
    rewrite filter_cons. cbn [fst snd length].
    destruct r as [r0|r0 s|r0 i f|r0 c]; cbn;
      (destruct (decide _) as [Hdec|Hdec]; try discriminate; try congruence);
      rewrite ?length_app; cbn; lia.
Qed.

Lemma PrintStats_from_rows (k : t) (ds : list Q) : forall idx : nat,
  length (finalLen k) = length (initLen k) ->
  (idx <= length (initLen k))%nat ->
  length (PrintStats_from k idx ds).1 = Nat.min (length ds) (length (initLen k) - idx) /\
  ((PrintStats_from k idx ds).2 = Ok tt <-> (idx + length ds <= length (initLen k))%nat).
Proof.
  induction ds as [|d ds IH]; intros idx Hlen Hidx.
  - cbn. split; [lia|]. split; [lia|reflexivity].
  - cbn [PrintStats_from length].
    destruct (initLen k !! idx) as [i|] eqn:Hi.
    + apply lookup_lt_Some in Hi as Hlt.
      destruct (lookup_lt_is_Some_2 (finalLen k) idx ltac:(lia)) as [f Hf]. rewrite Hf.
      destruct (IH (S idx) Hlen ltac:(lia)) as [Hrows Hres].
      destruct (PrintStats_from k (S idx) ds) as [rows res]. cbn -[Nat.min Nat.sub] in *.
      split; [lia|]. rewrite Hres. lia.
    + cbn [fst snd length]. apply lookup_ge_None in Hi. split; [lia|]. split; [discriminate|intros; lia].
Qed.

(** X13.  After the calls [calls] of [TerminateReq] on a new
    [MonitorKeeper], [PrintStats] prints as many rows as [MonitorReq]s were
    terminated, and returns without an index out of range exactly when every
    request terminated was a [MonitorReq]. *)
Theorem MonitorKeeper_PrintStats_rows (calls : list (Q * ReqInterface)) (nm : string) :
  let k := MonitorKeeper_calls calls (mk [] [] [] nm) in
  let monitors := length (filter (fun c => is_monitor c.2 = true) calls) in
  length (PrintStats k).1 = monitors /\
  ((PrintStats k).2 = Ok tt <-> monitors = length calls).
Proof.
  intros k monitors.
  destruct (MonitorKeeper_calls_lengths calls (mk [] [] [] nm)) as (Hd & Hi & Hf).
  fold k in Hd, Hi, Hf. fold monitors in Hi, Hf. cbn in Hd, Hi, Hf.
  assert (monitors <= length calls)%nat as Hle by (subst monitors; apply length_filter).
  unfold PrintStats.
  destruct (PrintStats_from_rows k (delays k) 0 ltac:(lia) ltac:(lia)) as [Hrows Hres].
  split; [rewrite Hrows; lia|]. rewrite Hres. lia.
Qed.

End MonitorKeeperProofs.

Section PercentileProofs.
Import AllKeeperStats.

Lemma sort_insert_perm (x : Q) (l : list Q) : sort_insert x l ≡ₚ x :: l.
Proof.
  induction l as [|y l IH]; [reflexivity|]. cbn.
  destruct (Qle_bool x y); [reflexivity|]. rewrite IH. apply Permutation_swap.
Qed.

Lemma sort_Float64s_perm (l : list Q) : sort_Float64s l ≡ₚ l.
Proof.
  induction l as [|x l IH]; [reflexivity|]. cbn. rewrite sort_insert_perm, IH. reflexivity.
Qed.

Lemma sort_insert_sorted (x : Q) (l : list Q) :
  StronglySorted Qle l -> StronglySorted Qle (sort_insert x l).
Proof.
  induction 1 as [|y l Hs IH Hall]; cbn.
  - repeat constructor.
  - destruct (Qle_bool x y) eqn:Hxy.
    + apply Qle_bool_iff in Hxy. constructor; [constructor; assumption|].
      constructor; [exact Hxy|]. eapply Forall_impl; [exact Hall|]. intros z Hz. cbn in Hz. lra.
    + assert (y <= x) as Hyx.
      { apply Qlt_le_weak, Qnot_le_lt. intros Hc. apply Qle_bool_iff in Hc. congruence. }
      constructor; [exact IH|].
      rewrite sort_insert_perm. constructor; assumption.
Qed.

Lemma sort_Float64s_sorted (l : list Q) : StronglySorted Qle (sort_Float64s l).
Proof.
  induction l as [|x l IH]; [constructor|]. cbn. apply sort_insert_sorted, IH.
Qed.

Lemma StronglySorted_lookup_le (l : list Q) (i j : nat) (x y : Q) :
  StronglySorted Qle l -> (i <= j)%nat -> l !! i = Some x -> l !! j = Some y -> x <= y.
Proof.
  intros Hs. revert i j. induction Hs as [|z l Hs IH Hall]; intros i j Hij Hi Hj.
  - rewrite lookup_nil in Hi. discriminate.
  - destruct i as [|i]; destruct j as [|j]; cbn in Hi, Hj; simplify_eq.
    + lra.
    + rewrite Forall_forall in Hall. apply Hall. apply list_elem_of_lookup. eauto.
    + lia.
    + apply (IH i j); [lia | assumption | assumption].
Qed.

Lemma percentile_index_quot (n : nat) (a : Z) (b : positive) :
  percentile_index n (a # b) =
    let idx := Z.quot (Z.of_nat n * a) (Zpos b) in
    if (idx >=? Z.of_nat n)%Z then (Z.of_nat n - 1)%Z else idx.
Proof. reflexivity. Qed.

Lemma percentile_index_in_range (n : nat) (a : Z) (b : positive) :
  (0 < n)%nat -> (0 <= a < Zpos b)%Z ->
  percentile_index n (a # b) = Z.quot (Z.of_nat n * a) (Zpos b) /\
  (0 <= percentile_index n (a # b) < Z.of_nat n)%Z.
Proof.
  intros Hn Ha. rewrite percentile_index_quot. cbv zeta.
  assert (0 <= Z.quot (Z.of_nat n * a) (Zpos b) < Z.of_nat n)%Z as Hq.
  { rewrite Z.quot_div_nonneg by nia. split.
    - apply Z.div_pos; nia.
    - apply Z.div_lt_upper_bound; nia. }
  destruct (Z.geb_spec (Z.quot (Z.of_nat n * a) (Zpos b)) (Z.of_nat n)); [lia|].
  split; [reflexivity | exact Hq].
Qed.

Lemma percentiles_of_empty (vs : list Q) :
  vs <> [] -> exists msg, percentiles_of [] vs = Panic msg.
Proof.
  destruct vs as [|v vs]; [congruence|]. intros _. cbn [percentiles_of length].
  assert (percentile_index 0 v = (-1)%Z) as ->.
  { unfold percentile_index. cbn [Z.of_nat float64]. unfold float64, int_of_float64.
    destruct v as [a b]. cbn. reflexivity. }
  eexists. reflexivity.
Qed.

(** X8.  [getPercentiles] panics when there is no item (the index is
    -1); otherwise it returns, for 0.5, 0.9, 0.95 and 0.99 in this order,
    delays that were recorded, in non-decreasing order. *)
Theorem AllKeeper_getPercentiles_ordered (k : AllKeeper.t) :
  (AllKeeper.items k = [] -> exists msg, getPercentiles k = Panic msg) /\
  (AllKeeper.items k <> [] ->
   exists p50 p90 p95 p99,
     getPercentiles k = Ok [(5 # 10, p50); (9 # 10, p90); (95 # 100, p95); (99 # 100, p99)] /\
     Forall (fun p => p ∈ map Delay (AllKeeper.items k)) [p50; p90; p95; p99] /\
     p50 <= p90 /\ p90 <= p95 /\ p95 <= p99).
Proof.
  unfold getPercentiles. split.
  - intros ->. cbn [map sort_Float64s fold_right]. apply percentiles_of_empty. discriminate.
  - intros Hne.
    set (delays := map Delay (AllKeeper.items k)).
    pose proof (sort_Float64s_perm delays) as Hperm.
    pose proof (sort_Float64s_sorted delays) as Hsorted.
    set (sorted := sort_Float64s delays) in *.
    assert (0 < length sorted)%nat as Hlen.
    { rewrite Hperm. subst delays. rewrite length_map.
      destruct (AllKeeper.items k); [congruence | cbn; lia]. }
    destruct (percentile_index_in_range (length sorted) 5 10 Hlen ltac:(lia)) as [E50 R50].
    destruct (percentile_index_in_range (length sorted) 9 10 Hlen ltac:(lia)) as [E90 R90].
    destruct (percentile_index_in_range (length sorted) 95 100 Hlen ltac:(lia)) as [E95 R95].
    destruct (percentile_index_in_range (length sorted) 99 100 Hlen ltac:(lia)) as [E99 R99].
    destruct (lookup_lt_is_Some_2 sorted (Z.to_nat (percentile_index (length sorted) (5 # 10)))
                ltac:(lia)) as [p50 H50].
    destruct (lookup_lt_is_Some_2 sorted (Z.to_nat (percentile_index (length sorted) (9 # 10)))
                ltac:(lia)) as [p90 H90].
    destruct (lookup_lt_is_Some_2 sorted (Z.to_nat (percentile_index (length sorted) (95 # 100)))
                ltac:(lia)) as [p95 H95].
    destruct (lookup_lt_is_Some_2 sorted (Z.to_nat (percentile_index (length sorted) (99 # 100)))
                ltac:(lia)) as [p99 H99].
    exists p50, p90, p95, p99. split; [|split].
    + unfold percentiles. cbn [percentiles_of].
      rewrite H50, H90, H95, H99.
      destruct (Z.ltb_spec (percentile_index (length sorted) (5 # 10)) 0); [lia|].
      destruct (Z.ltb_spec (percentile_index (length sorted) (9 # 10)) 0); [lia|].
      destruct (Z.ltb_spec (percentile_index (length sorted) (95 # 100)) 0); [lia|].
      destruct (Z.ltb_spec (percentile_index (length sorted) (99 # 100)) 0); [lia|].
      reflexivity.
    + repeat constructor; rewrite <- Hperm; apply list_elem_of_lookup; eauto.
    + assert (0 <= Z.of_nat (length sorted))%Z as Hn by lia.
      assert (percentile_index (length sorted) (5 # 10) <= percentile_index (length sorted) (9 # 10)
              <= percentile_index (length sorted) (95 # 100))%Z as [L1 L2].
      { rewrite E50, E90, E95. rewrite !Z.quot_div_nonneg by lia.
        Z.to_euclidean_division_equations. lia. }
      assert (percentile_index (length sorted) (95 # 100)
              <= percentile_index (length sorted) (99 # 100))%Z as L3.
      { rewrite E95, E99. rewrite !Z.quot_div_nonneg by lia.
        Z.to_euclidean_division_equations. lia. }
      split; [|split].
      * eapply StronglySorted_lookup_le; [exact Hsorted | | exact H50 | exact H90]; lia.
      * eapply StronglySorted_lookup_le; [exact Hsorted | | exact H90 | exact H95]; lia.
      * eapply StronglySorted_lookup_le; [exact Hsorted | | exact H95 | exact H99]; lia.
Qed.


End PercentileProofs.

Section HistogramProofs.
Import histogram.

Lemma Qsum_app {T : Type} (f : T -> Q) (l1 l2 : list T) :
  Qsum f (l1 ++ l2) == Qsum f l1 + Qsum f l2.
Proof.
  induction l1 as [|x l1 IH]; unfold Qsum in *; cbn.
  - ring.
  - rewrite IH. ring.
Qed.

Lemma int_of_float64_negative (x : Q) : (int_of_float64 x < 0)%Z <-> x <= -1.
Proof.
  unfold int_of_float64, Qle. destruct x as [a b]. cbn [Qnum Qden].
  change (Qnum (-1)) with (-1)%Z. change (QDen (-1)) with 1%Z.
  split; intros Hx; Z.to_euclidean_division_equations; nia.
Qed.

Lemma hist_of_new : hist_of newHistogram [].
Proof.
  unfold hist_of, newHistogram. cbn [granularity buckets count minBucket maxBucket sum sumSquare].
  split; [reflexivity|]. split; [apply length_replicate|].
  split; [reflexivity|]. split; [reflexivity|]. split; [reflexivity|].
  split; [|split; [auto | congruence]].
  intros i Hi. unfold samples_in_bucket. cbn.
  apply lookup_replicate_2. lia.
Qed.

Lemma bucket_index_range (s : Q) :
  (bucket_index s < bUCKETCOUNT)%Z /\ ((0 <= bucket_index s)%Z <-> - gRANULARITY < s).
Proof.
  unfold bucket_index. cbv zeta.
  assert ((int_of_float64 (s / gRANULARITY) < 0)%Z <-> s <= - gRANULARITY) as Hneg.
  { rewrite int_of_float64_negative. unfold gRANULARITY. split; intros Hs.
    - assert (s == s / (1 # 100) * (1 # 100)) as -> by (field; discriminate). lra.
    - apply Qle_shift_div_r; [reflexivity|]. lra. }
  destruct (Z.geb_spec (int_of_float64 (s / gRANULARITY)) bUCKETCOUNT) as [Hge|Hlt].
  - split; [unfold bUCKETCOUNT; lia|]. split; [|unfold bUCKETCOUNT; lia].
    intros _. apply Qnot_le_lt. intros Hc. apply Hneg in Hc. unfold bUCKETCOUNT in Hge. lia.
  - split; [exact Hlt|]. split.
    + intros Hpos. apply Qnot_le_lt. intros Hc. apply Hneg in Hc. lia.
    + intros Hs. destruct (Z.ltb_spec (int_of_float64 (s / gRANULARITY)) 0) as [Hn|Hn]; [|lia].
      apply Hneg in Hn. lra.
Qed.

Lemma addSample_step (h : t) (samples : list Q) (s : Q) :
  hist_of h samples ->
  (s <= - gRANULARITY -> exists msg, addSample s h = Panic msg) /\
  (- gRANULARITY < s -> exists h', addSample s h = Ok h' /\ hist_of h' (samples ++ [s])).
Proof.
  intros (Hg & Hlen & Hcount & Hsum & Hsq & Hb & Hempty & Hne).
  destruct (bucket_index_range s) as [Hlt Hpos].
  unfold addSample. rewrite Hg. fold (bucket_index s).
  split.
  - intros Hs. destruct (Z.ltb_spec (bucket_index s) 0) as [Hn|Hn].
    + cbn. eauto.
    + apply Hpos in Hn. lra.
  - intros Hs. apply Hpos in Hs as Hidx.
    destruct (Z.ltb_spec (bucket_index s) 0) as [Hn|_]; [lia|].
    destruct (Z.geb_spec (bucket_index s) bUCKETCOUNT) as [Hn|_]; [lia|].
    cbn [orb]. rewrite (Hb (bucket_index s) ltac:(lia)).
    eexists. split; [reflexivity|].
    unfold hist_of. cbn [granularity buckets count minBucket maxBucket sum sumSquare].
    split; [reflexivity|]. split; [rewrite length_insert; exact Hlen|].
    split; [rewrite Hcount, length_app; cbn; lia|].
    split; [rewrite Hsum, Qsum_app; unfold Qsum; cbn; ring|].
    split; [rewrite Hsq, Qsum_app; unfold Qsum; cbn; ring|].
    split; [|split].
    + intros i Hi. unfold samples_in_bucket. rewrite filter_app, length_app.
      rewrite filter_cons, filter_nil.
      destruct (decide (i = bucket_index s)) as [->|Hneq].
      * rewrite list_lookup_insert_eq by lia.
        rewrite decide_True by reflexivity. unfold samples_in_bucket. cbn. f_equal. lia.
      * rewrite list_lookup_insert_ne by lia.
        rewrite decide_False by congruence. rewrite (Hb i Hi). unfold samples_in_bucket.
        cbn. f_equal. lia.
    + intros Happ. destruct samples; discriminate.
    + intros _. destruct samples as [|s0 samples'] eqn:Hsamples.
      * destruct (Hempty eq_refl) as [-> ->]. cbn [app].
        destruct (Z.ltb_spec (bucket_index s) (bUCKETCOUNT - 1)) as [H1|H1];
          destruct (Z.gtb_spec (bucket_index s) 0) as [H2|H2];
          (split; [intros x Hx; apply list_elem_of_singleton in Hx as ->; lia|]);
          (split; exists s; (split; [apply list_elem_of_singleton; reflexivity | lia])).
      * rewrite <- Hsamples in *.
        destruct (Hne ltac:(rewrite Hsamples; discriminate)) as (Hall & (smin & Hsmin & Emin) & (smax & Hsmax & Emax)).
        split; [|split].
        -- intros x Hx. apply elem_of_app in Hx as [Hx|Hx].
           ++ specialize (Hall x Hx).
              destruct (Z.ltb_spec (bucket_index s) (minBucket h));
                destruct (Z.gtb_spec (bucket_index s) (maxBucket h)); lia.
           ++ apply list_elem_of_singleton in Hx as ->.
              destruct (Z.ltb_spec (bucket_index s) (minBucket h));
                destruct (Z.gtb_spec (bucket_index s) (maxBucket h)); lia.
        -- destruct (Z.ltb_spec (bucket_index s) (minBucket h)).
           ++ exists s. split; [apply elem_of_app; right; apply list_elem_of_singleton; reflexivity | reflexivity].
           ++ exists smin. split; [apply elem_of_app; left; exact Hsmin | exact Emin].
        -- destruct (Z.gtb_spec (bucket_index s) (maxBucket h)).
           ++ exists s. split; [apply elem_of_app; right; apply list_elem_of_singleton; reflexivity | reflexivity].
           ++ exists smax. split; [apply elem_of_app; left; exact Hsmax | exact Emax].
Qed.

Lemma addSamples_hist (xs : list Q) : forall (h h' : t) (pre : list Q),
  hist_of h pre -> addSamples xs h = Ok h' ->
  hist_of h' (pre ++ xs) /\ Forall (fun s => - gRANULARITY < s) xs.
Proof.
  induction xs as [|s xs IH]; intros h h' pre Hh Hadd.
  - cbn in Hadd. injection Hadd as <-. rewrite app_nil_r. split; [exact Hh | constructor].
  - cbn [addSamples] in Hadd.
    destruct (addSample_step h pre s Hh) as [Hpanic Hok].
    destruct (Qlt_le_dec (- gRANULARITY) s) as [Hs|Hs].
    + destruct (Hok Hs) as (h1 & Hh1 & Hhist1). rewrite Hh1 in Hadd.
      destruct (IH h1 h' (pre ++ [s]) Hhist1 Hadd) as [Hhist Hall].
      rewrite <- app_assoc in Hhist. split; [exact Hhist | constructor; assumption].
    + destruct (Hpanic Hs) as [msg Hmsg]. rewrite Hmsg in Hadd. discriminate.
Qed.

Lemma addSamples_total (xs : list Q) : forall (h : t) (pre : list Q),
  hist_of h pre -> Forall (fun s => - gRANULARITY < s) xs ->
  exists h', addSamples xs h = Ok h'.
Proof.
  induction xs as [|s xs IH]; intros h pre Hh Hall.
  - exists h. reflexivity.
  - apply Forall_cons in Hall as [Hs Hall].
    destruct (proj2 (addSample_step h pre s Hh) Hs) as (h1 & Hh1 & Hhist1).
    destruct (IH h1 (pre ++ [s]) Hhist1 Hall) as [h' Hh'].
    exists h'. cbn [addSamples]. rewrite Hh1. exact Hh'.
Qed.

(** X9.  When the samples [samples] were added to a new histogram
    without a panic, [count] is their number, [sum] and [sumSquare] are
    their sum and the sum of their squares, every bucket holds the number of
    the samples of its index and, when there is a sample, [minBucket] and
    [maxBucket] are the least and the largest index of a sample. *)
Theorem histogram_counts_samples (samples : list Q) (h : t) :
  addSamples samples newHistogram = Ok h ->
  hist_of h samples.
Proof.
  intros Hadd. exact (proj1 (addSamples_hist samples newHistogram h [] hist_of_new Hadd)).
Qed.

Lemma histogram_counts_samples_witness :
  exists h, addSamples [1; 3] newHistogram = Ok h /\ hist_of h [1; 3].
Proof.
  destruct (addSamples_total [1; 3] newHistogram [] hist_of_new) as [h Hh].
  - repeat constructor.
  - exists h. split; [exact Hh|]. exact (histogram_counts_samples [1; 3] h Hh).
Defined.

Lemma int_of_float64_at_least (x : Q) (z : Z) :
  (0 <= z)%Z -> inject_Z z <= x -> (z <= int_of_float64 x)%Z.
Proof.
  unfold int_of_float64, Qle. destruct x as [a b]. cbn [Qnum Qden inject_Z].
  intros Hz Hx. Z.to_euclidean_division_equations; nia.
Qed.

(** X10.  For a sample between -2^53 and 2^53, whose quotient by the
    granularity is within the range of [int], and a histogram that samples
    were added to: [addSample] panics exactly when the sample is at or below
    [-gRANULARITY], the index being negative then; and a sample at or above
    [bUCKETCOUNT * gRANULARITY] is counted in the last bucket. *)
Theorem addSample_panics_on_negative_bucket (h : t) (samples : list Q) (s : Q) :
  hist_of h samples ->
  - float64 (2 ^ 53) <= s <= float64 (2 ^ 53) ->
  ((exists msg, addSample s h = Panic msg) <-> s <= - gRANULARITY) /\
  (float64 bUCKETCOUNT * gRANULARITY <= s ->
   exists h', addSample s h = Ok h' /\
              buckets h' !! Z.to_nat (bUCKETCOUNT - 1)
              = Some (samples_in_bucket samples (bUCKETCOUNT - 1) + 1)%Z).
Proof.
  intros Hh _. destruct (addSample_step h samples s Hh) as [Hpanic Hok]. split.
  - split; [|exact Hpanic]. intros [msg Hmsg].
    destruct (Qlt_le_dec (- gRANULARITY) s) as [Hs|Hs]; [|exact Hs].
    destruct (Hok Hs) as (h' & Hh' & _). congruence.
  - intros Hs.
    assert (bucket_index s = (bUCKETCOUNT - 1)%Z) as Hidx.
    { unfold bucket_index. cbv zeta.
      assert (bUCKETCOUNT <= int_of_float64 (s / gRANULARITY))%Z as Hge.
      { apply int_of_float64_at_least; [unfold bUCKETCOUNT; lia|].
        apply Qle_shift_div_l; [reflexivity|]. exact Hs. }
      destruct (Z.geb_spec (int_of_float64 (s / gRANULARITY)) bUCKETCOUNT); [reflexivity | lia]. }
    destruct Hok as (h' & Hh' & Hhist').
    { assert (float64 bUCKETCOUNT * gRANULARITY == 1000) as E by reflexivity.
      rewrite E in Hs. unfold gRANULARITY. lra. }
    exists h'. split; [exact Hh'|].
    destruct Hhist' as (_ & _ & _ & _ & _ & Hb & _).
    rewrite (Hb (bUCKETCOUNT - 1)%Z) by (unfold bUCKETCOUNT; lia).
    f_equal. unfold samples_in_bucket. rewrite filter_app, length_app, filter_cons, filter_nil.
    rewrite decide_True by exact Hidx. cbn [length]. lia.
Qed.

Lemma addSample_panics_on_negative_bucket_witness :
  exists h, addSamples [1; 3] newHistogram = Ok h /\
            (exists msg, addSample (-1) h = Panic msg) /\
            exists h', addSample 2000 h = Ok h'.
Proof.
  destruct (addSamples_total [1; 3] newHistogram [] hist_of_new) as [h Hh].
  - repeat constructor.
  - exists h. split; [exact Hh|].
    pose proof (proj1 (addSamples_hist [1; 3] newHistogram h [] hist_of_new Hh)) as Hhist.
    split.
    + apply (proj1 (addSample_panics_on_negative_bucket h [1; 3] (-1) Hhist
                      ltac:(split; decide_Q))).
      unfold gRANULARITY. lra.
    + destruct (proj2 (addSample_panics_on_negative_bucket h [1; 3] 2000 Hhist
                         ltac:(split; decide_Q))) as (h' & Hh' & _).
      * decide_Q.
      * exists h'. exact Hh'.
Defined.

(** X11.  After at least one sample, [avg] is the mean of the samples and
    [stddev] the square root of the mean of their squares minus the square
    of their mean. *)
Theorem histogram_stddev_of_samples (sqrt : Q -> Q) (samples : list Q) (h : t) :
  addSamples samples newHistogram = Ok h ->
  samples <> [] ->
  let n := float64 (Z.of_nat (length samples)) in
  avg h == Qsum (fun s => s) samples / n /\
  exists q,
    stddev sqrt h = sqrt q /\
    q == Qsum (fun s => s * s) samples / n
         - (Qsum (fun s => s) samples / n) * (Qsum (fun s => s) samples / n).
Proof.
  intros Hadd Hne n.
  destruct (proj1 (addSamples_hist samples newHistogram h [] hist_of_new Hadd))
    as (_ & _ & Hcount & Hsum & Hsq & _).
  cbn [app] in *.
  assert (avg h == Qsum (fun s => s) samples / n) as Havg.
  { unfold avg. rewrite Hcount, Hsum. reflexivity. }
  split; [exact Havg|].
  eexists. split; [reflexivity|].
  rewrite Havg, Hsq, Hcount. reflexivity.
Qed.

Lemma histogram_stddev_of_samples_witness :
  exists h, addSamples [1; 3] newHistogram = Ok h /\
            avg h == 2 /\
            exists q, stddev (fun x => x) h = q /\ q == 1.
Proof.
  destruct (addSamples_total [1; 3] newHistogram [] hist_of_new) as [h Hh].
  - repeat constructor.
  - exists h. split; [exact Hh|].
    destruct (histogram_stddev_of_samples (fun x => x) [1; 3] h Hh ltac:(discriminate))
      as (Havg & q & Hq & Hval).
    split; [rewrite Havg; vm_compute; reflexivity|].
    exists q. split; [exact Hq|]. rewrite Hval. vm_compute. reflexivity.
Defined.

End HistogramProofs.

Section HistogramPercentiles.
Import histogram histogramPercentiles.

Lemma first_bucket_panics (h : t) (first : Z) (ps : list Q) : forall res,
  (exists msg, first_bucket h first ps res = Panic msg) <->
  Forall (fun p => p * float64 (count h) < float64 first) ps.
Proof.
  induction ps as [|p ps IH]; intros res; cbn [first_bucket].
  - split; [constructor | eauto].
  - destruct (Qltb (p * float64 (count h)) (float64 first)) eqn:Hp.
    + apply Qltb_iff in Hp. rewrite IH. split; [constructor; assumption|].
      intros Hall. inversion Hall; assumption.
    + apply Qltb_false_iff in Hp. split; [intros [msg Hmsg]; discriminate|].
      intros Hall. inversion Hall; subst. lra.
Qed.

Lemma later_buckets_returns (h : t) (n : nat) : forall (i below : Z) ps res,
  (0 <= i)%Z -> (Z.to_nat i + n <= length (buckets h))%nat ->
  exists out, later_buckets h n i below ps res = Ok out.
Proof.
  induction n as [|n IH]; intros i below ps res Hi Hlen; cbn [later_buckets]; [eauto|].
  destruct (Z.ltb_spec i 0); [lia|].
  destruct (lookup_lt_is_Some_2 (buckets h) (Z.to_nat i) ltac:(lia)) as [b ->].
  destruct (later_bucket h i b below (below + b) ps res) as [[ps' res'] [|]]; [eauto|].
  apply IH; lia.
Qed.

(** X12.  [getPercentiles] of a histogram that samples were added to
    panics exactly when more than 99% of the samples are in the lowest
    occupied bucket: the first loop then reads past the last percentile. *)
Theorem histogram_getPercentiles_panics (samples : list Q) (h : t) :
  addSamples samples newHistogram = Ok h ->
  ((exists msg, getPercentiles h = Panic msg) <->
   (99 # 100) * float64 (Z.of_nat (length samples))
     < float64 (samples_in_bucket samples (minBucket h))).
Proof.
  intros Hadd.
  destruct (proj1 (addSamples_hist samples newHistogram h [] hist_of_new Hadd))
    as (_ & Hlen & Hcount & _ & _ & Hb & Hempty & Hne).
  cbn [app] in *.
  assert (0 <= minBucket h < bUCKETCOUNT /\ maxBucket h < bUCKETCOUNT
          /\ (samples <> [] -> minBucket h <= maxBucket h))%Z as (Hmin & Hmax & Hmm).
  { destruct samples as [|s0 samples'] eqn:Hs.
    - destruct (Hempty eq_refl) as [-> ->]. unfold bUCKETCOUNT. split; [lia|]. split; [lia|congruence].
    - rewrite <- Hs in *. assert (samples <> []) as Hn by (rewrite Hs; discriminate).
      destruct (Hne Hn) as (Hall & (smin & Hsmin & Emin) & (smax & Hsmax & Emax)).
      pose proof (Hall smin Hsmin). pose proof (Hall smax Hsmax).
      pose proof (bucket_index_range smax) as [Hlt _].
      assert (- gRANULARITY < smin) as Hpos.
      { destruct (addSamples_hist samples newHistogram h [] hist_of_new Hadd) as [_ Hfa].
        rewrite Forall_forall in Hfa. apply Hfa, Hsmin. }
      apply (bucket_index_range smin) in Hpos. split; [lia|]. split; [lia|]. intros _. lia. }
  unfold getPercentiles.
  destruct (Z.ltb_spec (minBucket h) 0) as [Hn|_]; [lia|].
  rewrite (Hb (minBucket h)) by (unfold bUCKETCOUNT in *; lia).
  set (first := samples_in_bucket samples (minBucket h)).
  destruct (first_bucket h first percentiles []) as [[ps res]|msg] eqn:Hfirst.
  - assert (~ Forall (fun p => p * float64 (count h) < float64 first) percentiles) as Hnot.
    { intros Hall. apply (first_bucket_panics h first percentiles []) in Hall as [msg Hmsg].
      congruence. }
    split.
    + intros [msg Hmsg]. destruct ps as [|p ps]; [discriminate|].
      destruct (later_buckets_returns h (Z.to_nat (maxBucket h - minBucket h))
                  (minBucket h + 1) first (p :: ps) res) as [out Hout]; [lia | |congruence].
      rewrite Hlen. unfold bUCKETCOUNT in *. 
      destruct samples as [|s0 samples'] eqn:Hs; [destruct (Hempty eq_refl) as [E1 E2]; rewrite E1, E2; cbn; lia|].
      specialize (Hmm ltac:(discriminate)). lia.
    + intros Hlt. exfalso. apply Hnot. rewrite Hcount.
      assert (0 <= float64 (Z.of_nat (length samples))) as Hnn.
      { unfold float64. change 0 with (inject_Z 0). rewrite <- Zle_Qle. lia. }
      unfold percentiles. repeat constructor; nra.
  - split; [|eauto]. intros _.
    assert (Forall (fun p => p * float64 (count h) < float64 first) percentiles) as Hall.
    { apply (first_bucket_panics h first percentiles []). eauto. }
    rewrite Hcount in Hall. unfold percentiles in Hall.
    rewrite !Forall_cons in Hall. destruct Hall as (_ & _ & _ & Hlast & _). exact Hlast.
Qed.

Lemma histogram_getPercentiles_panics_witness :
  exists h, addSamples [1] newHistogram = Ok h /\
            exists msg, getPercentiles h = Panic msg.
Proof.
  destruct (addSamples_total [1] newHistogram [] hist_of_new) as [h Hh].
  - repeat constructor.
  - exists h. split; [exact Hh|].
    apply (proj2 (histogram_getPercentiles_panics [1] h Hh)).
    destruct (proj1 (addSamples_hist [1] newHistogram h [] hist_of_new Hh))
      as (_ & _ & _ & _ & _ & _ & _ & Hne).
    destruct (Hne ltac:(discriminate)) as (_ & (s & Hs & Hmin) & _).
    apply list_elem_of_singleton in Hs. subst s. rewrite <- Hmin.
    vm_compute. reflexivity.
Defined.

End HistogramPercentiles.

(** ** More on the PS processor *)

Section PSExtra.
Import PSProcessor.

Lemma getMinService_from_first (l : list ReqInterface) :
  forall (pre : list ReqInterface) (minS : Q) (minI i : nat) (xm : ReqInterface),
    (pre ++ l) !! minI = Some xm -> remaining xm = minS ->
    (forall j y, (j < minI)%nat -> (pre ++ l) !! j = Some y -> minS < remaining y) ->
    (forall j y, (j < length pre)%nat -> (pre ++ l) !! j = Some y -> minS <= remaining y) ->
    getMinService_from l (length pre) minS minI = Some i ->
    exists x, (pre ++ l) !! i = Some x /\
              forall j y, (j < i)%nat -> (pre ++ l) !! j = Some y -> remaining x < remaining y.
Proof.
  induction l as [|a l IH]; intros pre minS minI i xm Hxm HminS Hbefore Hpre Hget.
  - cbn in Hget. simplify_eq. exists xm. split; [exact Hxm | exact Hbefore].
  - cbn [getMinService_from] in Hget.
    destruct (asRequest a) as [r|] eqn:Ha; [|discriminate]. cbn [mbind option_bind] in Hget.
    assert (remaining a = ServiceTime r) as Hra by (unfold remaining; destruct a; cbn in *; congruence).
    replace (pre ++ a :: l) with ((pre ++ [a]) ++ l) in * by (rewrite <- app_assoc; reflexivity).
    replace (S (length pre)) with (length (pre ++ [a])) in Hget by (rewrite length_app; simpl; lia).
    assert (((pre ++ [a]) ++ l) !! length pre = Some a) as Hat.
    { rewrite <- app_assoc. rewrite lookup_app_r by lia.
      replace (length pre - length pre)%nat with 0%nat by lia. reflexivity. }
    destruct (Qltb (ServiceTime r) minS) eqn:Hlt.
    + apply Qltb_iff in Hlt.
      apply (IH (pre ++ [a]) (ServiceTime r) (length pre) i a); [exact Hat | exact Hra | | | exact Hget].
      * intros j y Hj Hy. specialize (Hpre j y Hj Hy). lra.
      * intros j y Hj Hy. rewrite length_app in Hj. cbn in Hj.
        destruct (decide (j = length pre)) as [->|Hne].
        -- rewrite Hat in Hy. injection Hy as <-. rewrite Hra. lra.
        -- specialize (Hpre j y ltac:(lia) Hy). lra.
    + apply Qltb_false_iff in Hlt.
      apply (IH (pre ++ [a]) minS minI i xm); [exact Hxm | exact HminS | exact Hbefore | | exact Hget].
      intros j y Hj Hy. rewrite length_app in Hj. cbn in Hj.
      destruct (decide (j = length pre)) as [->|Hne].
      * rewrite Hat in Hy. injection Hy as <-. rewrite Hra. exact Hlt.
      * exact (Hpre j y ltac:(lia) Hy).
Qed.

Lemma getMinService_from_None (l : list ReqInterface) : forall (e : nat) (minS : Q) (minI : nat),
  getMinService_from l e minS minI = None <-> Exists (fun x => asRequest x = None) l.
Proof.
  induction l as [|a l IH]; intros e minS minI; cbn [getMinService_from].
  - split; [discriminate | intros Hex; inversion Hex].
  - destruct (asRequest a) as [r|] eqn:Ha; cbn [mbind option_bind].
    + rewrite Exists_cons.
      destruct (Qltb (ServiceTime r) minS); rewrite IH; split; auto; intros [Hc|Hc]; [congruence|assumption|congruence|assumption].
    + split; [intros _; left; exact Ha | reflexivity].
Qed.

(** X14.  [getMinService] panics exactly when the list is empty or holds
    a request that is not a pointer to a [Request]; otherwise it returns the
    first element with the least service time left: no element has less,
    and every element before it has more. *)
Theorem getMinService_first_least (p : t) :
  (getMinService p = None <->
   reqList p = [] \/ Exists (fun x => asRequest x = None) (reqList p)) /\
  (forall i, getMinService p = Some i ->
     exists x, reqList p !! i = Some x /\
               (forall y, y ∈ reqList p -> remaining x <= remaining y) /\
               (forall j y, (j < i)%nat -> reqList p !! j = Some y -> remaining x < remaining y)).
Proof.
  split.
  - unfold getMinService. destruct (reqList p) as [|front l] eqn:Hl.
    + cbn. split; [auto | reflexivity].
    + cbn [head mbind option_bind].
      destruct (asRequest front) as [r|] eqn:Hf; cbn [mbind option_bind].
      * rewrite getMinService_from_None. split; [auto | intros [Hc|Hc]; [discriminate | exact Hc]].
      * split; [intros _; right; left; exact Hf | reflexivity].
  - intros i Hget.
    destruct (getMinService_spec p i Hget) as (x & Hx & Hleast).
    exists x. split; [exact Hx|]. split; [exact Hleast|].
    unfold getMinService in Hget.
    destruct (reqList p) as [|front l] eqn:Hl; [discriminate|].
    cbn [head mbind option_bind] in Hget.
    destruct (asRequest front) as [r|] eqn:Hf; [|discriminate].
    cbn [mbind option_bind] in Hget.
    destruct (getMinService_from_first (front :: l) [] (ServiceTime r) 0 i front eq_refl)
      as (x' & Hx' & Hfirst); [ | | | exact Hget | ].
    + unfold remaining; destruct front; cbn in *; congruence.
    + intros j y Hj. lia.
    + intros j y Hj. cbn in Hj. lia.
    + cbn [app] in Hx', Hfirst. assert (x' = x) as -> by congruence. exact Hfirst.
Qed.





Lemma remaining_SubServiceTime (diff : Q) (x : ReqInterface) :
  remaining (RI_SubServiceTime diff x) = remaining x - diff.
Proof. unfold remaining. rewrite base_SubServiceTime. reflexivity. Qed.





End PSExtra.

(** ** The timer of the PS processor *)

Section PSRunExtra.
Import PSProcessor.

Lemma timer_inv_step (cores : Z) (s s' : RunState) (tm : Q) (intr : bool)
    (newReq : option ReqInterface) :
  (0 < cores)%Z ->
  bounds_inv cores s -> timer_inv s ->
  WaitInterruptible (clock s) (d s) tm intr newReq ->
  iteration tm intr newReq s = Some s' ->
  timer_inv s'.
Proof.
  intros Hcores (Hw & Hcount & Hprev & _ & _ & _ & Hidle) [Hbusy Hdone] Hwait Hit.
  apply iteration_inv in Hit as (p1 & log & Hacc & Hrearm).
  apply Run_rearm_inv in Hrearm
    as (Hclock & Hlog & Hw' & Hc' & Hl' & Hp' & Hf' & Hd'pos & Hd'zero).
  unfold timer_inv. cbv zeta. rewrite Hc', Hl', Hf', Hlog.
  assert (workerCount p1 = cores) as Hw1.
  { destruct intr.
    - apply Run_account_timer in Hacc as (i & req & _ & _ & _ & _ & _ & Hw1 & _).
      rewrite Hw1. exact Hw.
    - apply Run_account_arrival in Hacc as (r & _ & _ & _ & _ & Hw1 & _).
      rewrite Hw1. exact Hw. }
  split.
  - intros Hpos. destruct (Hd'pos Hpos) as (i & x & Hci & Hx & Hleast & Hd).
    exists i, x. split; [exact Hci|]. split; [exact Hx|]. split; [exact Hleast|].
    pose proof (getFactor_pos p1 ltac:(lia)) as Hf1.
    rewrite Hd. field. lra.
  - destruct Hwait as [tm Hd0 Htm | tm r Hge Hor].
    + apply Run_account_timer in Hacc as (i & req & Hci & Hreq & -> & _ & Hc1 & _ & _).
      change (count (updateServiceTimes tm (proc s))) with (count (proc s)) in Hc1.
      change (curr (updateServiceTimes tm (proc s))) with (curr (proc s)) in Hci.
      intros tm' x Hx. apply elem_of_app in Hx as [Hx|Hx]; [exact (Hdone tm' x Hx)|].
      apply list_elem_of_singleton in Hx. injection Hx as -> ->.
      assert (0 < count (proc s))%Z as Hpos.
      { destruct (Z.lt_ge_cases 0 (count (proc s))) as [Hp|Hn]; [exact Hp|].
        specialize (Hidle ltac:(lia)). lra. }
      destruct (Hbusy Hpos) as (i0 & x0 & Hci0 & Hx0 & _ & Hdx0).
      assert (i0 = i) as -> by congruence.
      change (reqList (updateServiceTimes tm (proc s)))
        with (map (RI_SubServiceTime ((tm - prevTime (proc s)) * getFactor (proc s)))
                  (reqList (proc s))) in Hreq.
      rewrite list_lookup_fmap, Hx0 in Hreq. cbn in Hreq. injection Hreq as <-.
      rewrite remaining_SubServiceTime, Hprev, <- Hdx0, Htm. ring.
    + apply Run_account_arrival in Hacc as (r' & _ & -> & _). exact Hdone.
Qed.

Lemma timer_inv_Run (cores : Z) (s : RunState) :
  (0 < cores)%Z ->
  Run (fun _ x => bounded x) (fun _ => True) cores s -> timer_inv s.
Proof.
  intros Hcores HRun.
  induction HRun as [|s s' tm intr newReq HRun IH Hwait Hadm Hit _].
  - split; [cbn; lia|]. intros tm x Hx. apply elem_of_nil in Hx. contradiction.
  - exact (timer_inv_step cores s s' tm intr newReq Hcores
             (bounds_inv_Run cores s Hcores HRun) IH Hwait Hit).
Qed.

Lemma getMinService_all_requests (p : t) (i : nat) :
  getMinService p = Some i -> Forall (fun x => is_Some (asRequest x)) (reqList p).
Proof.
  unfold getMinService. intros Hget.
  destruct (reqList p) as [|front l] eqn:Hl; [discriminate|].
  cbn [head mbind option_bind] in Hget.
  destruct (asRequest front) as [r|] eqn:Hf; [|discriminate].
  cbn [mbind option_bind] in Hget.
  apply Forall_forall. intros x Hx.
  destruct (asRequest x) as [rx|] eqn:Hrx; [eauto|]. exfalso.
  assert (getMinService_from (front :: l) 0 (ServiceTime r) 0 = None) as Hnone.
  { apply getMinService_from_None. apply Exists_exists. exists x. split; assumption. }
  congruence.
Qed.

Lemma Run_rearm_requests (now : Q) (p : t) (log : list (Q * ReqInterface)) (s' : RunState) :
  Run_rearm now p log = Some s' ->
  count p = Z.of_nat (length (reqList p)) ->
  Forall (fun x => is_Some (asRequest x)) (reqList p).
Proof.
  unfold Run_rearm. intros Hre Hcount.
  destruct (Z.gtb_spec (count p) 0) as [Hpos|Hzero].
  - destruct (getMinService p) as [i|] eqn:Hmin; [|discriminate].
    exact (getMinService_all_requests p i Hmin).
  - destruct (reqList p); [constructor | cbn in Hcount; lia].
Qed.

Lemma rearmed_step (cores : Z) (s s' : RunState) (tm : Q) (intr : bool)
    (newReq : option ReqInterface) :
  rearmed cores s ->
  iteration tm intr newReq s = Some s' ->
  rearmed cores s'.
Proof.
  intros (Hw & Hcount & _ & _ & _ & _) Hit.
  apply iteration_inv in Hit as (p1 & log & Hacc & Hrearm).
  pose proof Hrearm as Hre.
  apply Run_rearm_inv in Hrearm
    as (Hclock & Hlog & Hw' & Hc' & Hl' & Hp' & Hf' & Hd'pos & Hd'zero).
  assert (workerCount p1 = cores /\ count p1 = Z.of_nat (length (reqList p1)) /\
          prevTime p1 = tm) as (Hw1 & Hc1 & Hp1).
  { destruct intr.
    - apply Run_account_timer in Hacc as (i & req & _ & Hreq & _ & Hl1 & Hc1 & Hw1 & Hp1).
      change (count (updateServiceTimes tm (proc s))) with (count (proc s)) in Hc1.
      change (workerCount (updateServiceTimes tm (proc s))) with (workerCount (proc s)) in Hw1.
      split; [congruence|]. split; [|exact Hp1].
      pose proof (lookup_lt_Some _ _ _ Hreq) as Hlt.
      rewrite Hc1, Hl1, length_delete by eauto.
      change (reqList (updateServiceTimes tm (proc s)))
        with (map (RI_SubServiceTime ((tm - prevTime (proc s)) * getFactor (proc s)))
                  (reqList (proc s))) in *.
      rewrite length_map in *. lia.
    - apply Run_account_arrival in Hacc as (r & _ & _ & Hl1 & Hc1 & Hw1 & Hp1).
      change (count (updateServiceTimes tm (proc s))) with (count (proc s)) in Hc1.
      change (workerCount (updateServiceTimes tm (proc s))) with (workerCount (proc s)) in Hw1.
      split; [congruence|]. split; [|exact Hp1].
      rewrite Hc1, Hl1, length_app.
      change (reqList (updateServiceTimes tm (proc s)))
        with (map (RI_SubServiceTime ((tm - prevTime (proc s)) * getFactor (proc s)))
                  (reqList (proc s))).
      rewrite length_map. cbn. lia. }
  unfold rearmed. cbv zeta. rewrite Hw', Hc', Hl', Hp', Hclock, Hf'.
  split; [exact Hw1|]. split; [exact Hc1|]. split; [exact Hp1|].
  split; [exact (Run_rearm_requests tm p1 log s' Hre Hc1)|].
  split; [exact Hd'zero | exact Hd'pos].
Qed.



End PSRunExtra.

(** ** Runs of the other processors on a FIFO queue *)

Section RTCOrder.

Lemma terminations_app (t1 t2 : list Event) :
  terminations (t1 ++ t2) = terminations t1 ++ terminations t2.
Proof. unfold terminations. apply omap_app. Qed.

Lemma count_events_app (f : Event -> bool) (t1 t2 : list Event) :
  count_events f (t1 ++ t2) = (count_events f t1 + count_events f t2)%nat.
Proof. unfold count_events. rewrite filter_app, length_app. reflexivity. Qed.

Lemma count_events_cons (f : Event -> bool) (e : Event) (tr : list Event) :
  count_events f (e :: tr) = ((if f e then 1 else 0) + count_events f tr)%nat.
Proof.
  unfold count_events. rewrite filter_cons.
  destruct (decide (f e = true)) as [Hd|Hd].
  - rewrite Hd. reflexivity.
  - apply not_true_is_false in Hd. rewrite Hd. reflexivity.
Qed.

Lemma count_events_nil (f : Event -> bool) : count_events f [] = 0%nat.
Proof. reflexivity. Qed.

Lemma RTC_body_FIFO (p : RTCProcessor.t) (w : World Queue.Queue) (r : ReqInterface)
    (rest : list ReqInterface) :
  Queue.l (inQueue w) = r :: rest ->
  exists w',
    RTCProcessor.body p w = Ret tt w' /\
    now w' = now w + (RI_GetServiceTime r + RTCProcessor.ctxCost p) /\
    inQueue w' = Queue.mkQueue rest (Queue.id (inQueue w)) /\
    outQueue w' = outQueue w /\
    terminations (trace w') =
      terminations (trace w) ++
      [(now w + (RI_GetServiceTime r + RTCProcessor.ctxCost p),
        match r with
        | MonitorReq b i _ => MonitorReq b i (Z.of_nat (length rest))
        | _ => r
        end)].
Proof.
  intros Hq. unfold RTCProcessor.body. unfold bind at 1.
  rewrite (ReadInQueue_FIFO w r rest Hq).
  unfold bind, Wait, GetInQueueLen, TerminateReq, ret, record.
  destruct r; cbn [now inQueue outQueue trace Len Queue_QueueInterface];
    (eexists; split; [reflexivity|]; cbn [now inQueue outQueue trace];
     split; [reflexivity|]; split; [reflexivity|]; split; [reflexivity|];
     rewrite !terminations_app; cbn; rewrite ?app_nil_r; reflexivity).
Qed.

(** X19.  An RTC processor left alone with the requests [rs] in its FIFO
    queue terminates all of them in the order of the queue, each one when
    its service time and the context cost have passed since the one before,
    a [MonitorReq] with the number of requests behind it as final length;
    then the queue is empty, the clock has advanced by the sum of the
    service times and context costs, and the processor blocks. *)
Theorem RTC_serves_in_arrival_order (p : RTCProcessor.t) (k : nat) :
  forall w : World Queue.Queue,
  let rs := Queue.l (inQueue w) in
  exists w',
    RTCProcessor.Run p (length rs + 1 + k) w = Blocked w' /\
    terminations (trace w') =
      terminations (trace w) ++ RTC_completions (RTCProcessor.ctxCost p) (now w) rs /\
    Queue.l (inQueue w') = [] /\
    now w' == now w + Qsum (fun r => RI_GetServiceTime r + RTCProcessor.ctxCost p) rs.
Proof.
  intros w rs. remember rs as l eqn:Hl. subst rs. revert w Hl.
  induction l as [|r rest IH]; intros w Hl.
  - exists w. unfold RTCProcessor.Run. cbn [length Nat.add loop]. unfold bind.
    assert (RTCProcessor.body p w = Blocked w) as ->.
    { unfold RTCProcessor.body, bind, ReadInQueue. cbn [Len Queue_QueueInterface].
      unfold Queue.Len. rewrite <- Hl. reflexivity. }
    split; [reflexivity|]. cbn [RTC_completions]. rewrite app_nil_r.
    split; [reflexivity|]. split; [symmetry; exact Hl|]. unfold Qsum. cbn. ring.
  - destruct (RTC_body_FIFO p w r rest (eq_sym Hl)) as (w1 & Hb & Hnow & Hin & Hout & Htr).
    destruct (IH w1) as (w' & HR & Htr' & Hq' & Hnow'); [rewrite Hin; reflexivity|].
    exists w'. unfold RTCProcessor.Run in *. cbn [length Nat.add loop]. unfold bind at 1.
    rewrite Hb. split; [exact HR|]. split; [|split; [exact Hq'|]].
    + rewrite Htr', Htr, <- app_assoc, Hnow. reflexivity.
    + rewrite Hnow', Hnow, Qsum_cons. ring.
Qed.

End RTCOrder.

Section TSGeneral.

Lemma TS_body_FIFO_done (p : TSProcessor.t) (w : World Queue.Queue) (r : ReqInterface)
    (rest : list ReqInterface) :
  Queue.l (inQueue w) = r :: rest ->
  remaining r <= TSProcessor.quantum p ->
  TSProcessor.body p w =
    Ret tt {| now := now w + (RI_GetServiceTime r + TSProcessor.ctxCost p);
              inQueue := Queue.mkQueue rest (Queue.id (inQueue w));
              outQueue := outQueue w;
              trace := trace w ++ [EvRead r]
                         ++ [EvWait (RI_GetServiceTime r + TSProcessor.ctxCost p)]
                         ++ [EvTerminate (now w + (RI_GetServiceTime r + TSProcessor.ctxCost p)) r] |}.
Proof.
  intros Hq Hle. unfold TSProcessor.body. unfold bind at 1.
  rewrite (ReadInQueue_FIFO w r rest Hq).
  apply Qle_bool_iff in Hle. unfold remaining in Hle.
  unfold RI_GetServiceTime at 1, GetServiceTime. rewrite Hle.
  unfold bind, Wait, TerminateReq, record. cbn [now inQueue outQueue trace].
  rewrite <- !app_assoc. reflexivity.
Qed.

Lemma TS_body_FIFO_preempted (p : TSProcessor.t) (w : World Queue.Queue) (r : ReqInterface)
    (rest : list ReqInterface) :
  Queue.l (inQueue w) = r :: rest ->
  TSProcessor.quantum p < remaining r ->
  TSProcessor.body p w =
    Ret tt {| now := now w + (TSProcessor.quantum p + TSProcessor.ctxCost p);
              inQueue := Queue.mkQueue (rest ++ [RI_SubServiceTime (TSProcessor.quantum p) r])
                           (Queue.id (inQueue w));
              outQueue := outQueue w;
              trace := trace w ++ [EvRead r]
                         ++ [EvWait (TSProcessor.quantum p + TSProcessor.ctxCost p)]
                         ++ [EvSub (TSProcessor.quantum p)]
                         ++ [EvWriteIn (RI_SubServiceTime (TSProcessor.quantum p) r)] |}.
Proof.
  intros Hq Hlt. unfold TSProcessor.body. unfold bind at 1.
  rewrite (ReadInQueue_FIFO w r rest Hq).
  assert (Qle_bool (RI_GetServiceTime r) (TSProcessor.quantum p) = false) as ->.
  { apply not_true_iff_false. intros Hc. apply Qle_bool_iff in Hc.
    unfold remaining, RI_GetServiceTime, GetServiceTime in *. lra. }
  unfold bind, Wait, SubServiceTimeOf, WriteInQueue, record.
  cbn [now inQueue outQueue trace Enqueue Queue_QueueInterface].
  unfold Queue.Enqueue. cbn [Queue.l Queue.id].
  rewrite <- !app_assoc. reflexivity.
Qed.

(** The rounds of a time-sharing processor on one request, when the
    numbers are computed exactly: with [n * q < s <= (n+1) * q] there are
    [n + 1] of them. *)
Lemma TS_one_request_rounds (p : TSProcessor.t) (n k : nat) :
  forall (w : World Queue.Queue) (r : ReqInterface),
  Queue.l (inQueue w) = [r] ->
  0 < TSProcessor.quantum p ->
  float64 (Z.of_nat n) * TSProcessor.quantum p < remaining r ->
  remaining r <= float64 (Z.of_nat (n + 1)) * TSProcessor.quantum p ->
  exists w' tm r',
    TSProcessor.Run p (n + 2 + k) w = Blocked w' /\
    terminations (trace w') = terminations (trace w) ++ [(tm, r')] /\
    tm == now w + remaining r + float64 (Z.of_nat (n + 1)) * TSProcessor.ctxCost p /\
    now w' = tm /\
    differs_in_service_only r r' (remaining r') /\
    remaining r' == remaining r - float64 (Z.of_nat n) * TSProcessor.quantum p /\
    count_events is_read (trace w') = (count_events is_read (trace w) + (n + 1))%nat /\
    count_events is_write_in (trace w') = (count_events is_write_in (trace w) + n)%nat /\
    Queue.l (inQueue w') = [].
Proof.
  induction n as [|n IH]; intros w r Hq Hquantum Hlow Hhigh.
  - assert (remaining r <= TSProcessor.quantum p) as Hle.
    { assert (float64 (Z.of_nat (0 + 1)) == 1) as H1 by reflexivity.
      rewrite H1 in Hhigh. lra. }
    pose proof (TS_body_FIFO_done p w r [] Hq Hle) as Hb.
    eexists. exists (now w + (RI_GetServiceTime r + TSProcessor.ctxCost p)), r.
    split.
    { unfold TSProcessor.Run. cbn [Nat.add loop]. unfold bind at 1. rewrite Hb.
      unfold bind. unfold TSProcessor.body, bind, ReadInQueue.
      cbn [inQueue Len Queue_QueueInterface]. unfold Queue.Len. cbn [Queue.l length Z.of_nat Z.ltb].
      cbn. reflexivity. }
    cbn [trace now inQueue Queue.l].
    split; [rewrite !terminations_app; cbn; rewrite ?app_nil_r; reflexivity|].
    split; [unfold float64, RI_GetServiceTime, GetServiceTime, remaining; cbn; ring|].
    split; [reflexivity|].
    split; [unfold differs_in_service_only, remaining; destruct r as [[]|[] ?|[] ? ?|[] ?]; reflexivity|].
    split; [unfold float64; cbn; ring|].
    split; [rewrite !count_events_app, !count_events_cons, !count_events_nil; cbn [is_read is_write_in]; lia|].
    split; [rewrite !count_events_app, !count_events_cons, !count_events_nil; cbn [is_read is_write_in]; lia | reflexivity].
  - assert (float64 (Z.of_nat (S n)) == float64 (Z.of_nat n) + 1) as HS.
    { unfold float64. rewrite Nat2Z.inj_succ, <- Z.add_1_r, inject_Z_plus. reflexivity. }
    assert (float64 (Z.of_nat (S n + 1)) == float64 (Z.of_nat (n + 1)) + 1) as HS1.
    { unfold float64. replace (S n + 1)%nat with (S (n + 1)) by lia.
      rewrite Nat2Z.inj_succ, <- Z.add_1_r, inject_Z_plus. reflexivity. }
    assert (0 <= float64 (Z.of_nat n)) as Hn0.
    { unfold float64. change 0 with (inject_Z 0). rewrite <- Zle_Qle. lia. }
    rewrite HS in Hlow. rewrite HS1 in Hhigh.
    assert (TSProcessor.quantum p < remaining r) as Hgt by nra.
    pose proof (TS_body_FIFO_preempted p w r [] Hq Hgt) as Hb.
    set (r1 := RI_SubServiceTime (TSProcessor.quantum p) r) in *.
    set (w1 := {| now := now w + (TSProcessor.quantum p + TSProcessor.ctxCost p);
                  inQueue := Queue.mkQueue ([] ++ [r1]) (Queue.id (inQueue w));
                  outQueue := outQueue w;
                  trace := trace w ++ [EvRead r] ++ [EvWait (TSProcessor.quantum p + TSProcessor.ctxCost p)]
                             ++ [EvSub (TSProcessor.quantum p)] ++ [EvWriteIn r1] |}) in *.
    assert (remaining r1 = remaining r - TSProcessor.quantum p) as Hr1
      by (subst r1; apply remaining_SubServiceTime).
    destruct (IH w1 r1) as (w' & tm & r' & HR & Htr & Htm & Hnow & Hdiff & Hrem & Hreads & Hwrites & Hq');
      [reflexivity | exact Hquantum | rewrite Hr1; nra | rewrite Hr1; nra |].
    exists w', tm, r'.
    split.
    { unfold TSProcessor.Run in *. cbn [Nat.add loop]. unfold bind at 1. rewrite Hb. exact HR. }
    split.
    { rewrite Htr. subst w1. cbn [trace]. rewrite !terminations_app. cbn. rewrite !app_nil_r. reflexivity. }
    split.
    { rewrite Htm. subst w1. cbn [now]. rewrite Hr1, HS1. ring. }
    split; [exact Hnow|].
    split.
    { unfold differs_in_service_only in *. rewrite Hdiff. subst r1.
      destruct r as [[]|[] ?|[] ? ?|[] ?]; reflexivity. }
    split; [rewrite Hrem, Hr1, HS; ring|].
    split.
    { rewrite Hreads. subst w1. cbn [trace]. rewrite !count_events_app, !count_events_cons, !count_events_nil. cbn [is_read is_write_in]. lia. }
    split; [|exact Hq'].
    rewrite Hwrites. subst w1. cbn [trace]. rewrite !count_events_app, !count_events_cons, !count_events_nil. cbn [is_read is_write_in]. lia.
Qed.

(** X20.  A time-sharing processor finds one request in its FIFO queue.
    The quantum [q], the context cost [c], the service time [s] and the
    clock [t0] are whole numbers, with [q] positive, [n * q < s <= (n+1) * q]
    and [t0 + s + (n+1) * c] at most 2^53, so that no operation of the
    processor on them rounds.  The processor reads the request [n + 1] times
    and writes it back [n] times, then terminates it, with [s - n * q] left
    on it and nothing else changed, at the time [t0 + s + (n+1) * c], and
    blocks. *)
Theorem TS_serves_one_request_in_quanta (p : TSProcessor.t) (n k : nat) (q s c t0 : Z)
    (w : World Queue.Queue) (r : ReqInterface) :
  Queue.l (inQueue w) = [r] ->
  TSProcessor.quantum p == float64 q ->
  TSProcessor.ctxCost p == float64 c ->
  remaining r == float64 s ->
  now w == float64 t0 ->
  (0 < q <= 2 ^ 53)%Z -> (0 <= c)%Z -> (0 <= t0)%Z ->
  (Z.of_nat n * q < s <= (Z.of_nat n + 1) * q)%Z ->
  (t0 + s + (Z.of_nat n + 1) * c <= 2 ^ 53)%Z ->
  exists w' tm r',
    TSProcessor.Run p (n + 2 + k) w = Blocked w' /\
    terminations (trace w') = terminations (trace w) ++ [(tm, r')] /\
    tm == float64 (t0 + s + (Z.of_nat n + 1) * c) /\
    now w' = tm /\
    differs_in_service_only r r' (remaining r') /\
    remaining r' == float64 (s - Z.of_nat n * q) /\
    count_events is_read (trace w') = (count_events is_read (trace w) + (n + 1))%nat /\
    count_events is_write_in (trace w') = (count_events is_write_in (trace w) + n)%nat /\
    Queue.l (inQueue w') = [].
Proof.
  intros Hq Hquantum Hctx Hrem Hnow Hqpos _ _ Hs _.
  assert (float64 (Z.of_nat (n + 1)) == float64 (Z.of_nat n) + 1) as HS.
  { unfold float64. rewrite Nat2Z.inj_add, inject_Z_plus. reflexivity. }
  destruct (TS_one_request_rounds p n k w r Hq) as
    (w' & tm & r' & HR & Htr & Htm & Hnow' & Hdiff & Hrem' & Hreads & Hwrites & Hq').
  - rewrite Hquantum. unfold float64. change 0 with (inject_Z 0). rewrite <- Zlt_Qlt. lia.
  - rewrite Hquantum, Hrem. unfold float64. rewrite <- inject_Z_mult, <- Zlt_Qlt. lia.
  - rewrite Hquantum, Hrem, HS. unfold float64.
    change 1 with (inject_Z 1). rewrite <- inject_Z_plus, <- inject_Z_mult, <- Zle_Qle. lia.
  - exists w', tm, r'. split; [exact HR|]. split; [exact Htr|]. split.
    { rewrite Htm, Hnow, Hrem, Hctx, HS. unfold float64.
      rewrite !inject_Z_plus, !inject_Z_mult, inject_Z_plus. reflexivity. }
    split; [exact Hnow'|]. split; [exact Hdiff|]. split.
    { rewrite Hrem', Hrem, Hquantum. unfold float64.
      unfold Z.sub. rewrite inject_Z_plus, inject_Z_opp, inject_Z_mult. reflexivity. }
    split; [exact Hreads|]. split; [exact Hwrites | exact Hq'].
Qed.

Lemma TS_serves_one_request_in_quanta_witness :
  let r := PlainReq (mkRequest 0 25 25) in
  let p := TSProcessor.NewTSProcessor 10 1 in
  let w := {| now := 0; inQueue := Queue.mkQueue [r] 0; outQueue := Queue.mkQueue [] 1;
              trace := [] |} in
  (2 * 10 < 25 <= (2 + 1) * 10)%Z /\
  exists w' tm r',
    TSProcessor.Run p 4 w = Blocked w' /\
    terminations (trace w') = [(tm, r')] /\
    tm == 28 /\
    remaining r' == 5.
Proof.
  intros r p w. split; [lia|].
  destruct (TS_serves_one_request_in_quanta p 2 0 10 25 1 0 w r eq_refl)
    as (w' & tm & r' & HR & Htr & Htm & _ & _ & Hrem & _);
    try reflexivity; try (vm_compute; intuition discriminate).
  exists w', tm, r'. split; [exact HR|]. split; [exact Htr|].
  split; [rewrite Htm; decide_Q | rewrite Hrem; decide_Q].
Defined.

End TSGeneral.

Section BoundedRuns.

Lemma terminated_requests_app (t1 t2 : list Event) :
  terminated_requests (t1 ++ t2) = terminated_requests t1 ++ terminated_requests t2.
Proof. unfold terminated_requests. rewrite terminations_app. apply fmap_app. Qed.

Lemma BoundedProcessor_body_forwards (p : BoundedProcessor.t) (factor : Q)
    (w : World Queue.Queue) (req : ReqInterface) (rest : list ReqInterface) :
  Queue.l (inQueue w) = req :: rest ->
  (Queue.Len (outQueue w) < BoundedProcessor.bufSize p)%Z ->
  exists f w', BoundedProcessor.body p factor w = Ret f w' /\
    Queue.l (inQueue w') = rest /\
    Queue.l (outQueue w') = Queue.l (outQueue w) ++ [req] /\
    terminated_requests (trace w') = terminated_requests (trace w).
Proof.
  intros Hq Hlen. unfold BoundedProcessor.body.
  unfold bind at 1. rewrite (ReadInQueue_FIFO w req rest Hq).
  unfold bind, Wait, GetOutQueueLen, WriteOutQueue, TerminateReq, ret, record.
  cbn [now inQueue outQueue trace Len Enqueue Queue_QueueInterface].
  apply Z.ltb_lt in Hlen. rewrite Hlen.
  eexists; eexists; split; [reflexivity|]. cbn [inQueue outQueue trace Queue.l Queue.Enqueue].
  split; [reflexivity|]. split; [reflexivity|].
  rewrite !terminated_requests_app. cbn. rewrite !app_nil_r. reflexivity.
Qed.

Lemma BoundedProcessor_body_drops (p : BoundedProcessor.t) (factor : Q)
    (w : World Queue.Queue) (req : ReqInterface) (rest : list ReqInterface) :
  Queue.l (inQueue w) = req :: rest ->
  (BoundedProcessor.bufSize p <= Queue.Len (outQueue w))%Z ->
  exists f w', BoundedProcessor.body p factor w = Ret f w' /\
    Queue.l (inQueue w') = rest /\
    outQueue w' = outQueue w /\
    terminated_requests (trace w') = terminated_requests (trace w) ++ [req].
Proof.
  intros Hq Hlen. unfold BoundedProcessor.body.
  unfold bind at 1. rewrite (ReadInQueue_FIFO w req rest Hq).
  unfold bind, Wait, GetOutQueueLen, WriteOutQueue, TerminateReq, ret, record.
  cbn [now inQueue outQueue trace Len Enqueue Queue_QueueInterface].
  apply Z.ltb_ge in Hlen. rewrite Hlen.
  eexists; eexists; split; [reflexivity|]. cbn [inQueue outQueue trace Queue.l].
  split; [reflexivity|]. split; [reflexivity|].
  rewrite !terminated_requests_app. cbn. rewrite !app_nil_r. reflexivity.
Qed.

Lemma body_blocks_on_empty (p : BoundedProcessor.t) (factor : Q) (w : World Queue.Queue) :
  Queue.l (inQueue w) = [] -> BoundedProcessor.body p factor w = Blocked w.
Proof.
  intros Hq. unfold BoundedProcessor.body, bind, ReadInQueue.
  cbn [Len Queue_QueueInterface]. unfold Queue.Len. rewrite Hq. reflexivity.
Qed.

(** X21.  A [BoundedProcessor] left alone with the requests [rs] in its
    FIFO input queue forwards the first of them to the output queue, as
    many as there is room for ([bufSize] minus the length of that queue),
    behind the requests it holds, and hands the others to the drain; both
    in the order of arrival and unchanged.  It then blocks on the empty
    input queue. *)
Theorem BoundedProcessor_fills_the_buffer (p : BoundedProcessor.t) (k : nat) :
  forall (w : World Queue.Queue) (factor : Q),
  let rs := Queue.l (inQueue w) in
  exists w',
    loop_with (BoundedProcessor.body p) (length rs + 1 + k) factor w = Blocked w' /\
    Queue.l (inQueue w') = [] /\
    Queue.l (outQueue w') =
      Queue.l (outQueue w) ++ take (room (BoundedProcessor.bufSize p) w) rs /\
    terminated_requests (trace w') =
      terminated_requests (trace w) ++ drop (room (BoundedProcessor.bufSize p) w) rs.
Proof.
  intros w factor rs. remember rs as l eqn:Hl. subst rs. revert w factor Hl.
  induction l as [|r rest IH]; intros w factor Hl.
  - exists w. cbn [length Nat.add loop_with]. unfold bind.
    rewrite (body_blocks_on_empty p factor w (eq_sym Hl)).
    split; [reflexivity|]. split; [symmetry; exact Hl|].
    rewrite take_nil, drop_nil, !app_nil_r. split; reflexivity.
  - cbn [length Nat.add loop_with]. unfold bind at 1.
    destruct (Z.lt_ge_cases (Queue.Len (outQueue w)) (BoundedProcessor.bufSize p)) as [Hlt|Hge].
    + destruct (BoundedProcessor_body_forwards p factor w r rest (eq_sym Hl) Hlt)
        as (f & w1 & Hb & Hin & Hout & Htr).
      rewrite Hb. destruct (IH w1 f (eq_sym Hin)) as (w' & HR & Hin' & Hout' & Htr').
      exists w'. split; [exact HR|]. split; [exact Hin'|].
      assert (room (BoundedProcessor.bufSize p) w = S (room (BoundedProcessor.bufSize p) w1)) as ->.
      { unfold room, Queue.Len in *. rewrite Hout, length_app. cbn [length]. lia. }
      cbn [take drop]. split.
      * rewrite Hout', Hout, <- app_assoc. reflexivity.
      * rewrite Htr', Htr. reflexivity.
    + destruct (BoundedProcessor_body_drops p factor w r rest (eq_sym Hl) Hge)
        as (f & w1 & Hb & Hin & Hout & Htr).
      rewrite Hb. destruct (IH w1 f (eq_sym Hin)) as (w' & HR & Hin' & Hout' & Htr').
      exists w'. split; [exact HR|]. split; [exact Hin'|].
      assert (room (BoundedProcessor.bufSize p) w1 = 0%nat) as Hr1
        by (unfold room; rewrite Hout; lia).
      assert (room (BoundedProcessor.bufSize p) w = 0%nat) as -> by (unfold room; lia).
      rewrite Hr1 in *. cbn [take drop] in *. split.
      * rewrite Hout', Hout, take_0. reflexivity.
      * rewrite Htr', Htr, drop_0, <- app_assoc. reflexivity.
Qed.

Lemma BoundedProcessor2_body_terminates (p : BoundedProcessor2.t) (factor : Q)
    (w : World Queue.Queue) (req : ReqInterface) (rest : list ReqInterface) :
  Queue.l (inQueue w) = req :: rest ->
  exists f w', BoundedProcessor2.body p factor w = Ret f w' /\
    Queue.l (inQueue w') = rest /\
    outQueue w' = outQueue w /\
    terminated_requests (trace w') = terminated_requests (trace w) ++ [req].
Proof.
  intros Hq. unfold BoundedProcessor2.body.
  unfold bind at 1. rewrite (ReadInQueue_FIFO w req rest Hq).
  unfold bind, Wait, TerminateReq, ret, record.
  cbn [now inQueue outQueue trace].
  eexists; eexists; split; [reflexivity|]. cbn [inQueue outQueue trace Queue.l].
  split; [reflexivity|]. split; [reflexivity|].
  rewrite !terminated_requests_app. cbn. rewrite !app_nil_r. reflexivity.
Qed.

(** X22.  A [BoundedProcessor2] left alone with the requests [rs] in its
    FIFO input queue hands all of them to the drain, unchanged and in
    order, leaves the output queue as it is, and blocks. *)
Theorem BoundedProcessor2_terminates_everything (p : BoundedProcessor2.t) (k : nat) :
  forall (w : World Queue.Queue) (factor : Q),
  let rs := Queue.l (inQueue w) in
  exists w',
    loop_with (BoundedProcessor2.body p) (length rs + 1 + k) factor w = Blocked w' /\
    Queue.l (inQueue w') = [] /\
    outQueue w' = outQueue w /\
    terminated_requests (trace w') = terminated_requests (trace w) ++ rs.
Proof.
  intros w factor rs. remember rs as l eqn:Hl. subst rs. revert w factor Hl.
  induction l as [|r rest IH]; intros w factor Hl.
  - exists w. cbn [length Nat.add loop_with]. unfold bind.
    assert (BoundedProcessor2.body p factor w = Blocked w) as ->.
    { unfold BoundedProcessor2.body, bind, ReadInQueue.
      cbn [Len Queue_QueueInterface]. unfold Queue.Len. rewrite <- Hl. reflexivity. }
    split; [reflexivity|]. split; [symmetry; exact Hl|].
    rewrite app_nil_r. split; reflexivity.
  - cbn [length Nat.add loop_with]. unfold bind at 1.
    destruct (BoundedProcessor2_body_terminates p factor w r rest (eq_sym Hl))
      as (f & w1 & Hb & Hin & Hout & Htr).
    rewrite Hb. destruct (IH w1 f (eq_sym Hin)) as (w' & HR & Hin' & Hout' & Htr').
    exists w'. split; [exact HR|]. split; [exact Hin'|]. split.
    + rewrite Hout', Hout. reflexivity.
    + rewrite Htr', Htr, <- app_assoc. reflexivity.
Qed.

End BoundedRuns.

(** ** The CDF generator *)

Section CDFSample.
Import cdfDistrib.

Lemma index_Some (s : list Q) (i : nat) (v : Q) : s !! i = Some v -> index s i = Ok v.
Proof. intros Hs. unfold index. rewrite Hs. reflexivity. Qed.

Lemma index_lt (s : list Q) (i : nat) :
  (i < length s)%nat -> exists v, s !! i = Some v /\ index s i = Ok v.
Proof.
  intros Hi. destruct (lookup_lt_is_Some_2 s i Hi) as [v Hv].
  exists v. split; [exact Hv | apply index_Some, Hv].
Qed.

Lemma frac_range (u pi pim : Q) :
  pim < u -> u <= pi -> 0 <= (u - pim) / (pi - pim) <= 1.
Proof.
  intros Hlow Hhigh.
  assert (0 < pi - pim) as Hd by lra.
  split.
  - apply Qle_shift_div_l; [exact Hd | lra].
  - apply Qle_shift_div_r; [exact Hd | lra].
Qed.

Lemma Qle_bool_false (a b : Q) : Qle_bool a b = false <-> b < a.
Proof.
  split.
  - intros Hf. apply Qnot_le_lt. intros Hc. apply Qle_bool_iff in Hc. congruence.
  - intros Hlt. apply not_true_iff_false. intros Hc. apply Qle_bool_iff in Hc. lra.
Qed.

Lemma fallback_shape (c : t) :
  x c <> [] -> exists v, fallback c = Ok v /\ v ∈ x c.
Proof.
  intros Hne. unfold fallback. destruct (x c) as [|y ys] eqn:Hx; [congruence|].
  destruct (index_lt (y :: ys) (length (y :: ys) - 1)) as (v & Hv & Hi); [cbn; lia|].
  exists v. split; [exact Hi|]. apply list_elem_of_lookup. eauto.
Qed.

(** The values of [sample]: a size, or a point between two sizes. *)
Lemma sample_loop_shape (c : t) (u : Q) :
  (0 < length (p c) <= length (x c))%nat ->
  forall (n i : nat) (pim : Q),
    (n + i = length (p c))%nat -> (1 <= i)%nat ->
    p c !! (i - 1)%nat = Some pim -> pim < u ->
    exists v, sample_loop c u n i = Ok v /\
      (v ∈ x c \/
       exists a b f, a ∈ x c /\ b ∈ x c /\ 0 <= f <= 1 /\ v = a + f * (b - a)).
Proof.
  intros Hlen. induction n as [|n IH]; intros i pim Hni Hi Hpim Hu.
  - cbn [sample_loop]. destruct (fallback_shape c) as (v & Hv & Hin).
    + intros Hx. rewrite Hx in Hlen. cbn in Hlen. lia.
    + exists v. split; [exact Hv | left; exact Hin].
  - cbn [sample_loop].
    destruct (index_lt (p c) i) as (pi & Hpi & Hipi); [lia|]. rewrite Hipi.
    destruct (Qle_bool u pi) eqn:Hle.
    + rewrite (index_Some _ _ _ Hpim). unfold interpolate.
      apply Qle_bool_iff in Hle.
      assert (Qle_bool (pi - pim) 0 = false) as -> by (apply Qle_bool_false; lra).
      destruct (index_lt (x c) (i - 1)) as (xim & Hxim & Hixim); [lia|].
      destruct (index_lt (x c) i) as (xi & Hxi & Hixi); [lia|].
      rewrite Hixim, Hixi. eexists. split; [reflexivity|]. right.
      exists xim, xi, ((u - pim) / (pi - pim)).
      split; [apply list_elem_of_lookup; eauto|].
      split; [apply list_elem_of_lookup; eauto|].
      split; [apply frac_range; assumption | reflexivity].
    + apply Qle_bool_false in Hle.
      apply (IH (S i) pi); [lia | lia | | exact Hle].
      replace (S i - 1)%nat with i by lia. exact Hpi.
Qed.

Lemma sample_shape (c : t) (u : Q) :
  (0 < length (p c) <= length (x c))%nat ->
  exists v, sample c u = Ok v /\
    (v ∈ x c \/
     exists a b f, a ∈ x c /\ b ∈ x c /\ 0 <= f <= 1 /\ v = a + f * (b - a)).
Proof.
  intros Hlen. unfold sample.
  destruct (index_lt (p c) 0) as (p0 & Hp0 & Hip0); [lia|]. rewrite Hip0.
  destruct (Qle_bool u p0) eqn:Hle.
  - destruct (index_lt (x c) 0) as (x0 & Hx0 & Hix0); [lia|].
    exists x0. split; [exact Hix0|]. left. apply list_elem_of_lookup. eauto.
  - apply Qle_bool_false in Hle.
    apply (sample_loop_shape c u Hlen _ 1%nat p0); [lia | lia | exact Hp0 | exact Hle].
Qed.

Lemma fallback_last (c : t) : x c <> [] -> exists v, fallback c = Ok v /\ last (x c) = Some v.
Proof.
  intros Hne. unfold fallback. destruct (x c) as [|y ys] eqn:Hx; [congruence|].
  destruct (index_lt (y :: ys) (length (y :: ys) - 1)) as (v & Hv & Hi); [cbn; lia|].
  exists v. split; [exact Hi|]. rewrite last_lookup. rewrite <- Hv. f_equal. cbn. lia.
Qed.

Lemma sample_loop_first_interval (c : t) (u : Q) :
  (0 < length (p c) <= length (x c))%nat ->
  forall (n j : nat),
    (n + j = length (p c))%nat -> (1 <= j)%nat ->
    (forall k pk, (k < j)%nat -> p c !! k = Some pk -> pk < u) ->
    exists v, sample_loop c u n j = Ok v /\
      ((exists i pim pi a b,
          p c !! i = Some pim /\ p c !! S i = Some pi /\
          (forall k pk, (k <= i)%nat -> p c !! k = Some pk -> pk < u) /\ u <= pi /\
          x c !! i = Some a /\ x c !! S i = Some b /\
          v = a + (u - pim) / (pi - pim) * (b - a)) \/
       (Forall (fun pk => pk < u) (p c) /\ last (x c) = Some v)).
Proof.
  intros Hlen. induction n as [|n IH]; intros j Hnj Hj Hbelow.
  - cbn [sample_loop]. destruct (fallback_last c) as (v & Hv & Hlast).
    + intros Hx. rewrite Hx in Hlen. cbn in Hlen. lia.
    + exists v. split; [exact Hv|]. right. split; [|exact Hlast].
      apply Forall_lookup. intros k pk Hk. apply (Hbelow k pk); [|exact Hk].
      apply lookup_lt_Some in Hk. lia.
  - cbn [sample_loop].
    destruct (index_lt (p c) j) as (pj & Hpj & Hipj); [lia|]. rewrite Hipj.
    destruct (Qle_bool u pj) eqn:Hle.
    + destruct (index_lt (p c) (j - 1)) as (pim & Hpim & Hipim); [lia|]. rewrite Hipim.
      unfold interpolate. apply Qle_bool_iff in Hle.
      assert (pim < u) as Hu by (apply (Hbelow (j - 1)%nat); [lia | exact Hpim]).
      assert (Qle_bool (pj - pim) 0 = false) as -> by (apply Qle_bool_false; lra).
      destruct (index_lt (x c) (j - 1)) as (a & Ha & Hia); [lia|].
      destruct (index_lt (x c) j) as (b & Hb & Hib); [lia|].
      rewrite Hia, Hib. eexists. split; [reflexivity|]. left.
      exists (j - 1)%nat, pim, pj, a, b.
      replace (S (j - 1)) with j by lia.
      split; [exact Hpim|]. split; [exact Hpj|]. split.
      { intros k pk Hk. apply Hbelow. lia. }
      split; [exact Hle|]. split; [exact Ha|]. split; [exact Hb | reflexivity].
    + apply Qle_bool_false in Hle. apply IH; [lia | lia |].
      intros k pk Hk Hpk. destruct (decide (k = j)) as [->|Hne].
      * assert (pk = pj) as -> by congruence. exact Hle.
      * apply (Hbelow k pk); [lia | exact Hpk].
Qed.

(** X23.  With at least one cumulative probability and no fewer sizes
    than probabilities, [sample] returns for every draw [u], no index being
    out of range, and the comparisons of [u] with the probabilities decide
    what it returns: the first size when [u] is not above the first
    probability; the last size when [u] is above every probability;
    otherwise, with [i + 1] the first index whose probability is not below
    [u], the value of the expression of the source,
    [x[i] + (u - p[i]) / (p[i+1] - p[i]) * (x[i+1] - x[i])], the test
    [deltaP <= 0] being false there.  The expression is evaluated exactly; what float64
    rounding adds to it is not represented. *)
Theorem sample_inverts_the_CDF (c : t) (u : Q) :
  (0 < length (p c) <= length (x c))%nat ->
  exists v, sample c u = Ok v /\
    ((exists p0, p c !! 0%nat = Some p0 /\ u <= p0 /\ x c !! 0%nat = Some v) \/
     (exists i pim pi a b,
        p c !! i = Some pim /\ p c !! S i = Some pi /\
        (forall k pk, (k <= i)%nat -> p c !! k = Some pk -> pk < u) /\ u <= pi /\
        x c !! i = Some a /\ x c !! S i = Some b /\
        v = a + (u - pim) / (pi - pim) * (b - a)) \/
     (Forall (fun pk => pk < u) (p c) /\ last (x c) = Some v)).
Proof.
  intros Hlen. unfold sample.
  destruct (index_lt (p c) 0) as (p0 & Hp0 & Hip0); [lia|]. rewrite Hip0.
  destruct (Qle_bool u p0) eqn:Hle.
  - destruct (index_lt (x c) 0) as (x0 & Hx0 & Hix0); [lia|].
    exists x0. split; [exact Hix0|]. left. exists p0.
    apply Qle_bool_iff in Hle. auto.
  - apply Qle_bool_false in Hle.
    destruct (sample_loop_first_interval c u Hlen (length (p c) - 1) 1) as (v & Hv & Hcase).
    + lia.
    + lia.
    + intros k pk Hk Hpk. assert (k = 0%nat) as -> by lia.
      assert (pk = p0) as -> by congruence. exact Hle.
    + exists v. split; [exact Hv|]. right. exact Hcase.
Qed.

Lemma sample_inverts_the_CDF_witness :
  let c := {| x := [1; 3]; p := [1 # 2; 1] |} in
  (0 < length (p c) <= length (x c))%nat /\
  sample c (3 # 4) = Ok (1 + ((3 # 4) - (1 # 2)) / (1 - (1 # 2)) * (3 - 1)).
Proof.
  intros c. split; [cbn; lia|].
  destruct (sample_inverts_the_CDF c (3 # 4)) as (v & Hv & _); [cbn; lia|].
  rewrite Hv. vm_compute in Hv. injection Hv as <-. reflexivity.
Defined.

Lemma sample_loop_knot (c : t) (i : nat) (pi pim xi xim : Q) :
  StronglySorted Qlt (p c) ->
  p c !! i = Some pi -> p c !! (i - 1)%nat = Some pim ->
  x c !! i = Some xi -> x c !! (i - 1)%nat = Some xim ->
  (1 <= i)%nat ->
  forall (n j : nat),
    (n + j = length (p c))%nat -> (1 <= j <= i)%nat ->
    exists v, sample_loop c pi n j = Ok v /\ v == xi.
Proof.
  intros Hs Hpi Hpim Hxi Hxim Hi n. 
  assert (forall k pk, (k < i)%nat -> p c !! k = Some pk -> pk < pi) as Hbelow.
  { intros k pk Hk Hpk. clear -Hs Hpi Hk Hpk.
    revert i k Hpi Hk Hpk. induction Hs as [|a l Hs IH Ha]; intros i k Hpi Hk Hpk.
    - rewrite lookup_nil in Hpi. discriminate.
    - destruct i as [|i]; [lia|]. cbn in Hpi. destruct k as [|k].
      + cbn in Hpk. injection Hpk as <-. rewrite Forall_lookup in Ha. exact (Ha _ _ Hpi).
      + cbn in Hpk. apply (IH i k); [exact Hpi | lia | exact Hpk]. }
  assert (i < length (p c))%nat as Hilen by (apply lookup_lt_is_Some; eauto).
  induction n as [|n IH]; intros j Hnj Hj.
  - lia.
  - cbn [sample_loop].
    destruct (index_lt (p c) j) as (pj & Hpj & Hipj); [lia|]. rewrite Hipj.
    destruct (decide (j = i)) as [->|Hne].
    + assert (pj = pi) as -> by congruence.
      assert (Qle_bool pi pi = true) as -> by (apply Qle_bool_iff; lra).
      rewrite (index_Some _ _ _ Hpim). unfold interpolate.
      assert (pim < pi) as Hlt by (apply (Hbelow (i - 1)%nat); [lia | exact Hpim]).
      assert (Qle_bool (pi - pim) 0 = false) as -> by (apply Qle_bool_false; lra).
      rewrite (index_Some _ _ _ Hxim), (index_Some _ _ _ Hxi).
      eexists. split; [reflexivity|]. field. lra.
    + assert (pj < pi) as Hlt by (apply (Hbelow j); [lia | exact Hpj]).
      assert (Qle_bool pi pj = false) as -> by (apply Qle_bool_false; exact Hlt).
      apply IH; lia.
Qed.

(** X24.  With strictly increasing cumulative probabilities, and sizes
    that are whole numbers from 0 to 2^53, between which the interpolation at
    the fraction 1 does not round, a draw equal to the probability number
    [i] gives the size number [i]. *)
Theorem sample_at_a_knot (c : t) (i : nat) (pi xi : Q) :
  StronglySorted Qlt (p c) ->
  (length (p c) <= length (x c))%nat ->
  Forall (fun y => exists z : Z, y == inject_Z z /\ (0 <= z <= 2 ^ 53)%Z) (x c) ->
  p c !! i = Some pi -> x c !! i = Some xi ->
  exists v, sample c pi = Ok v /\ v == xi.
Proof.
  intros Hs Hlen _ Hpi Hxi. unfold sample.
  assert (i < length (p c))%nat as Hilen by (apply lookup_lt_is_Some; eauto).
  destruct (index_lt (p c) 0) as (p0 & Hp0 & Hip0); [lia|]. rewrite Hip0.
  destruct i as [|i].
  - assert (p0 = pi) as -> by congruence.
    assert (Qle_bool pi pi = true) as -> by (apply Qle_bool_iff; lra).
    exists xi. split; [apply index_Some, Hxi | reflexivity].
  - assert (p0 < pi) as Hlt.
    { destruct (p c) as [|a l] eqn:Hp; [discriminate|]. cbn in Hp0, Hpi.
      injection Hp0 as ->. apply StronglySorted_inv in Hs as [_ Ha].
      rewrite Forall_lookup in Ha. exact (Ha _ _ Hpi). }
    assert (Qle_bool pi p0 = false) as -> by (apply Qle_bool_false; exact Hlt).
    destruct (lookup_lt_is_Some_2 (p c) (S i - 1)) as [pim Hpim]; [lia|].
    destruct (lookup_lt_is_Some_2 (x c) (S i - 1)) as [xim Hxim]; [lia|].
    apply (sample_loop_knot c (S i) pi pim xi xim Hs Hpi Hpim Hxi Hxim); lia.
Qed.

Lemma sample_at_a_knot_witness :
  exists v, sample {| x := [1; 3; 10]; p := [1 # 4; 1 # 2; 1] |} (1 # 2) = Ok v /\ v == 3.
Proof.
  apply (sample_at_a_knot {| x := [1; 3; 10]; p := [1 # 4; 1 # 2; 1] |} 1%nat (1 # 2) 3).
  - repeat constructor; cbn; reflexivity.
  - cbn. lia.
  - repeat constructor; [exists 1%Z | exists 3%Z | exists 10%Z]; (split; [reflexivity | lia]).
  - reflexivity.
  - reflexivity.
Defined.

End CDFSample.

Section CDFGeneratorProofs.
Import cdfDistrib CDFGenerator.

Lemma read_points_points (lines : list (list (option Q))) :
  forall cd cd', read_points lines cd = Ok cd' ->
  x cd' = x cd ++ map (fun pt => pt.1 / 100) (points lines) /\
  p cd' = p cd ++ map snd (points lines).
Proof.
  induction lines as [|line rest IH]; intros cd cd' Hr.
  - cbn in Hr. injection Hr as <-. cbn. rewrite !app_nil_r. split; reflexivity.
  - cbn [read_points] in Hr.
    destruct line as [|[xv|] [|[pv|] [|? ?]]]; try discriminate.
    + exact (IH _ _ Hr).
    + destruct (IH _ _ Hr) as [Hx Hp]. cbn [x p] in Hx, Hp.
      rewrite Hx, Hp, <- !app_assoc. split; reflexivity.
Qed.

Lemma NewCDFGenerator_inv (lambda : Q) (path : string) (f : file) (g : CDFGenerator.t) :
  NewCDFGenerator lambda path f = Ok g ->
  path <> EmptyString /\
  exists first lines,
    f = Some (first :: lines) /\
    x (cdf g) = map (fun pt => pt.1 / 100) (points lines) /\
    p (cdf g) = map snd (points lines) /\
    (0 < length (p (cdf g)) <= length (x (cdf g)))%nat.
Proof.
  unfold NewCDFGenerator. intros Hg.
  destruct (String.eqb path EmptyString) eqn:Hpath; [discriminate|].
  apply String.eqb_neq in Hpath. split; [exact Hpath|].
  destruct f as [[|first lines]|]; try discriminate.
  destruct (read_points lines {| x := []; p := [] |}) as [cd|] eqn:Hr; [|discriminate].
  destruct (read_points_points lines _ _ Hr) as [Hx Hp]. cbn [x p app] in Hx, Hp.
  destruct (x cd) as [|y ys] eqn:Hxcd; [discriminate|].
  injection Hg as <-. cbn [cdf]. exists first, lines.
  split; [reflexivity|]. rewrite Hxcd. split; [exact Hx|]. split; [exact Hp|].
  rewrite Hx, Hp, !length_map. rewrite Hx in Hxcd.
  destruct (points lines); [discriminate|]. cbn. lia.
Qed.

(** X25.  A generator that [NewCDFGenerator] returned holds as sizes the
    first numbers of the lines with two numbers after the first line, each
    divided by 100, and as probabilities their second numbers, in the order
    of the file; and its [sample] returns for every draw. *)
Theorem NewCDFGenerator_samples (lambda : Q) (path : string)
    (first : list (option Q)) (lines : list (list (option Q))) (g : CDFGenerator.t) :
  NewCDFGenerator lambda path (Some (first :: lines)) = Ok g ->
  x (cdf g) = map (fun pt => pt.1 / 100) (points lines) /\
  p (cdf g) = map snd (points lines) /\
  forall u, exists v, sample (cdf g) u = Ok v.
Proof.
  intros Hg. destruct (NewCDFGenerator_inv _ _ _ _ Hg) as (_ & f' & lines' & Hf & Hx & Hp & Hlen).
  injection Hf as <- <-. split; [exact Hx|]. split; [exact Hp|].
  intros u. destruct (sample_shape (cdf g) u Hlen) as (v & Hv & _).
  exists v. exact Hv.
Qed.

Lemma NewCDFGenerator_samples_witness :
  let g := {| cdf := {| x := [] ++ [100 / 100]; p := [] ++ [1] |}; WaitTime := 1 |} in
  NewCDFGenerator 1 "f" (Some [[]; [Some 100; Some 1]]) = Ok g /\
  forall u, exists v, sample (cdf g) u = Ok v.
Proof.
  intros g. split; [reflexivity|].
  apply (NewCDFGenerator_samples 1 "f" [] [[Some 100; Some 1]] g). reflexivity.
Defined.

End CDFGeneratorProofs.

(** ** The topology, the command and the requests *)

Section Topology.

Ltac in_list := repeat (rewrite elem_of_cons); auto 10.

(** X26.  For the generator types 2, 3 and 4, in both versions of
    [SingleQueue], and a rate [mu] other than 0, the generator is a bimodal
    one whose mean service time, [ratio * peak1 + (1-ratio) * peak2], is
    [1/mu]. *)
Theorem SingleQueue_bimodal_keeps_the_mean (lambda mu : Q) (genType : Z) (path : string)
    (f : CDFGenerator.file) (g : Generator) :
  ~ mu == 0 ->
  (2 <= genType <= 4)%Z ->
  (SingleQueue.generator lambda mu genType path f = Ok g \/
   SingleQueue.generator_v1 lambda mu genType path f = Ok g) ->
  exists peak1 peak2 ratio,
    g = MBRandGenerator lambda peak1 peak2 ratio /\
    bimodal_mean peak1 peak2 ratio == 1 / mu.
Proof.
  intros Hmu Hgt Hg.
  assert (genType = 2 \/ genType = 3 \/ genType = 4)%Z as [-> | [-> | ->]] by lia;
    unfold SingleQueue.generator, SingleQueue.generator_v1 in Hg; cbn [Z.eqb Pos.eqb] in Hg;
    destruct Hg as [Hg|Hg]; injection Hg as <-;
    (eexists; eexists; eexists; split; [reflexivity|]);
    unfold bimodal_mean; field; exact Hmu.
Qed.

Lemma SingleQueue_bimodal_keeps_the_mean_witness :
  exists peak1 peak2 ratio,
    MBRandGenerator 1 ((1 / (1 # 50)) / 10)
      ((1 / (1 # 50) - (9 # 10) * ((1 / (1 # 50)) / 10)) / (1 - (9 # 10))) (9 # 10)
      = MBRandGenerator 1 peak1 peak2 ratio /\
    bimodal_mean peak1 peak2 ratio == 1 / (1 # 50).
Proof.
  apply (SingleQueue_bimodal_keeps_the_mean 1 (1 # 50) 4 "" None).
  - intros Hc. discriminate Hc.
  - lia.
  - left. reflexivity.
Defined.

(** X27.  For a positive rate [mu], the generator type 4 has peaks with
    [0 < peak1 < 1/mu < peak2], while the second peak of the type 2 is
    negative exactly when [mu] is above 10/9. *)
Theorem SingleQueue_bimodal_peaks (lambda mu : Q) (path : string) (f : CDFGenerator.file) :
  0 < mu ->
  (exists peak1 peak2 ratio,
     SingleQueue.generator lambda mu 4 path f = Ok (MBRandGenerator lambda peak1 peak2 ratio) /\
     0 < peak1 /\ peak1 < 1 / mu /\ 1 / mu < peak2) /\
  (exists peak2,
     SingleQueue.generator lambda mu 2 path f = Ok (MBRandGenerator lambda 1 peak2 (9 # 10)) /\
     (peak2 < 0 <-> 10 # 9 < mu)).
Proof.
  intros Hmu.
  assert (0 < 1 / mu) as Hinv.
  { apply Qlt_shift_div_l; [exact Hmu | lra]. }
  assert (1 / mu * mu == 1) as Hone by (field; lra).
  split.
  - eexists; eexists; eexists. split; [reflexivity|].
    set (m := 1 / mu) in *.
    assert ((m - (9 # 10) * (m / 10)) / (1 - (9 # 10)) == (91 # 10) * m) as -> by (field).
    assert (m / 10 == (1 # 10) * m) as -> by field.
    repeat split; lra.
  - eexists. split; [reflexivity|].
    set (m := 1 / mu) in *. split; intros H; nra.
Qed.

Lemma SingleQueue_bimodal_peaks_witness :
  (exists peak1 peak2 ratio,
     SingleQueue.generator 1 (1 # 50) 4 "" None = Ok (MBRandGenerator 1 peak1 peak2 ratio) /\
     0 < peak1 /\ peak1 < 1 / (1 # 50) /\ 1 / (1 # 50) < peak2) /\
  (exists peak2,
     SingleQueue.generator 1 (1 # 50) 2 "" None = Ok (MBRandGenerator 1 1 peak2 (9 # 10)) /\
     (peak2 < 0 <-> 10 # 9 < 1 # 50)).
Proof.
  apply (SingleQueue_bimodal_peaks 1 (1 # 50) "" None). reflexivity.
Defined.

Lemma GetWorkloadPath_known (wl path : string) :
  GetWorkloadPath wl = Ok path ->
  wl ∈ known_workloads /\ (path = EmptyString <-> wl = EmptyString).
Proof.
  unfold GetWorkloadPath, known_workloads. intros Hp.
  repeat match type of Hp with
         | (if String.eqb wl ?s then _ else _) = _ =>
             let He := fresh "He" in
             destruct (String.eqb wl s) eqn:He;
             [apply String.eqb_eq in He; subst wl; injection Hp as <-;
              split; [in_list | split; intros Hc; discriminate Hc || reflexivity] |]
         end.
  discriminate.
Qed.

Lemma GetWorkloadPath_unknown (a : string) :
  a ∉ known_workloads -> GetWorkloadPath a = Panic ("Unknown workload: " ++ a).
Proof.
  intros Hn. unfold GetWorkloadPath.
  repeat match goal with
         | |- (if String.eqb a ?s then _ else _) = _ =>
             let He := fresh "He" in
             destruct (String.eqb a s) eqn:He;
             [apply String.eqb_eq in He; subst a; exfalso; apply Hn;
              unfold known_workloads; in_list |]
         end.
  reflexivity.
Qed.

(** X28.  [GetWorkloadPath] never returns the same path for two names; it
    returns for exactly six names, the empty one among them, and panics
    with the name in the message for any other. *)
Theorem GetWorkloadPath_names_one_file (a b : string) :
  (forall path, GetWorkloadPath a = Ok path -> GetWorkloadPath b = Ok path -> a = b) /\
  ((exists path, GetWorkloadPath a = Ok path) <-> a ∈ known_workloads) /\
  (a ∉ known_workloads -> GetWorkloadPath a = Panic ("Unknown workload: " ++ a)).
Proof.
  split; [|split; [split|]].
  - intros path Ha Hb.
    destruct (GetWorkloadPath_known a path Ha) as [Hka _].
    destruct (GetWorkloadPath_known b path Hb) as [Hkb _].
    unfold known_workloads in *.
    repeat (apply elem_of_cons in Hka as [-> | Hka]); [..|apply elem_of_nil in Hka; contradiction];
      (repeat (apply elem_of_cons in Hkb as [-> | Hkb]); [..|apply elem_of_nil in Hkb; contradiction]);
      first [reflexivity | (vm_compute in Ha, Hb; congruence)].
  - intros [path Hp]. exact (proj1 (GetWorkloadPath_known a path Hp)).
  - intros Hk. unfold known_workloads in Hk.
    repeat (apply elem_of_cons in Hk as [-> | Hk]); [..|apply elem_of_nil in Hk; contradiction];
      eexists; reflexivity.
  - exact (GetWorkloadPath_unknown a).
Qed.

(** X29.  In [main] with the topology 0: a workload name that is not
    known panics whatever the generator type; the generator type 5 with the
    empty workload name, which is the default, panics in
    [NewCDFGenerator]; and when a CDF generator is made, the type is 5, the
    name is a known one other than the empty one, and [sample] returns for
    every draw. *)
Theorem main_generator_outcomes (lambda mu : Q) (genType : Z) (wl : string)
    (fs : string -> CDFGenerator.file) :
  (wl ∉ known_workloads ->
   main_generator lambda mu genType wl fs = Panic ("Unknown workload: " ++ wl)) /\
  (wl = EmptyString -> genType = 5%Z ->
   main_generator lambda mu genType wl fs
     = Panic "CDF path: '' unknown, cannot create CDFGenerator") /\
  (forall g, main_generator lambda mu genType wl fs = Ok (CDFGen g) ->
     genType = 5%Z /\ wl ∈ known_workloads /\ wl <> EmptyString /\
     forall u, exists v, cdfDistrib.sample (CDFGenerator.cdf g) u = Ok v).
Proof.
  split; [|split].
  - intros Hn. unfold main_generator. rewrite (GetWorkloadPath_unknown wl Hn). reflexivity.
  - intros -> ->. reflexivity.
  - intros g Hg. unfold main_generator in Hg.
    destruct (GetWorkloadPath wl) as [path|] eqn:Hpath; [|discriminate].
    destruct (GetWorkloadPath_known wl path Hpath) as [Hk Hempty].
    unfold SingleQueue.generator in Hg.
    repeat match type of Hg with
           | (if (genType =? ?n)%Z then _ else _) = _ =>
               let He := fresh "He" in
               destruct (genType =? n)%Z eqn:He; [try discriminate Hg|]
           end; [|discriminate].
    apply Z.eqb_eq in He4.
    destruct (CDFGenerator.NewCDFGenerator lambda path (fs path)) as [g'|] eqn:HN; [|discriminate].
    injection Hg as ->.
    destruct (NewCDFGenerator_inv _ _ _ _ HN) as (Hne & _ & _ & _ & _ & _ & Hlen).
    split; [exact He4|]. split; [exact Hk|]. split; [tauto|].
    intros u. destruct (sample_shape (CDFGenerator.cdf g) u Hlen) as (v & Hv & _).
    exists v. exact Hv.
Qed.

End Topology.

Section RequestAccounting.


End RequestAccounting.

(** ** The PS processor without sharing *)

Section PSOnTime.
Import PSProcessor.
Lemma Run_weaken (Adm Adm' : Q -> ReqInterface -> Prop) (Inv Inv' : RunState -> Prop)
    (cores : Z) (s : RunState) :
  (forall tm r, Adm tm r -> Adm' tm r) ->
  (forall s, Inv s -> Inv' s) ->
  Run Adm Inv cores s -> Run Adm' Inv' cores s.
Proof.
  intros HAdm HInv HRun.
  induction HRun as [|s s' tm intr newReq _ IH Hwait Hadm Hit Hinv].
  - apply Run_start.
  - apply (Run_resume Adm' Inv' cores s s' tm intr newReq IH Hwait); [|exact Hit|auto].
    intros r Hr. apply HAdm, Hadm, Hr.
Qed.

Lemma whole_at_bounded (horizon : Z) (tm : Q) (x : ReqInterface) :
  whole_at horizon tm x -> bounded x.
Proof.
  intros ([_ Hfresh] & a & sv & _ & Hsv & Hpos & _).
  unfold bounded, remaining. rewrite Hfresh, Hsv.
  assert (0 <= inject_Z sv) by (change 0 with (inject_Z 0); rewrite <- Zle_Qle; exact Hpos).
  split; lra.
Qed.

Lemma due_SubServiceTime (diff : Q) (x : ReqInterface) :
  due (RI_SubServiceTime diff x) = due x.
Proof. unfold due. rewrite base_SubServiceTime. reflexivity. Qed.

Lemma on_time_step (horizon : Z) (s s' : RunState) (tm : Q) (intr : bool)
    (newReq : option ReqInterface) :
  exact_inv s -> timer_inv s -> on_time horizon s ->
  WaitInterruptible (clock s) (d s) tm intr newReq ->
  (forall r, newReq = Some r -> whole_at horizon tm r) ->
  iteration tm intr newReq s = Some s' ->
  on_time horizon s'.
Proof.
  intros (Hcount & Hprev & Hfac & Hlist & _ & Hcurr & Hidle) [Hbusy _]
         [(zc & Hzc & Hzc0) Hdue] Hwait Hadm Hit.
  apply iteration_inv in Hit as (p1 & log & Hacc & Hrearm).
  apply Run_rearm_inv in Hrearm as (Hclock & _ & _ & _ & Hl' & _).
  set (diff := (tm - prevTime (proc s)) * getFactor (proc s)) in *.
  change (reqList (updateServiceTimes tm (proc s)))
    with (map (RI_SubServiceTime diff) (reqList (proc s))) in Hacc.
  (* the request the timer is set for is due first *)
  assert ((0 < count (proc s))%Z ->
          0 <= d s /\
          exists x, x ∈ reqList (proc s) /\ clock s + d s == due x /\
                    forall y, y ∈ reqList (proc s) -> clock s + d s <= due y) as Hfirst.
  { intros Hpos.
    destruct (Hcurr Hpos) as (i & x & Hci & Hx & Hd).
    destruct (Hbusy Hpos) as (i0 & x0 & Hci0 & Hx0 & Hleast & _).
    assert (i0 = i) as -> by congruence. assert (x0 = x) as -> by congruence.
    assert (x ∈ reqList (proc s)) as Hin by (apply list_elem_of_lookup; eauto).
    pose proof (Hlist x Hin) as Hxdue. destruct (Hdue x Hin) as [Hxle _].
    unfold due in *. split; [lra|]. exists x. split; [exact Hin|]. split; [lra|].
    intros y Hy. pose proof (Hlist y Hy). pose proof (Hleast y Hy). lra. }
  assert (forall y, y ∈ reqList (proc s) -> (0 < count (proc s))%Z) as Hnonempty.
  { intros y Hy. rewrite Hcount. destruct (reqList (proc s)); [inversion Hy | cbn; lia]. }
  unfold on_time. rewrite Hclock, Hl'.
  destruct Hwait as [tm Hd0 Htm | tm r Hge Hor].
  - apply Run_account_timer in Hacc as (i & req & _ & _ & _ & Hl1 & _).
    assert (0 < count (proc s))%Z as Hpos.
    { destruct (Z.lt_ge_cases 0 (count (proc s))) as [Hp|Hn]; [exact Hp|].
      specialize (Hidle ltac:(lia)). lra. }
    destruct (Hfirst Hpos) as (_ & x & Hin & Hxdue & Hothers).
    destruct (Hdue x Hin) as (Hxle & zx & Hzx & Hzxh).
    split.
    + exists zx. split; [rewrite Htm, Hxdue; exact Hzx|]. split; [|exact Hzxh].
      assert (0 <= inject_Z zc) by (change 0 with (inject_Z 0); rewrite <- Zle_Qle; lia).
      rewrite Zle_Qle, <- Hzx. change (inject_Z 0) with 0. lra.
    + intros x' Hx'. rewrite Hl1 in Hx'.
      pose proof (list_elem_of_delete_inv _ _ _ Hx') as Hm.
      apply list_elem_of_fmap in Hm as (y & -> & Hy).
      rewrite due_SubServiceTime. destruct (Hdue y Hy) as (_ & zy & Hzy & Hzyh).
      split; [rewrite Htm; exact (Hothers y Hy)|]. exists zy. split; assumption.
  - apply Run_account_arrival in Hacc as (r' & Hr' & _ & Hl1 & _).
    injection Hr' as <-.
    destruct (Hadm r eq_refl) as ([Hinit Hfresh] & a & sv & Ha & Hsv & Hsv0 & Hasv).
    assert (0 <= inject_Z sv) as Hsvq
      by (change 0 with (inject_Z 0); rewrite <- Zle_Qle; exact Hsv0).
    split.
    + exists a. split; [exact Ha|].
      assert (0 <= inject_Z zc) by (change 0 with (inject_Z 0); rewrite <- Zle_Qle; lia).
      assert (0 <= a)%Z by (rewrite Zle_Qle; change (inject_Z 0) with 0; lra).
      lia.
    + intros x' Hx'. rewrite Hl1 in Hx'. apply elem_of_app in Hx' as [Hx'|Hx'].
      * apply list_elem_of_fmap in Hx' as (y & -> & Hy).
        rewrite due_SubServiceTime. destruct (Hdue y Hy) as (Hyle & zy & Hzy & Hzyh).
        split; [|exists zy; split; assumption].
        destruct (Hfirst (Hnonempty y Hy)) as (Hd0 & _ & _ & _ & Hothers).
        destruct Hor as [Hneg|Hbefore]; [lra|].
        pose proof (Hothers y Hy). lra.
      * apply list_elem_of_singleton in Hx' as ->. unfold due. split; [lra|].
        exists (a + sv)%Z. split; [rewrite inject_Z_plus; lra | exact Hasv].
Qed.

Lemma whole_at_Run (cores horizon : Z) (s : RunState) :
  (0 < cores)%Z -> (0 <= horizon)%Z ->
  Run (whole_at horizon) within_workers cores s ->
  exact_inv s /\ timer_inv s /\ rearmed cores s /\ on_time horizon s /\ within_workers s.
Proof.
  intros Hcores Hhor HRun.
  assert (forall s, Run (whole_at horizon) within_workers cores s -> exact_inv s /\ timer_inv s)
    as Hboth.
  { intros s0 H0. split.
    - apply (exact_inv_Run cores). apply (Run_weaken (whole_at horizon) _ within_workers _ cores s0);
        [intros tm r [Hf _]; exact Hf | auto | exact H0].
    - apply (timer_inv_Run cores s0 Hcores).
      apply (Run_weaken (whole_at horizon) _ within_workers _ cores s0);
        [intros tm r; apply whole_at_bounded | auto | exact H0]. }
  destruct (Hboth s HRun) as [Hex Htim]. split; [exact Hex|]. split; [exact Htim|].
  clear Hex Htim.
  induction HRun as [|s s' tm intr newReq HRun IH Hwait Hadm Hit Hinv].
  - split; [|split].
    + unfold rearmed, start. cbn. repeat split; try constructor. intros Hc. lia.
    + split; [exists 0%Z; split; [reflexivity | lia]|].
      intros x Hx. apply elem_of_nil in Hx. contradiction.
    + unfold within_workers, start. cbn. lia.
  - destruct IH as (Hre & Hon & _). destruct (Hboth s HRun) as [Hex Htim].
    split; [exact (rearmed_step cores s s' tm intr newReq Hre Hit)|].
    split; [exact (on_time_step horizon s s' tm intr newReq Hex Htim Hon Hwait Hadm Hit)|].
    exact Hinv.
Qed.

Lemma getMinService_total (p : t) :
  reqList p <> [] -> Forall (fun x => is_Some (asRequest x)) (reqList p) ->
  exists i x, getMinService p = Some i /\ reqList p !! i = Some x.
Proof.
  intros Hne Hall.
  destruct (getMinService p) as [i|] eqn:Hget.
  - destruct (getMinService_spec p i Hget) as (x & Hx & _). eauto.
  - exfalso. unfold getMinService in Hget.
    destruct (reqList p) as [|front l] eqn:Hl; [congruence|].
    cbn [head mbind option_bind] in Hget.
    apply Forall_cons in Hall as Hfl. destruct Hfl as [[r Hr] _].
    rewrite Hr in Hget. cbn [mbind option_bind] in Hget.
    apply getMinService_from_None in Hget.
    apply Exists_exists in Hget as (y & Hy & Hnone).
    rewrite Forall_forall in Hall. destruct (Hall y Hy) as [ry Hry]. congruence.
Qed.

(** The expiry of the timer of a busy processor: the iteration returns,
    and hands the request under [curr] to the drain. *)
Lemma timer_iteration (cores : Z) (s : RunState) (tm : Q) (i : nat) (x : ReqInterface) :
  rearmed cores s ->
  curr (proc s) = Some i -> reqList (proc s) !! i = Some x ->
  exists s',
    iteration tm true None s = Some s' /\
    terminated s' =
      terminated s ++ [(tm, RI_SubServiceTime ((tm - prevTime (proc s)) * getFactor (proc s)) x)] /\
    count (proc s') = (count (proc s) - 1)%Z /\
    workerCount (proc s') = workerCount (proc s).
Proof.
  intros (_ & Hcount & _ & Hall & _ & _) Hci Hx.
  set (diff := (tm - prevTime (proc s)) * getFactor (proc s)).
  unfold iteration. cbv zeta. unfold Run_account.
  change (curr (updateServiceTimes tm (proc s))) with (curr (proc s)).
  change (reqList (updateServiceTimes tm (proc s)))
    with (map (RI_SubServiceTime diff) (reqList (proc s))).
  rewrite Hci. cbn [mbind option_bind].
  rewrite list_lookup_fmap, Hx. cbn [fmap option_fmap option_map mbind option_bind fst snd].
  change (count (updateServiceTimes tm (proc s))) with (count (proc s)).
  change (workerCount (updateServiceTimes tm (proc s))) with (workerCount (proc s)).
  change (prevTime (updateServiceTimes tm (proc s))) with tm.
  set (l1 := delete i (map (RI_SubServiceTime diff) (reqList (proc s)))).
  assert (length l1 = (length (reqList (proc s)) - 1)%nat) as Hlen.
  { subst l1. rewrite length_delete; [rewrite length_map; reflexivity|].
    rewrite list_lookup_fmap, Hx. cbn. eauto. }
  assert (Forall (fun y => is_Some (asRequest y)) l1) as Hall1.
  { apply Forall_forall. intros y Hy. subst l1.
    apply list_elem_of_delete_inv in Hy. apply list_elem_of_fmap in Hy as (y0 & -> & Hy0).
    rewrite Forall_forall in Hall. destruct (Hall y0 Hy0) as [r Hr].
    destruct y0; try discriminate. cbn. eauto. }
  unfold Run_rearm. cbn [count reqList workerCount prevTime].
  destruct (Z.gtb_spec (count (proc s) - 1) 0) as [Hpos|Hzero].
  - match goal with |- context [getMinService ?p] => destruct (getMinService_total p) as (j & y & Hj & Hy) end.
    + cbn [reqList]. intros Hnil. rewrite Hnil in Hlen. cbn in Hlen. lia.
    + exact Hall1.
    + rewrite Hj. cbn [mbind option_bind reqList]. cbn [reqList] in Hy. rewrite Hy.
      cbn [mbind option_bind]. eexists. split; [reflexivity|]. cbn. auto.
  - eexists. split; [reflexivity|]. cbn. auto.
Qed.

Lemma whole_plus (a b : Q) : whole a -> whole b -> whole (a + b).
Proof.
  intros [za Ha] [zb Hb]. exists (za + zb)%Z. rewrite inject_Z_plus, Ha, Hb. reflexivity.
Qed.

Lemma whole_minus (a b : Q) : whole a -> whole b -> whole (a - b).
Proof.
  intros [za Ha] [zb Hb]. exists (za - zb)%Z.
  unfold Z.sub. rewrite inject_Z_plus, inject_Z_opp, Ha, Hb. reflexivity.
Qed.

(** C2.  A PS processor with at least one worker, in whose run the
    requests in progress never outnumber the workers; every request arrives at the time of its creation, with all
    of its service time left; arrival times and service times are whole
    numbers, the latter not negative, and their sums are at most [horizon],
    itself at most 2^53.  Then every number the run computes is a whole
    number between 0 and [horizon], so that no float64 operation on them
    rounds, and:
    - every call of [TerminateReq] is made at the [InitTime] of the request
      plus its [OriginalServiceTime], and the delay the drain computes is
      the original service time;
    - no request in progress is past that time, and its service time left
      is the time left until then;
    - the timer of a busy processor is set for the request that is due
      first and expires when it is due; on the expiry the iteration of
      [Run] returns and hands that request, with no service time left, to
      the drain. *)
Theorem PS_without_sharing_completes_on_time (cores horizon : Z) (s : RunState) :
  (0 < cores)%Z -> (0 <= horizon <= 2 ^ 53)%Z ->
  Run (whole_at horizon) within_workers cores s ->
  (forall tm x, (tm, x) ∈ terminated s ->
     tm == due x /\ RI_GetDelay tm x == GetOriginalServiceTime (base x)) /\
  (forall x, x ∈ reqList (proc s) ->
     clock s <= due x /\ remaining x == due x - clock s) /\
  ((0 < count (proc s))%Z ->
   exists i x s',
     curr (proc s) = Some i /\ reqList (proc s) !! i = Some x /\
     (forall y, y ∈ reqList (proc s) -> due x <= due y) /\
     0 <= d s /\ clock s + d s == due x /\
     iteration (clock s + d s) true None s = Some s' /\
     Run (whole_at horizon) within_workers cores s' /\
     (exists x', terminated s' = terminated s ++ [(clock s + d s, x')] /\
                 differs_in_service_only x x' (remaining x') /\ remaining x' == 0)) /\
  (whole (clock s) /\ 0 <= clock s <= inject_Z horizon /\
   (forall x, x ∈ reqList (proc s) ->
      whole (remaining x) /\ 0 <= remaining x <= inject_Z horizon) /\
   ((0 < count (proc s))%Z -> whole (d s) /\ clock s + d s <= inject_Z horizon)).
Proof.
  intros Hcores [Hhor _] HRun.
  destruct (whole_at_Run cores horizon s Hcores Hhor HRun)
    as (Hex & Htim & Hre & [(zc & Hzc & Hzc0 & Hzch) Hdue] & Hwith).
  pose proof Hex as (Hcount & Hprev & Hfac & Hlist & Hterm & Hcurr & Hidle).
  assert (0 <= inject_Z zc <= inject_Z horizon) as Hclockq.
  { change 0 with (inject_Z 0). rewrite <- !Zle_Qle. lia. }
  assert (forall x, x ∈ reqList (proc s) ->
            whole (remaining x) /\ 0 <= remaining x <= inject_Z horizon /\
            clock s <= due x /\ remaining x == due x - clock s) as Hreq.
  { intros x Hx. destruct (Hdue x Hx) as (Hle & zx & Hzx & Hzxh).
    pose proof (Hlist x Hx) as Hxl. fold (due x) in Hxl.
    assert (remaining x == due x - clock s) as Hrem by lra.
    assert (inject_Z zx <= inject_Z horizon) by (rewrite <- Zle_Qle; exact Hzxh).
    split; [|split; [|split; [exact Hle | exact Hrem]]].
    - exists (zx - zc)%Z. unfold Z.sub. rewrite inject_Z_plus, inject_Z_opp. lra.
    - lra. }
  assert ((0 < count (proc s))%Z ->
          exists i x, curr (proc s) = Some i /\ reqList (proc s) !! i = Some x /\
                      x ∈ reqList (proc s) /\
                      (forall y, y ∈ reqList (proc s) -> due x <= due y) /\
                      d s == remaining x /\ getFactor (proc s) == 1) as Htimer.
  { intros Hpos. destruct (Hcurr Hpos) as (i & x & Hci & Hx & Hd).
    destruct Htim as [Hbusy _].
    destruct (Hbusy Hpos) as (i0 & x0 & Hci0 & Hx0 & Hleast & _).
    assert (i0 = i) as -> by congruence. assert (x0 = x) as -> by congruence.
    assert (x ∈ reqList (proc s)) as Hin by (apply list_elem_of_lookup; eauto).
    exists i, x. split; [exact Hci|]. split; [exact Hx|]. split; [exact Hin|].
    split; [|split; [exact Hd|]].
    - intros y Hy. pose proof (Hleast y Hy).
      destruct (Hreq x Hin) as (_ & _ & _ & Hrx). destruct (Hreq y Hy) as (_ & _ & _ & Hry). lra.
    - destruct Hfac as [Hnil|Hf]; [rewrite Hnil in Hin; inversion Hin | exact Hf]. }
  split; [|split; [|split]].
  - intros tm x Hx. specialize (Hterm tm x Hx). unfold due. split; [exact Hterm|].
    unfold RI_GetDelay, GetDelay, GetOriginalServiceTime. lra.
  - intros x Hx. destruct (Hreq x Hx) as (_ & _ & Hle & Hrem). split; assumption.
  - intros Hpos. destruct (Htimer Hpos) as (i & x & Hci & Hx & Hin & Hfirst & Hd & Hf).
    destruct (Hreq x Hin) as (_ & [Hr0 _] & _ & Hrem).
    destruct (timer_iteration cores s (clock s + d s) i x Hre Hci Hx)
      as (s' & Hit & Hlog & Hc' & Hw').
    exists i, x, s'. split; [exact Hci|]. split; [exact Hx|]. split; [exact Hfirst|].
    split; [lra|]. split; [lra|]. split; [exact Hit|]. split.
    + apply (Run_resume (whole_at horizon) within_workers cores s s' (clock s + d s) true None
               HRun).
      * apply WI_timer; [lra | reflexivity].
      * intros r Hr. discriminate Hr.
      * exact Hit.
      * unfold within_workers in *. rewrite Hc', Hw'. lia.
    + eexists. split; [exact Hlog|]. split.
      * unfold differs_in_service_only. destruct x as [[]|[] ?|[] ? ?|[] ?]; reflexivity.
      * rewrite remaining_SubServiceTime, Hprev, Hf. lra.
  - split; [exists zc; exact Hzc|]. split; [lra|]. split.
    + intros x Hx. destruct (Hreq x Hx) as (Hw & Hb & _). split; assumption.
    + intros Hpos. destruct (Htimer Hpos) as (i & x & _ & _ & Hin & _ & Hd & _).
      destruct (Hreq x Hin) as ([zr Hzr] & _ & _ & Hrem).
      destruct (Hdue x Hin) as (_ & zx & Hzx & Hzxh).
      assert (inject_Z zx <= inject_Z horizon) by (rewrite <- Zle_Qle; exact Hzxh).
      split; [exists zr; lra | lra].
Qed.

Lemma example_run_whole (horizon : Z) :
  (6 <= horizon)%Z -> Run (whole_at horizon) within_workers 2 example_run.
Proof.
  intros Hhor.
  assert (forall a sv : Z, (0 <= sv)%Z -> (a + sv <= 6)%Z ->
            whole_at horizon (inject_Z a) (SimpleReqCreator_NewRequest (inject_Z a) (inject_Z sv)))
    as HAdm.
  { intros a sv Hsv Hsum. split; [split; reflexivity|].
    exists a, sv. repeat split; try reflexivity; lia. }
  unfold example_run.
  repeat (apply Run_run_resume;
          [ | | first [ intros r [= <-] | intros r [=] ]
            | vm_compute; eexists; reflexivity
            | unfold within_workers; vm_compute; discriminate ]).
  - apply Run_start.
  - apply WI_arrival; [decide_Q | left; decide_Q].
  - apply (HAdm 1 5)%Z; lia.
  - apply WI_arrival; [decide_Q | right; decide_Q].
  - apply (HAdm 3 1)%Z; lia.
  - apply WI_timer; decide_Q.
  - apply WI_timer; decide_Q.
Qed.

Lemma PS_without_sharing_completes_on_time_witness :
  Run (whole_at 6) within_workers 2 example_run /\
  length (terminated example_run) = 2%nat /\
  forall tm x, (tm, x) ∈ terminated example_run ->
    tm == due x /\ RI_GetDelay tm x == GetOriginalServiceTime (base x).
Proof.
  pose proof (example_run_whole 6 ltac:(lia)) as HRun.
  split; [exact HRun|]. split; [vm_compute; reflexivity|].
  exact (proj1 (PS_without_sharing_completes_on_time 2 6 example_run
                  ltac:(lia) ltac:(lia) HRun)).
Defined.
End PSOnTime.

(** ** The PS processor on float64 numbers *)

Section Float64.
Import PrimFloat PSProcessor64.
(** On whole numbers the float64 run is the run of [example_run]: the
    requests are handed to the drain at 4 and at 6, with nothing left. *)
Example example_run64_on_time :
  exists sts s,
    example_run64 = Some sts /\ last sts = Some s /\
    terminated s = [(4, {| InitTime := 3; ServiceTime := 0; OriginalServiceTime := 1 |});
                    (6, {| InitTime := 1; ServiceTime := 0; OriginalServiceTime := 5 |})]%float.
Proof. eexists. eexists. split; [vm_compute; reflexivity|]. split; reflexivity. Qed.

(** C2, counterexample.  On float64 numbers, with two workers and
    never more than two requests in progress, the request created at 0.2
    with the service time 1 is handed to the drain at 1.2000000000000002:
    that is neither its [InitTime] plus its [OriginalServiceTime], which is
    1.2, nor does the delay the drain computes equal the original service
    time. *)
Lemma PS_float64_completes_off_time :
  exists sts s tm x,
    late_run = Some sts /\
    Forall (fun s => (count (proc s) <= workerCount (proc s))%Z) sts /\
    last sts = Some s /\
    terminated s =
      [(0.4, {| InitTime := 0.1; ServiceTime := -2.7755575615628914e-17;
                OriginalServiceTime := 0.3 |});
       (tm, x)]%float /\
    x = {| InitTime := 0.2; ServiceTime := -1.1102230246251565e-16;
           OriginalServiceTime := 1 |}%float /\
    tm = 1.2000000000000002%float /\
    (InitTime x + OriginalServiceTime x)%float = 1.2%float /\
    (tm =? InitTime x + OriginalServiceTime x)%float = false /\
    (GetDelay tm x =? OriginalServiceTime x)%float = false.
Proof.
  eexists. eexists. eexists. eexists.
  split; [vm_compute; reflexivity|].
  split; [repeat constructor; vm_compute; discriminate|].
  split; [reflexivity|]. split; [reflexivity|].
  split; [reflexivity|]. split; [reflexivity|].
  split; [vm_compute; reflexivity|]. split; vm_compute; reflexivity.
Qed.
End Float64.

Section OutOfBounds.
Import PrimFloat.
(** C5, counterexamples, at four inputs.
    - On float64 numbers, with two workers: the PS processor hands the
      request created at 0.1 with the service time 0.2 to the drain with a
      service time below zero, and the request it keeps in progress has a
      service time below zero as well, so that the timer is set to a
      negative [d], which is no timer.
    - For the generator type 2 and the rate 2, [SingleQueue] asks for a
      bimodal generator with the second peak -4; a request created with
      that service time is below zero from its creation.
    - With the quantum -1 a TS processor writes a request of service time
      1 back with the service time 2, above its original service time.
    - With -1 workers the PS processor raises the service time left of a
      request in progress above its original service time. *)
Lemma service_time_leaves_its_bounds :
  (exists sts s x y,
     sinking_run = Some sts /\ last sts = Some s /\
     PSProcessor64.terminated s = [(0.30000000000000004%float, x)] /\
     x = PSProcessor64.mkRequest 0.1 (-2.7755575615628914e-17) 0.2 /\
     (PSProcessor64.ServiceTime x <? 0)%float = true /\
     PSProcessor64.reqList (PSProcessor64.proc s) = [y] /\
     y = PSProcessor64.mkRequest 0.2 (-2.7755575615628914e-17) 0.1 /\
     (PSProcessor64.ServiceTime y <? 0)%float = true /\
     (PSProcessor64.d s <? 0)%float = true) /\
  (exists peak2,
     SingleQueue.generator 1 2 2 EmptyString None
       = Ok (MBRandGenerator 1 1 peak2 (9 # 10)) /\
     peak2 == -4 /\
     ~ bounded (SimpleReqCreator_NewRequest 0 peak2)) /\
  (exists w' x,
     TSProcessor.Run (TSProcessor.NewTSProcessor (-1) 0) 1
       {| now := 0; inQueue := Queue.mkQueue [SimpleReqCreator_NewRequest 0 1] 0;
          outQueue := Queue.mkQueue [] 1; trace := [] |} = Ret tt w' /\
     Queue.l (inQueue w') = [x] /\
     remaining x == 2 /\ OriginalServiceTime (base x) == 1 /\ ~ bounded x) /\
  (exists s x,
     PSProcessor.Run fresh_at (fun _ => True) (-1) s /\
     PSProcessor.reqList (PSProcessor.proc s) = [x; SimpleReqCreator_NewRequest 1 1] /\
     remaining x == 2 /\ OriginalServiceTime (base x) == 1 /\ ~ bounded x).
Proof.
  assert (forall x, remaining x == 2 -> OriginalServiceTime (base x) == 1 -> ~ bounded x)
    as Habove.
  { intros x Hr Ho [_ Hb]. rewrite Hr, Ho in Hb. revert Hb. vm_compute. intros H. apply H.
    reflexivity. }
  split; [|split; [|split]].
  - eexists. eexists. eexists. eexists.
    split; [vm_compute; reflexivity|]. split; [reflexivity|]. split; [reflexivity|].
    split; [reflexivity|]. split; [vm_compute; reflexivity|]. split; [reflexivity|].
    split; [reflexivity|]. split; vm_compute; reflexivity.
  - eexists. split; [reflexivity|]. split; [vm_compute; reflexivity|].
    unfold bounded, remaining. cbn. intros [H _]. revert H. vm_compute. intros H. apply H.
    reflexivity.
  - eexists. eexists. split; [vm_compute; reflexivity|]. split; [reflexivity|].
    assert (remaining (PlainReq (mkRequest 0 (2 # 1) 1)) == 2) as Hr by reflexivity.
    assert (OriginalServiceTime (base (PlainReq (mkRequest 0 (2 # 1) 1))) == 1) as Ho
      by reflexivity.
    split; [exact Hr|]. split; [exact Ho|]. exact (Habove _ Hr Ho).
  - exists (run_resume 1 false (Some (SimpleReqCreator_NewRequest 1 1))
              (run_resume 0 false (Some (SimpleReqCreator_NewRequest 0 1))
                 (PSProcessor.start (-1)))).
    eexists. split.
    + repeat (apply Run_run_resume;
              [ | | intros r [= <-]; split; reflexivity
                | vm_compute; eexists; reflexivity
                | exact I ]).
      * apply PSProcessor.Run_start.
      * apply PSProcessor.WI_arrival; [decide_Q | left; decide_Q].
      * apply PSProcessor.WI_arrival; [decide_Q | left; decide_Q].
    + split; [vm_compute; reflexivity|].
      assert (remaining (PlainReq (mkRequest 0 (2 # 1) 1)) == 2) as Hr by reflexivity.
      assert (OriginalServiceTime (base (PlainReq (mkRequest 0 (2 # 1) 1))) == 1) as Ho
        by reflexivity.
      split; [exact Hr|]. split; [exact Ho|]. exact (Habove _ Hr Ho).
Qed.
End OutOfBounds.

